(** * Sql-Ai-Engine: SQL safety pipeline, schema cache and query history

    A shallow embedding of the JavaScript services of the repository
    (services/sqlService, ai/openrouter, db/connection, utils/cache and
    utils/queryHistory) together with the properties of the design
    specification that concern them.

    JavaScript strings are sequences of UTF-16 code units; they are
    modelled as [list N].  Regular expressions are modelled by a small
    abstract syntax and a backtracking matcher that follows the
    ECMAScript matching order (leftmost match, alternatives tried left to
    right, greedy quantifiers). *)

From Stdlib Require Import NArith ZArith Bool List Ascii String Lia.
From Stdlib Require Import DecimalString DecimalPos.
From stdpp Require Import base option list gmap strings.
Import ListNotations.

Local Open Scope N_scope.

(* ===================================================================== *)
(** ** JavaScript strings *)
(* ===================================================================== *)

Module JsString.

(** A JavaScript string: its UTF-16 code units. *)
Abbreviation jsstring := (list N).

(** The code units of an ASCII literal of the source. *)
Definition js (s : string) : jsstring :=
  List.map (fun a => N_of_ascii a) (list_ascii_of_string s).

(** WhiteSpace and LineTerminator code points of ECMAScript: the set
    removed by [String.prototype.trim] and matched by [\s]. *)
Definition isWhiteSpace (c : N) : bool :=
  (c =? 9) || (c =? 10) || (c =? 11) || (c =? 12) || (c =? 13) ||
  (c =? 32) || (c =? 160) || (c =? 5760) ||
  ((8192 <=? c) && (c <=? 8202)) ||
  (c =? 8232) || (c =? 8233) || (c =? 8239) || (c =? 8287) ||
  (c =? 12288) || (c =? 65279).

(** LineTerminator: the code units that [.] does not match. *)
Definition isLineTerminator (c : N) : bool :=
  (c =? 10) || (c =? 13) || (c =? 8232) || (c =? 8233).

(** [\d] *)
Definition isDigit (c : N) : bool := (48 <=? c) && (c <=? 57).

(** [\w], the word characters that decide [\b]. *)
Definition isWordChar (c : N) : bool :=
  ((97 <=? c) && (c <=? 122)) || ((65 <=? c) && (c <=? 90)) ||
  isDigit c || (c =? 95).

Fixpoint trimStart (s : jsstring) : jsstring :=
  match s with
  | c :: s' => if isWhiteSpace c then trimStart s' else s
  | [] => []
  end.

Definition trimEnd (s : jsstring) : jsstring :=
  List.rev (trimStart (List.rev s)).

(** [s.trim()] *)
Definition trim (s : jsstring) : jsstring := trimEnd (trimStart s).

(** The upper-case form of one code unit, as [String.prototype.toUpperCase]
    computes it (full Unicode case mapping, which may yield more than one
    unit).  The table holds the ASCII and Latin-1 letters and every
    other code unit whose upper-case form begins with an ASCII letter;
    the remaining units are kept as they are: their real upper-case form
    is made of non-ASCII units, which no comparison with the ASCII
    literals of this program can tell apart from the unit itself. *)
Definition upperUnit (c : N) : jsstring :=
  if (97 <=? c) && (c <=? 122) then [c - 32]
  else if c =? 181 then [924]
  else if c =? 223 then [83; 83]
  else if (224 <=? c) && (c <=? 254) && negb (c =? 247) then [c - 32]
  else if c =? 255 then [376]
  else if c =? 305 then [73]
  else if c =? 329 then [700; 78]
  else if c =? 383 then [83]
  else if c =? 496 then [74; 780]
  else if c =? 7830 then [72; 817]
  else if c =? 7831 then [84; 776]
  else if c =? 7832 then [87; 778]
  else if c =? 7833 then [89; 778]
  else if c =? 7834 then [65; 702]
  else if c =? 64256 then [70; 70]
  else if c =? 64257 then [70; 73]
  else if c =? 64258 then [70; 76]
  else if c =? 64259 then [70; 70; 73]
  else if c =? 64260 then [70; 70; 76]
  else if c =? 64261 then [83; 84]
  else if c =? 64262 then [83; 84]
  else [c].

(** [s.toUpperCase()] *)
Definition toUpperCase (s : jsstring) : jsstring :=
  List.flat_map upperUnit s.

(** [s.startsWith(p)] *)
Fixpoint startsWith (p s : jsstring) : bool :=
  match p, s with
  | [], _ => true
  | a :: p', b :: s' => (a =? b) && startsWith p' s'
  | _ :: _, [] => false
  end.

(** [s.endsWith(p)] *)
Definition endsWith (p s : jsstring) : bool :=
  startsWith (List.rev p) (List.rev s).

(** [s.split(sep)] for a separator of one code unit. *)
Fixpoint split (sep : N) (s : jsstring) : list jsstring :=
  match s with
  | [] => [[]]
  | c :: s' =>
      if c =? sep then [] :: split sep s'
      else match split sep s' with
           | seg :: rest => (c :: seg) :: rest
           | [] => [[c]]
           end
  end.

(** [s.indexOf(p)]: the first position at which [p] occurs. *)
Fixpoint indexOf (p s : jsstring) : option nat :=
  if startsWith p s then Some O
  else match s with
       | [] => None
       | _ :: s' => S <$> indexOf p s'
       end.

(** The last code unit read so far: [prev] when [m] is empty. *)
Definition lastUnit (prev : option N) (m : jsstring) : option N :=
  match List.rev m with
  | c :: _ => Some c
  | [] => prev
  end.

(** The decimal digits of a natural number. *)
Definition digitsOfN (n : N) : jsstring :=
  js (NilEmpty.string_of_uint (N.to_uint n)).

(** The Number nearest to a natural number: 53 significant bits, ties to
    the even significand.  (A natural number beyond the largest Number is
    no value of the program.) *)
Definition toNumber (x : N) : N :=
  let e := N.size x - 53 in
  if e =? 0 then x
  else
    let q := N.shiftr x e in
    let r := x - N.shiftl q e in
    let half := N.shiftl 1 (e - 1) in
    let q' := if (half <? r) || ((r =? half) && N.odd q) then q + 1 else q in
    N.shiftl q' e.

(** The decimal value [v] is read back as the Number [x]: it lies in the
    rounding interval of [x], whose ends belong to it when the
    significand of [x] is even.  The comparisons are made on four times
    the values, the lower half-gap of a power of two being a quarter of
    the upper gap. *)
Definition readsAs (x v : N) : bool :=
  let e := N.size x - 53 in
  let m := N.shiftr x e in
  let up := N.shiftl 1 (e + 1) in
  let down := if m =? N.shiftl 1 52 then N.shiftl 1 e else up in
  if N.even m
  then (4 * x <=? 4 * v + down) && (4 * v <=? 4 * x + up)
  else (4 * x <? 4 * v + down) && (4 * v <? 4 * x + up).

Definition decimalLength (x : N) : N := N.of_nat (List.length (digitsOfN x)).

(** The decimal value with the fewest significant digits that is read
    back as [x], and the closest to [x] among those (the even one at
    equal distance); [k] significant digits are tried first. *)
Fixpoint shortest (fuel : nat) (k : N) (x : N) : N :=
  match fuel with
  | O => x
  | S fuel' =>
      let scale := 10 ^ (decimalLength x - k) in
      let a := (x / scale) * scale in
      let b := a + scale in
      match readsAs x a, readsAs x b with
      | true, true =>
          if x - a <? b - x then a
          else if b - x <? x - a then b
          else if N.even (x / scale) then a else b
      | true, false => a
      | false, true => b
      | false, false => shortest fuel' (k + 1) x
      end
  end.

Fixpoint dropZeros (l : jsstring) : jsstring :=
  match l with
  | 48 :: l' => dropZeros l'
  | _ => l
  end.

(** Number::toString for a natural number: below 2^53 its digits; from
    there on the shortest digits that are read back as the Number,
    followed by zeros up to 21 digits and in the exponent form beyond
    (1e+21). *)
Definition printNatural (x : N) : jsstring :=
  if N.size x <=? 53 then digitsOfN x
  else
    let v := shortest 17 1 (toNumber x) in
    let n := decimalLength v in
    if n <=? 21 then digitsOfN v
    else
      match digitsOfN v with
      | d :: rest =>
          let fraction := List.rev (dropZeros (List.rev rest)) in
          d :: (match fraction with [] => [] | _ => 46 :: fraction end)
            ++ js "e+" ++ digitsOfN (n - 1)
      | [] => []
      end.

(** An integer as a template literal prints it. *)
Definition numberToString (z : Z) : jsstring :=
  match z with
  | Z0 => js "0"
  | Zpos p => printNatural (Npos p)
  | Zneg p => js "-" ++ printNatural (Npos p)
  end.

End JsString.

(* ===================================================================== *)
(** ** Regular expressions *)
(* ===================================================================== *)

Module Regex.
Import JsString.

Inductive charclass : Type :=
| Space                   (* \s *)
| Digit                   (* \d *)
| Dot                     (* .  *)
| OneOf (l : list N).     (* [...] *)

Inductive regex : Type :=
| Empty
| Char (c : N)
| Class (cls : charclass)
| Seq (r1 r2 : regex)
| Alt (r1 r2 : regex)
| Star (r : regex)        (* greedy r* *)
| WordB                   (* \b *)
| Bol                     (* ^ (no m flag) *)
| Eol.                    (* $ (no m flag) *)

(** [r+] and the greedy [r?] *)
Definition Plus (r : regex) : regex := Seq r (Star r).
Definition Opt (r : regex) : regex := Alt r Empty.

(** The characters of a literal, in sequence. *)
Fixpoint lit_units (l : jsstring) : regex :=
  match l with
  | [] => Empty
  | [c] => Char c
  | c :: l' => Seq (Char c) (lit_units l')
  end.
Definition lit (s : string) : regex := lit_units (js s).

(** A group of alternatives [(a|b|...)]. *)
Fixpoint alts (l : list regex) : regex :=
  match l with
  | [] => Empty
  | [r] => r
  | r :: l' => Alt r (alts l')
  end.

Record RegExp : Type := mkRegExp {
  source : regex;
  ignoreCase : bool       (* the i flag *)
}.

(** Canonicalize of the ECMAScript pattern semantics, without the u flag. *)
Definition canonicalize (c : N) : N :=
  match upperUnit c with
  | [u] => if (128 <=? c) && (u <? 128) then c else u
  | _ => c
  end.

Definition unitMatches (ic : bool) (p c : N) : bool :=
  if ic then canonicalize p =? canonicalize c else p =? c.

Definition inClass (cls : charclass) (c : N) : bool :=
  match cls with
  | Space => isWhiteSpace c
  | Digit => isDigit c
  | Dot => negb (isLineTerminator c)
  | OneOf l => List.existsb (N.eqb c) l
  end.

Definition isWordAt (o : option N) : bool :=
  match o with
  | Some c => isWordChar c
  | None => false
  end.

Section Matcher.
Context {A : Type}.
Variable ic : bool.

(** A continuation receives the unit read last and the rest of the
    input. *)
Definition cont : Type := option N -> jsstring -> option A.

Section Loop.
Variable step : option N -> jsstring -> cont -> option A.
Variable k : cont.

(** Greedy iteration: one more round is tried first, an iteration
    that reads nothing is refused, then the continuation. *)
Fixpoint star_loop (fuel : nat) (prev : option N) (s : jsstring)
  : option A :=
  match fuel with
  | O => k prev s
  | S n =>
      match step prev s
              (fun p' s' =>
                 if (List.length s' <? List.length s)%nat
                 then star_loop n p' s' else None) with
      | Some a => Some a
      | None => k prev s
      end
  end.
End Loop.

Fixpoint mt (r : regex) (prev : option N) (s : jsstring) (k : cont)
  : option A :=
  match r with
  | Empty => k prev s
  | Char c =>
      match s with
      | x :: s' => if unitMatches ic c x then k (Some x) s' else None
      | [] => None
      end
  | Class cls =>
      match s with
      | x :: s' => if inClass cls x then k (Some x) s' else None
      | [] => None
      end
  | Seq r1 r2 => mt r1 prev s (fun p' s' => mt r2 p' s' k)
  | Alt r1 r2 =>
      match mt r1 prev s k with
      | Some a => Some a
      | None => mt r2 prev s k
      end
  | Star r' => star_loop (mt r') k (List.length s) prev s
  | WordB =>
      if xorb (isWordAt prev) (isWordAt (List.head s))
      then k prev s else None
  | Bol => match prev with None => k prev s | Some _ => None end
  | Eol => match s with [] => k prev s | _ :: _ => None end
  end.
End Matcher.

(** A match at the current position: what is left of the input. *)
Definition matchHere (re : RegExp) (prev : option N) (s : jsstring)
  : option jsstring :=
  mt (ignoreCase re) (source re) prev s (fun _ rest => Some rest).

(** The leftmost match at or after the current position:
    (text before, matched text, text after). *)
Fixpoint search (re : RegExp) (prev : option N) (before : jsstring)
  (s : jsstring) : option (jsstring * jsstring * jsstring) :=
  match matchHere re prev s with
  | Some rest =>
      Some (List.rev before,
            List.firstn (List.length s - List.length rest)%nat s, rest)
  | None =>
      match s with
      | [] => None
      | c :: s' => search re (Some c) (c :: before) s'
      end
  end.

(** [re.test(s)] *)
Definition test (re : RegExp) (s : jsstring) : bool :=
  match search re None [] s with Some _ => true | None => false end.

(** [s.match(re)]: the matched text, [re] without the g flag. *)
Definition match_ (re : RegExp) (s : jsstring) : option jsstring :=
  match search re None [] s with
  | Some (_, m, _) => Some m
  | None => None
  end.

(** [s.replace(re, repl)] for [re] without the g flag and a replacement
    text without [$] patterns. *)
Definition replace (re : RegExp) (repl : jsstring) (s : jsstring)
  : jsstring :=
  match search re None [] s with
  | Some (before, _, after) => before ++ repl ++ after
  | None => s
  end.

(** [s.replace(re, repl)] for [re] with the g flag: every match, each
    search resuming where the previous match ended (one unit further
    after an empty match). *)
Fixpoint replaceAll_from (fuel : nat) (re : RegExp) (repl : jsstring)
  (prev : option N) (s : jsstring) : jsstring :=
  match fuel with
  | O => s
  | S n =>
      match search re prev [] s with
      | None => s
      | Some (before, m, after) =>
          match m, after with
          | [], [] => before ++ repl
          | [], c :: after' =>
              before ++ repl ++
                c :: replaceAll_from n re repl (Some c) after'
          | _ :: _, _ =>
              before ++ repl ++
                replaceAll_from n re repl
                  (lastUnit prev (before ++ m)) after
          end
      end
  end.

Definition replaceAll (re : RegExp) (repl : jsstring) (s : jsstring)
  : jsstring :=
  replaceAll_from (S (List.length s)) re repl None s.

(** *** Declarative reading of a pattern

    [Matches ic r p s p' s']: from the input [s], the unit [p] having been
    read last, the pattern [r] can read a prefix of [s] and leave [s'],
    [p'] being the unit read last at that point. *)
Inductive Matches (ic : bool)
  : regex -> option N -> jsstring -> option N -> jsstring -> Prop :=
| M_Empty p s : Matches ic Empty p s p s
| M_Char c x p s :
    unitMatches ic c x = true -> Matches ic (Char c) p (x :: s) (Some x) s
| M_Class cls x p s :
    inClass cls x = true -> Matches ic (Class cls) p (x :: s) (Some x) s
| M_Seq r1 r2 p s p1 s1 p2 s2 :
    Matches ic r1 p s p1 s1 -> Matches ic r2 p1 s1 p2 s2 ->
    Matches ic (Seq r1 r2) p s p2 s2
| M_AltL r1 r2 p s p' s' :
    Matches ic r1 p s p' s' -> Matches ic (Alt r1 r2) p s p' s'
| M_AltR r1 r2 p s p' s' :
    Matches ic r2 p s p' s' -> Matches ic (Alt r1 r2) p s p' s'
| M_Star0 r p s : Matches ic (Star r) p s p s
| M_StarS r p s p1 s1 p2 s2 :
    Matches ic r p s p1 s1 ->
    (List.length s1 < List.length s)%nat ->
    Matches ic (Star r) p1 s1 p2 s2 ->
    Matches ic (Star r) p s p2 s2
| M_WordB p s :
    xorb (isWordAt p) (isWordAt (List.head s)) = true ->
    Matches ic WordB p s p s
| M_Bol s : Matches ic Bol None s None s
| M_Eol p : Matches ic Eol p [] p [].

(** The pattern matches somewhere in [s]. *)
Definition MatchesIn (re : RegExp) (s : jsstring) : Prop :=
  exists pre m post p',
    s = pre ++ m ++ post /\
    Matches (ignoreCase re) (source re) (lastUnit None pre) (m ++ post)
      p' post.

End Regex.


(* ===================================================================== *)
(** ** Values and results *)
(* ===================================================================== *)

Module Js.
Import JsString.

(** The values stored in objects of the program (rows, history entries). *)
Inductive jsval : Type :=
| JUndefined
| JNull
| JBool (b : bool)
| JNum (z : Z)
| JStr (s : jsstring).

#[global] Instance jsval_eq_dec : EqDecision jsval.
Proof. solve_decision. Defined.

(** ToBoolean *)
Definition truthy (v : jsval) : bool :=
  match v with
  | JUndefined | JNull => false
  | JBool b => b
  | JNum z => negb (z =? 0)%Z
  | JStr s => negb (Nat.eqb (List.length s) 0)
  end.

(** [a || b] on values *)
Definition or_else (a b : jsval) : jsval := if truthy a then a else b.

(** [a || b || c] where the operands are an option, an environment
    variable read by parseInt (absent when unset or not a number) and a
    default: 0 and absent values are falsy. *)
Definition num_or (a : option Z) (b : Z) : Z :=
  match a with
  | Some z => if (z =? 0)%Z then b else z
  | None => b
  end.

(** The outcome of a call: a returned value or a thrown [Error] with
    its message. *)
Inductive result (A : Type) : Type :=
| Ok (a : A)
| Throw (message : jsstring).
Arguments Ok {A} a.
Arguments Throw {A} message.

Definition bind {A B : Type} (r : result A) (f : A -> result B) : result B :=
  match r with
  | Ok a => f a
  | Throw m => Throw m
  end.

(** A result row of a query: column name to value. *)
Abbreviation row := (gmap string jsval).

End Js.

(* ===================================================================== *)
(** ** db/connection: executeWithTimeout *)
(* ===================================================================== *)

Module Connection.
Import JsString Js.

(** The three connection factories of the module. *)
Inductive driver : Type := SQLite | MySQL | Postgres.

(** What the database does with a statement: how long the statement runs
    (milliseconds) and what it yields in the end. *)
Record completion : Type := mkCompletion {
  duration : Z;
  outcome : result (list row)
}.

(** A connection: its driver and the behaviour of [asyncAll]. *)
Record connection : Type := mkConnection {
  dbType : driver;
  asyncAll : jsstring -> completion
}.

(** How a promise handed to [Promise.race] settles: the time of
    settlement, counted from the moment the race is set up. *)
Record settlement : Type := mkSettlement {
  settledAt : Z;
  settledWith : result (list row)
}.

(** [db.asyncAll(sql, params)] seen from [executeWithTimeout].
    initSQLite defines [asyncAll] as
    [Promise.resolve(db.prepare(sql).all(...))]: better-sqlite3 runs the
    statement to its end inside the call, so the promise is settled when
    the call returns and the caller has been blocked for the whole
    duration.  The mysql2 and pg pools return a pending promise that
    settles when the server answers. *)
Definition asyncAllPromise (db : connection) (sql : jsstring)
  : Z * settlement :=
  let c := asyncAll db sql in
  match dbType db with
  | SQLite => (duration c, mkSettlement 0 (outcome c))
  | MySQL | Postgres => (0%Z, mkSettlement (duration c) (outcome c))
  end.

(** The delay that [setTimeout] applies: Node sets a delay below 1 or
    above 2147483647 milliseconds to 1. *)
Definition timerDelay (timeout : Z) : Z :=
  if (timeout <? 1)%Z || (2147483647 <? timeout)%Z then 1%Z else timeout.

(** The second promise of the race: rejects when the timer fires. *)
Definition timerPromise (timeout : Z) : settlement :=
  mkSettlement (timerDelay timeout)
    (Throw (js "Query timed out after " ++ numberToString timeout
              ++ js "ms")).

(** [Promise.race]: the promise that settles first; the first of the
    array when both are settled at the same time. *)
Definition race (p q : settlement) : settlement :=
  if (settledAt q <? settledAt p)%Z then q else p.

(** [executeWithTimeout(db, sql, params, timeout)]: the outcome and the
    time elapsed until it is delivered. *)
Definition executeWithTimeout (db : connection) (sql : jsstring)
  (timeout : Z) : result (list row) * Z :=
  let '(blocked, p) := asyncAllPromise db sql in
  let w := race p (timerPromise timeout) in
  (settledWith w, (blocked + settledAt w)%Z).

End Connection.

(* ===================================================================== *)
(** ** services/sqlService *)
(* ===================================================================== *)

Module SqlService.
Import JsString Js Regex Connection.

Definition seqs (l : list regex) : regex :=
  List.fold_right Seq Empty l.

Definition space_plus : regex := Plus (Class Space).
Definition space_star : regex := Star (Class Space).

(** The code units of the quote characters: double quote, single quote,
    backtick. *)
Definition quoteUnits : list N := [34; 39; 96].

(** [/\b(INSERT|UPDATE|DELETE|DROP|TRUNCATE|ALTER|CREATE|GRANT|REVOKE)\b/i] *)
Definition pat_modify : RegExp :=
  mkRegExp
    (seqs [WordB;
           alts [lit "INSERT"; lit "UPDATE"; lit "DELETE"; lit "DROP";
                 lit "TRUNCATE"; lit "ALTER"; lit "CREATE"; lit "GRANT";
                 lit "REVOKE"];
           WordB]) true.

(** [/\b(EXEC|EXECUTE|EVAL)\b/i] *)
Definition pat_exec : RegExp :=
  mkRegExp
    (seqs [WordB; alts [lit "EXEC"; lit "EXECUTE"; lit "EVAL"]; WordB])
    true.

(** [/\bINTO\s+OUTFILE\b/i] *)
Definition pat_outfile : RegExp :=
  mkRegExp (seqs [WordB; lit "INTO"; space_plus; lit "OUTFILE"; WordB]) true.

(** [/\bINTO\s+DUMPFILE\b/i] *)
Definition pat_dumpfile : RegExp :=
  mkRegExp (seqs [WordB; lit "INTO"; space_plus; lit "DUMPFILE"; WordB]) true.

(** [/\bLOAD_FILE\b/i] *)
Definition pat_load_file : RegExp :=
  mkRegExp (seqs [WordB; lit "LOAD_FILE"; WordB]) true.

(** [/;\s*--/] *)
Definition pat_comment : RegExp :=
  mkRegExp (seqs [lit ";"; space_star; lit "--"]) false.

(** [/UNION\s+ALL\s+SELECT.*FROM\s+INFORMATION_SCHEMA/i] *)
Definition pat_schema_enum : RegExp :=
  mkRegExp
    (seqs [lit "UNION"; space_plus; lit "ALL"; space_plus; lit "SELECT";
           Star (Class Dot); lit "FROM"; space_plus;
           lit "INFORMATION_SCHEMA"]) true.

Definition DANGEROUS_PATTERNS : list RegExp :=
  [pat_modify; pat_exec; pat_outfile; pat_dumpfile; pat_load_file;
   pat_comment; pat_schema_enum].

(** [validateSQL(sql)]: returns [true] or throws. *)
Definition validateSQL (sql : jsstring) : result bool :=
  if Nat.eqb (List.length sql) 0 || Nat.eqb (List.length (trim sql)) 0
  then Throw (js "Empty SQL query")
  else
    let trimmedSQL := toUpperCase (trim sql) in
    if negb (startsWith (js "SELECT") trimmedSQL)
       && negb (startsWith (js "WITH") trimmedSQL)
    then Throw (js "Only SELECT queries are allowed")
    else if List.existsb (fun pattern => test pattern sql) DANGEROUS_PATTERNS
    then Throw (js "Query contains potentially dangerous operations")
    else
      let statements :=
        List.filter (fun s => Nat.ltb 0 (List.length (trim s)))
          (split 59 sql) in
      if Nat.ltb 1 (List.length statements)
      then Throw (js "Multiple SQL statements are not allowed")
      else Ok true.

(** [/^```sql\s*/i] *)
Definition re_fence_sql : RegExp :=
  mkRegExp (seqs [Bol; lit "```sql"; space_star]) true.

(** [/^```\s*/i] *)
Definition re_fence_open : RegExp :=
  mkRegExp (seqs [Bol; lit "```"; space_star]) true.

(** [/\s*```$/i] *)
Definition re_fence_close : RegExp :=
  mkRegExp (seqs [space_star; lit "```"; Eol]) true.

(** [/^["'`]+|["'`]+$/g] *)
Definition re_quotes : RegExp :=
  mkRegExp
    (Alt (Seq Bol (Plus (Class (OneOf quoteUnits))))
         (Seq (Plus (Class (OneOf quoteUnits))) Eol)) false.

(** [cleanSQL(sql)] *)
Definition cleanSQL (sql : jsstring) : jsstring :=
  let cleaned := trim sql in
  let cleaned := replace re_fence_sql [] cleaned in
  let cleaned := replace re_fence_open [] cleaned in
  let cleaned := replace re_fence_close [] cleaned in
  let cleaned := replaceAll re_quotes [] cleaned in
  if negb (endsWith (js ";") cleaned) then cleaned ++ js ";" else cleaned.

(** [/\bLIMIT\s+\d+/i] *)
Definition re_limit : RegExp :=
  mkRegExp (seqs [WordB; lit "LIMIT"; space_plus; Plus (Class Digit)]) true.

(** [/;?\s*$/] *)
Definition re_tail : RegExp :=
  mkRegExp (seqs [Opt (lit ";"); space_star; Eol]) false.

(** The options of a request and the environment variables read by
    [executeSQL]; a variable is absent when it is unset or parseInt
    yields NaN. *)
Record options : Type := mkOptions {
  opt_timeout : option Z;
  opt_maxRows : option Z;
  opt_explain : bool;
  opt_requestId : option jsstring
}.

Record environment : Type := mkEnvironment {
  QUERY_TIMEOUT_MS : option Z;
  MAX_RESULT_ROWS : option Z
}.

Definition timeoutOf (o : options) (env : environment) : Z :=
  num_or (opt_timeout o) (num_or (QUERY_TIMEOUT_MS env) 30000).

Definition maxRowsOf (o : options) (env : environment) : Z :=
  num_or (opt_maxRows o) (num_or (MAX_RESULT_ROWS env) 1000).

(** The statement handed to the database: lines 164-167 of the service. *)
Definition limitedSQL (sql : jsstring) (maxRows : Z) : jsstring :=
  if negb (test re_limit sql)
  then replace re_tail (js " LIMIT " ++ numberToString maxRows ++ js ";") sql
  else sql.

Record execution : Type := mkExecution {
  results : list row;
  rowCount : nat;
  executionTimeMs : Z;
  limitApplied : bool
}.

Definition jsstring_eqb (a b : jsstring) : bool :=
  bool_decide (a = b).

(** [executeSQL(sql, db, options)] *)
Definition executeSQL (sql : jsstring) (db : connection) (o : options)
  (env : environment) : result execution :=
  let timeout := timeoutOf o env in
  let maxRows := maxRowsOf o env in
  bind (validateSQL sql) (fun _ =>
    let limited := limitedSQL sql maxRows in
    let '(res, elapsed) := executeWithTimeout db limited timeout in
    bind res (fun rows =>
      Ok (mkExecution rows (List.length rows) elapsed
            (negb (jsstring_eqb limited sql))))).

End SqlService.

(* ===================================================================== *)
(** ** ai/openrouter: cleanSQLResponse *)
(* ===================================================================== *)

Module OpenRouter.
Import JsString Js Regex SqlService.

(** [/\b(SELECT|WITH)\s+/i] *)
Definition re_anchor : RegExp :=
  mkRegExp (seqs [WordB; alts [lit "SELECT"; lit "WITH"]; space_plus]) true.

(** [cleanSQLResponse(response)] *)
Definition cleanSQLResponse (response : jsstring) : jsstring :=
  let sql := trim response in
  let sql := replace re_fence_sql [] sql in
  let sql := replace re_fence_open [] sql in
  let sql := replace re_fence_close [] sql in
  let sql := replaceAll re_quotes [] sql in
  let sql :=
    match match_ re_anchor sql with
    | Some selectMatch =>
        match indexOf selectMatch sql with
        | Some startIndex => List.skipn startIndex sql
        | None => sql
        end
    | None => sql
    end in
  let sql := trim sql in
  if negb (endsWith (js ";") sql) then sql ++ js ";" else sql.

End OpenRouter.

(* ===================================================================== *)
(** ** utils/cache: the LRU schema cache *)
(* ===================================================================== *)

Module Cache.
Import JsString Js.

(** The options of the [LRUCache] constructor that the module sets. *)
Record lru_options : Type := mkLruOptions {
  max : Z;
  ttl : Z;
  updateAgeOnGet : bool;
  updateAgeOnHas : bool
}.

Section LRU.
Context {V : Type}.

(** An entry of the cache: the time its age is counted from and its
    time-to-live, both in milliseconds. *)
Record lru_entry : Type := mkEntry {
  key : jsstring;
  value : V;
  start : Z;
  entry_ttl : Z
}.

(** The entries, the most recently used first. *)
Definition lru : Type := list lru_entry.

Definition has_key (k : jsstring) (e : lru_entry) : bool :=
  bool_decide (key e = k).

Definition lookup_entry (k : jsstring) (c : lru) : option lru_entry :=
  List.find (has_key k) c.

Definition remove_key (k : jsstring) (c : lru) : lru :=
  List.filter (fun e => negb (has_key k e)) c.

(** isStale of lru-cache: an entry with a time-to-live is stale once its
    age exceeds it. *)
Definition isStale (e : lru_entry) (now : Z) : bool :=
  negb (entry_ttl e =? 0)%Z && negb (start e =? 0)%Z
  && (entry_ttl e <? now - start e)%Z.

(** updateItemAge of lru-cache: the age is counted from [now] again. *)
Definition updateItemAge (e : lru_entry) (now : Z) : lru_entry :=
  mkEntry (key e) (value e)
    (if (entry_ttl e =? 0)%Z then 0%Z else now) (entry_ttl e).

(** [cache.get(k)]: a stale entry is deleted and reported absent; a live
    one becomes the most recently used and, under updateAgeOnGet, has its
    age reset. *)
Definition lru_get (o : lru_options) (k : jsstring) (now : Z) (c : lru)
  : option V * lru :=
  match lookup_entry k c with
  | None => (None, c)
  | Some e =>
      if isStale e now then (None, remove_key k c)
      else
        let e' := if updateAgeOnGet o then updateItemAge e now else e in
        (Some (value e), e' :: remove_key k c)
  end.

(** [cache.has(k)]: recency is left alone; under updateAgeOnHas the age
    of a live entry is reset. *)
Definition lru_has (o : lru_options) (k : jsstring) (now : Z) (c : lru)
  : bool * lru :=
  match lookup_entry k c with
  | None => (false, c)
  | Some e =>
      if isStale e now then (false, c)
      else
        (true,
         if updateAgeOnHas o
         then List.map (fun x => if has_key k x then updateItemAge x now
                                 else x) c
         else c)
  end.

(** [cache.set(k, v, { ttl })]: an absent ttl is the cache's own; the
    entry becomes the most recently used and the least recently used one
    is evicted when the capacity is exceeded. *)
Definition lru_set (o : lru_options) (k : jsstring) (v : V)
  (ttl_opt : option Z) (now : Z) (c : lru) : lru :=
  let t := default (ttl o) ttl_opt in
  let e := mkEntry k v (if (t =? 0)%Z then 0%Z else now) t in
  let c' := e :: remove_key k c in
  if (max o <? Z.of_nat (List.length c'))%Z then List.removelast c' else c'.

(** [cache.delete(k)] and [cache.clear()] *)
Definition lru_delete (k : jsstring) (c : lru) : lru := remove_key k c.
Definition lru_clear (c : lru) : lru := [].

End LRU.
Arguments lru_entry V : clear implicits.
Arguments lru V : clear implicits.

(** The environment variables read when the module is loaded. *)
Record cache_environment : Type := mkCacheEnvironment {
  SCHEMA_CACHE_MAX_SIZE : option Z;
  SCHEMA_CACHE_TTL_MS : option Z
}.

(** The options of [const cache = new LRUCache({...})]. *)
Definition cache_options (env : cache_environment) : lru_options :=
  mkLruOptions (num_or (SCHEMA_CACHE_MAX_SIZE env) 50)
               (num_or (SCHEMA_CACHE_TTL_MS env) 300000)
               true true.

Section Schema.
Context {schema : Type}.
Variable env : cache_environment.

Definition getSchemaFromCache (k : jsstring) (now : Z) (c : lru schema)
  : option schema * lru schema :=
  lru_get (cache_options env) k now c.

Definition setSchemaInCache (k : jsstring) (s : schema)
  (ttl_opt : option Z) (now : Z) (c : lru schema) : lru schema :=
  lru_set (cache_options env) k s ttl_opt now c.

Definition clearCacheKey (k : jsstring) (c : lru schema) : lru schema :=
  lru_delete k c.

Definition clearAllCache (c : lru schema) : lru schema := lru_clear c.

Definition hasInCache (k : jsstring) (now : Z) (c : lru schema)
  : bool * lru schema :=
  lru_has (cache_options env) k now c.

(** Reading the same key at each of the given times, in order: the
    answers and the cache left behind. *)
Fixpoint readAt (k : jsstring) (times : list Z) (c : lru schema)
  : list (option schema) * lru schema :=
  match times with
  | [] => ([], c)
  | t :: ts =>
      let '(v, c1) := getSchemaFromCache k t c in
      let '(vs, c2) := readAt k ts c1 in
      (v :: vs, c2)
  end.

End Schema.

(** The reads happen in order and each within [t] milliseconds of the
    access before it, the first access being at [t0]. *)
Fixpoint eachWithin (t : Z) (t0 : Z) (times : list Z) : Prop :=
  match times with
  | [] => True
  | t1 :: ts => (t0 <= t1 /\ t1 - t0 <= t)%Z /\ eachWithin t t1 ts
  end.

(** The time of the last access. *)
Definition lastAccess (t0 : Z) (times : list Z) : Z :=
  List.last times t0.

End Cache.

(* ===================================================================== *)
(** ** utils/queryHistory: the in-memory history *)
(* ===================================================================== *)

Module QueryHistory.
Import JsString Js.

(** A history entry is a JavaScript object: property name to value. *)
Abbreviation entry := (gmap string jsval).

Definition MAX_HISTORY_SIZE : nat := 1000.

(** The object literal [{ id: history.length + 1, ...entry, timestamp:
    entry.timestamp || new Date().toISOString() }]: the properties of
    [entry] are copied over [id], then [timestamp] is written. *)
Definition newItem (e : entry) (now : jsstring) (history : list entry)
  : entry :=
  <["timestamp" :=
      or_else (default JUndefined (e !! "timestamp")) (JStr now)]>
    (e ∪ {["id" := JNum (Z.of_nat (List.length history) + 1)]}).

(** [addToHistory(entry)]: unshift, then pop when the size exceeds the
    maximum. *)
Definition addToHistory (e : entry) (now : jsstring) (history : list entry)
  : list entry :=
  let history' := newItem e now history :: history in
  if Nat.ltb MAX_HISTORY_SIZE (List.length history')
  then List.removelast history' else history'.

(** [clearHistory()] *)
Definition clearHistory (history : list entry) : list entry := [].

(** [getHistoryById(id)]: [history.find(h => h.id === id)] *)
Definition getHistoryById (id : Z) (history : list entry) : option entry :=
  List.find (fun h => bool_decide (h !! "id" = Some (JNum id))) history.

(** Adding the entries of a list one after the other. *)
Fixpoint addAll (es : list entry) (now : jsstring) (history : list entry)
  : list entry :=
  match es with
  | [] => history
  | e :: es' => addAll es' now (addToHistory e now history)
  end.

End QueryHistory.

(* ===================================================================== *)
(** ** services/sqlService: generateSQL and queryFromQuestion *)
(* ===================================================================== *)

Module Pipeline.
Import JsString Js Regex Connection SqlService QueryHistory.

(** What the collaborators outside the service answer during one
    request: the schema (from the cache or from introspection) as the
    list of its table names, the text returned by the model, the
    explanation, and the readings of the clock. *)
Record collaborators : Type := mkCollaborators {
  schemaOutcome : result (list jsstring);
  aiOutcome : result jsstring;
  explainOutcome : result jsstring;
  generationTime : Z;
  totalTime : Z;
  nowString : jsstring;
  nowISO : jsstring
}.

Record generation : Type := mkGeneration {
  g_sql : jsstring;
  generationTimeMs : Z;
  schemaUsed : list jsstring
}.

(** [generateSQL(question, db, options)] *)
Definition generateSQL (w : collaborators) : result generation :=
  bind (schemaOutcome w) (fun schema =>
  bind (aiOutcome w) (fun rawSQL =>
    let sql := cleanSQL rawSQL in
    bind (validateSQL sql) (fun _ =>
      Ok (mkGeneration sql (generationTime w) schema)))).

Record response : Type := mkResponse {
  r_question : jsstring;
  r_sql : jsstring;
  r_results : list row;
  r_rowCount : nat;
  r_explanation : option jsstring;
  r_timing : Z * Z * Z;
  r_requestId : jsstring;
  r_limitApplied : bool;
  r_schemaTablesUsed : list jsstring
}.

Definition requestIdOf (o : options) (w : collaborators) : jsstring :=
  match opt_requestId o with
  | Some id => if Nat.eqb (List.length id) 0 then nowString w else id
  | None => nowString w
  end.

(** The entry recorded after a success. *)
Definition successEntry (question : jsstring) (o : options)
  (w : collaborators) (g : generation) (e : execution) : entry :=
  list_to_map
    [("requestId", JStr (requestIdOf o w));
     ("question", JStr question);
     ("sql", JStr (g_sql g));
     ("success", JBool true);
     ("rowCount", JNum (Z.of_nat (rowCount e)));
     ("generationTimeMs", JNum (generationTimeMs g));
     ("executionTimeMs", JNum (executionTimeMs e));
     ("totalTimeMs", JNum (totalTime w));
     ("timestamp", JStr (nowISO w))].

(** The entry recorded after a failure. *)
Definition failureEntry (question : jsstring) (o : options)
  (w : collaborators) (message : jsstring) : entry :=
  list_to_map
    [("requestId", JStr (requestIdOf o w));
     ("question", JStr question);
     ("sql", JNull);
     ("success", JBool false);
     ("error", JStr message);
     ("totalTimeMs", JNum (totalTime w));
     ("timestamp", JStr (nowISO w))].

(** The explanation: asked for only when requested and when there are
    rows; its failure is caught and leaves [null]. *)
Definition explanationOf (o : options) (w : collaborators) (e : execution)
  : option jsstring :=
  if opt_explain o && Nat.ltb 0 (List.length (results e))
  then match explainOutcome w with
       | Ok text => Some text
       | Throw _ => None
       end
  else None.

Definition responseOf (question : jsstring) (o : options)
  (w : collaborators) (g : generation) (e : execution) : response :=
  mkResponse question (g_sql g) (results e) (rowCount e)
    (explanationOf o w e)
    (generationTimeMs g, executionTimeMs e, totalTime w)
    (requestIdOf o w) (limitApplied e) (schemaUsed g).

(** Generation then execution: what the request yields before anything
    is recorded. *)
Definition primary (question : jsstring) (db : connection) (o : options)
  (env : environment) (w : collaborators) : result response :=
  bind (generateSQL w) (fun g =>
  bind (executeSQL (g_sql g) db o env) (fun e =>
    Ok (responseOf question o w g e))).

Section Recorder.
(** The recorder: [addToHistory] acting on the state [H] of the history
    module; it returns the new state or throws. *)
Context {H : Type}.
Variable addToHistory : entry -> H -> result H.

(** [queryFromQuestion(question, db, options)]: the outcome delivered to
    the caller and the state of the history afterwards.  The recording of
    a success sits inside the try block; the catch block records the
    failure and throws the error again. *)
Definition queryFromQuestion (question : jsstring) (db : connection)
  (o : options) (env : environment) (w : collaborators) (h : H)
  : result response * H :=
  let attempt : result (response * H) :=
    bind (generateSQL w) (fun g =>
    bind (executeSQL (g_sql g) db o env) (fun e =>
    bind (addToHistory (successEntry question o w g e) h) (fun h' =>
      Ok (responseOf question o w g e, h')))) in
  match attempt with
  | Ok (resp, h') => (Ok resp, h')
  | Throw error =>
      match addToHistory (failureEntry question o w error) h with
      | Ok h' => (Throw error, h')
      | Throw error' => (Throw error', h)
      end
  end.

End Recorder.

(** The recorder of utils/queryHistory. *)
Definition inMemoryRecorder (now : jsstring) (e : entry) (h : list entry)
  : result (list entry) :=
  Ok (QueryHistory.addToHistory e now h).

End Pipeline.

(* ===================================================================== *)
(** ** The vocabulary of the specification *)
(* ===================================================================== *)

Module Wording.
Import JsString Js Regex.

(** Case folding of the ASCII letters. *)
Definition foldCase (c : N) : N :=
  if (97 <=? c) && (c <=? 122) then c - 32 else c.

(** Two texts that differ at most in the case of ASCII letters. *)
Definition sameIgnoringCase (a b : jsstring) : Prop :=
  List.map foldCase a = List.map foldCase b.

(** [w] spells the keyword [kw], in any case. *)
Definition spells (kw : string) (w : jsstring) : Prop :=
  sameIgnoringCase (js kw) w.

(** A text made of white space only (possibly empty). *)
Definition blank (s : jsstring) : Prop :=
  List.Forall (fun c => isWhiteSpace c = true) s.

(** A run of white space: blank and not empty. *)
Definition spacing (s : jsstring) : Prop := s <> [] /\ blank s.

(** The text before (after) a position ends (starts) with a word
    character. *)
Definition endsInWord (pre : jsstring) : bool := isWordAt (lastUnit None pre).
Definition startsInWord (post : jsstring) : bool := isWordAt (List.head post).

(** A keyword is a text of ASCII units that starts and ends with a word
    character. *)
Definition keyword (kw : string) : bool :=
  List.forallb (fun k => k <? 128) (js kw)
  && isWordAt (List.head (js kw)) && isWordAt (lastUnit None (js kw)).

(** The keyword occurs in [s] as a whole word. *)
Definition occursAsWord (kw : string) (s : jsstring) : Prop :=
  exists pre w post,
    s = pre ++ w ++ post /\ spells kw w /\
    endsInWord pre = false /\ startsInWord post = false.

(** The two keywords occur in [s] as a phrase: whole words separated by
    white space. *)
Definition occursAsPhrase (kw1 kw2 : string) (s : jsstring) : Prop :=
  exists pre w1 ws w2 post,
    s = pre ++ w1 ++ ws ++ w2 ++ post /\
    spells kw1 w1 /\ spacing ws /\ spells kw2 w2 /\
    endsInWord pre = false /\ startsInWord post = false.

(** The keywords and phrases of the read-only rule. *)
Definition blockedWords : list string :=
  ["INSERT"; "UPDATE"; "DELETE"; "DROP"; "TRUNCATE"; "ALTER"; "CREATE";
   "GRANT"; "REVOKE"; "EXEC"; "EXECUTE"; "EVAL"; "LOAD_FILE"]%string.

Definition blockedPhrases : list (string * string) :=
  [("INTO", "OUTFILE"); ("INTO", "DUMPFILE")]%string.

Definition containsBlocked (s : jsstring) : Prop :=
  (exists kw, List.In kw blockedWords /\ occursAsWord kw s) \/
  (exists ph, List.In ph blockedPhrases /\ occursAsPhrase (fst ph) (snd ph) s).

(** The text has no line terminator: it stays on one line. *)
Definition onOneLine (s : jsstring) : Prop :=
  List.Forall (fun c => isLineTerminator c = false) s.

(** The text of a statement shows a LIMIT: the word LIMIT, white space
    and a digit occur somewhere in it, inside a string literal or a
    comment as well as outside.  This is the test of the text that
    executeSQL applies, put in words; [declaresLimit] below is the
    reading of the statement. *)
Definition hasLimitClause (s : jsstring) : Prop :=
  exists pre w ws d post,
    s = pre ++ w ++ ws ++ d :: post /\
    spells "LIMIT" w /\ spacing ws /\ isDigit d = true /\
    endsInWord pre = false.

(** The text of a statement outside its string literals: the units
    between two single quotes are left out, the quotes are kept (a
    doubled quote inside a literal closes and reopens it). *)
Fixpoint outsideLiterals (inLiteral : bool) (s : jsstring) : jsstring :=
  match s with
  | [] => []
  | c :: s' =>
      if c =? 39 then 39 :: outsideLiterals (negb inLiteral) s'
      else if inLiteral then outsideLiterals inLiteral s'
      else c :: outsideLiterals inLiteral s'
  end.

(** The statement declares a LIMIT, as the specification speaks of it:
    the keyword LIMIT stands in the statement itself, outside the
    string literals. *)
Definition declaresLimit (s : jsstring) : Prop :=
  occursAsWord "LIMIT" (outsideLiterals false s).

(** A segment of a statement list that holds a statement: some unit of
    it is not white space. *)
Definition nonEmptySegment (seg : jsstring) : Prop :=
  List.Exists (fun c => isWhiteSpace c = false) seg.

(** The segments joined by the statement terminator. *)
Fixpoint joinSegments (segs : list jsstring) : jsstring :=
  match segs with
  | [] => []
  | [seg] => seg
  | seg :: rest => seg ++ 59 :: joinSegments rest
  end.

(** [segs] are the segments of [s]: none holds a terminator and joined
    by terminators they give [s]. *)
Definition segmentsOf (s : jsstring) (segs : list jsstring) : Prop :=
  segs <> [] /\ s = joinSegments segs /\
  List.Forall (fun seg => ~ List.In 59 seg) segs.

(** The phrase UNION ALL SELECT occurs in [s]: whole words separated by
    white space. *)
Definition occursUnionAllSelect (s : jsstring) : Prop :=
  exists pre u ws1 a ws2 sel post,
    s = pre ++ u ++ ws1 ++ a ++ ws2 ++ sel ++ post /\
    spells "UNION" u /\ spacing ws1 /\ spells "ALL" a /\ spacing ws2 /\
    spells "SELECT" sel /\
    endsInWord pre = false /\ startsInWord post = false.

(** The statement combines the phrase UNION ALL SELECT with a reference
    to the catalog schema INFORMATION_SCHEMA. *)
Definition combinesUnionWithCatalog (s : jsstring) : Prop :=
  occursUnionAllSelect s /\ occursAsWord "INFORMATION_SCHEMA" s.

(** The shape the schema-enumeration pattern looks for: UNION ALL SELECT,
    then on the same line FROM INFORMATION_SCHEMA, the words being
    separated by white space. *)
Definition schemaEnumerationShape (s : jsstring) : Prop :=
  exists pre u ws1 a ws2 sel mid f ws3 i post,
    s = pre ++ u ++ ws1 ++ a ++ ws2 ++ sel ++ mid ++ f ++ ws3 ++ i ++ post /\
    spells "UNION" u /\ spacing ws1 /\ spells "ALL" a /\ spacing ws2 /\
    spells "SELECT" sel /\ onOneLine mid /\
    spells "FROM" f /\ spacing ws3 /\ spells "INFORMATION_SCHEMA" i.

(** A quote character: double quote, single quote or backtick. *)
Definition isQuote (c : N) : bool := List.existsb (N.eqb c) [34; 39; 96].

(** An already-clean statement: trimmed, ending with exactly one
    terminator, without code fence and without surrounding quotes. *)
Definition cleanStatement (s : jsstring) : Prop :=
  trim s = s /\
  (exists body, s = body ++ js ";" /\ endsWith (js ";") body = false) /\
  (forall a b, s <> a ++ js "```" ++ b) /\
  (forall c, List.head s = Some c -> isQuote c = false) /\
  (forall c, lastUnit None s = Some c -> isQuote c = false).

(** [s] splits on the terminator into more than one non-empty segment. *)
Definition severalStatements (s : jsstring) : Prop :=
  exists segs a x b y c,
    segmentsOf s segs /\ segs = a ++ x :: b ++ y :: c /\
    nonEmptySegment x /\ nonEmptySegment y.

End Wording.

(* ===================================================================== *)
(** ** Sample requests *)
(* ===================================================================== *)

Module Scenario.
Import JsString Js Connection SqlService.

(** A request without options, in an environment without settings: the
    defaults apply (30000 ms, 1000 rows). *)
Definition noOptions : options := mkOptions None None false None.
Definition noSettings : environment := mkEnvironment None None.

(** One result row. *)
Definition oneRow : row := {[ "ProductName" := JStr (js "Chai") ]}.

(** A database that answers every statement after [duration]
    milliseconds with one row. *)
Definition answering (d : driver) (duration : Z) : connection :=
  mkConnection d (fun _ => mkCompletion duration (Ok [oneRow])).

(** A database that rejects every statement after [duration]
    milliseconds. *)
Definition failing (d : driver) (duration : Z) : connection :=
  mkConnection d
    (fun _ => mkCompletion duration (Throw (js "no such column: x"))).

(** The response of a model that puts a remark before the statement. *)
Definition chattyResponse : jsstring :=
  js "Sure! SELECT TOP 5 * FROM Products".

(** A request whose collaborators all answer: the model returns a
    statement, the schema has one table. *)
Definition answeringWorld : Pipeline.collaborators :=
  Pipeline.mkCollaborators
    (Ok [js "Products"]) (Ok (js "SELECT ProductName FROM Products"))
    (Ok (js "One product.")) 120 140 (js "1700000000000")
    (js "2023-11-14T22:13:20.000Z").


(** The cache module loaded without settings: 50 entries, 5 minutes. *)
Definition noCacheSettings : Cache.cache_environment :=
  Cache.mkCacheEnvironment None None.

(** The cache module loaded with room for two schemas. *)
Definition smallCacheSettings : Cache.cache_environment :=
  Cache.mkCacheEnvironment (Some 2%Z) None.

Definition northwindKey : jsstring := js "sqlite:default".
Definition northwindSchema : list jsstring := [js "Products"; js "Orders"].

(** Two entries without an id of their own, and a store that has
    reached its maximum size. *)
Definition firstQuestion : QueryHistory.entry :=
  {[ "question" := JStr (js "Which product?") ]}.
Definition secondQuestion : QueryHistory.entry :=
  {[ "question" := JStr (js "Which customer?") ]}.
Definition fullStore : list QueryHistory.entry :=
  List.repeat ({[ "id" := JNum 7 ]} : QueryHistory.entry)
    QueryHistory.MAX_HISTORY_SIZE.

End Scenario.

(* ===================================================================== *)
(** ** utils/queryHistory: getHistory *)
(* ===================================================================== *)

Module HistoryQueries.
Import JsString Js QueryHistory.

(** [l.slice(0, end)] for an integer [end]: a negative [end] counts from
    the end of the array. *)
Definition slice0 {A : Type} (l : list A) (end_ : Z) : list A :=
  if (end_ <? 0)%Z
  then List.firstn (Z.to_nat (Z.max (Z.of_nat (List.length l) + end_) 0)) l
  else List.firstn (Z.to_nat end_) l.

(** The options of [getHistory]: [success] is present when it is a
    boolean, [limit] when it is a number. *)
Record historyOptions : Type := mkHistoryOptions {
  h_success : option bool;
  h_since : option jsval;
  h_until : option jsval;
  h_limit : option Z
}.

Section Dates.
(** The time value of [new Date(v)]; absent for an invalid date, which
    compares false with everything. *)
Variable dateOf : jsval -> option Z.

Definition dateGe (a b : jsval) : bool :=
  match dateOf a, dateOf b with
  | Some x, Some y => (y <=? x)%Z
  | _, _ => false
  end.

Definition timestampOf (h : entry) : jsval :=
  default JUndefined (h !! "timestamp").

(** [getHistory(options)] *)
Definition getHistory (o : historyOptions) (history : list entry)
  : list entry :=
  let filtered := history in
  let filtered :=
    match h_success o with
    | Some b =>
        List.filter
          (fun h => bool_decide (h !! "success" = Some (JBool b))) filtered
    | None => filtered
    end in
  let filtered :=
    match h_since o with
    | Some since =>
        if truthy since
        then List.filter (fun h => dateGe (timestampOf h) since) filtered
        else filtered
    | None => filtered
    end in
  let filtered :=
    match h_until o with
    | Some until =>
        if truthy until
        then List.filter (fun h => dateGe until (timestampOf h)) filtered
        else filtered
    | None => filtered
    end in
  slice0 filtered (num_or (h_limit o) 100).

End Dates.


(** The entries of a list have no [id] property of their own. *)
Definition withoutIds (es : list entry) : Prop :=
  List.Forall (fun x : entry => x !! "id" = None) es.

End HistoryQueries.

(* ===================================================================== *)
(** ** utils/cache: statistics and shape of the cache *)
(* ===================================================================== *)

Module CacheShape.
Import JsString Js Cache.

(** The keys of the entries, the most recently used first. *)
Definition keysOf {V : Type} (c : lru V) : list jsstring :=
  List.map key c.

(** A cache as the operations build it: one entry per key and no more
    entries than its capacity. *)
Definition wellFormed {V : Type} (o : lru_options) (c : lru V) : Prop :=
  List.NoDup (keysOf c) /\ (Z.of_nat (List.length c) <= max o)%Z.

Record cacheStats : Type := mkCacheStats {
  stats_size : nat;
  stats_maxSize : Z;
  stats_keys : list jsstring
}.

(** [getCacheStats()]: [cache.size] counts every stored entry, while the
    iteration of [cache.keys()] passes over the stale ones. *)
Definition getCacheStats {schema : Type} (env : cache_environment)
  (now : Z) (c : lru schema) : cacheStats :=
  mkCacheStats (List.length c) (max (cache_options env))
    (keysOf (List.filter (fun e => negb (isStale e now)) c)).

End CacheShape.

(* ===================================================================== *)
(** ** What validateSQL accepts, in the words of the rules *)
(* ===================================================================== *)

Module Acceptance.
Import JsString Js Regex SqlService Wording.

(** A terminator followed, after white space or none, by the comment
    marker [--]. *)
Definition commentAfterTerminator (s : jsstring) : Prop :=
  exists pre ws post,
    s = pre ++ js ";" ++ ws ++ js "--" ++ post /\ blank ws.

(** Trimmed and put in upper case, the text starts with SELECT or with
    WITH. *)
Definition beginsWithKeyword (s : jsstring) : Prop :=
  startsWith (js "SELECT") (toUpperCase (trim s)) = true \/
  startsWith (js "WITH") (toUpperCase (trim s)) = true.

(** One of the dangerous patterns applies. *)
Definition dangerous (s : jsstring) : Prop :=
  containsBlocked s \/ commentAfterTerminator s \/ schemaEnumerationShape s.

Definition passesAllRules (s : jsstring) : Prop :=
  nonEmptySegment s /\ beginsWithKeyword s /\ ~ dangerous s /\
  ~ severalStatements s.

End Acceptance.

(* ===================================================================== *)
(** ** middleware/validator, middleware/errorHandler and the routes *)
(* ===================================================================== *)

Module Http.
Import JsString Js Connection SqlService.

(** A property of the parsed request body: a primitive value, or an
    array or object. *)
Inductive field : Type :=
| Prim (v : jsval)
| Composite.

(** What a middleware does with a request: it answers it with a status
    and an error text, or hands it on with the value it has stored in
    the body. *)
Inductive handled (A : Type) : Type :=
| Answer (status : Z) (error : jsstring)
| Next (a : A).
Arguments Answer {A} status error.
Arguments Next {A} a.

(** [validateSQLRequest(req, res, next)] *)
Definition validateSQLRequest (sql : field) : handled jsstring :=
  match sql with
  | Prim (JStr s) =>
      if Nat.eqb (List.length s) 0
      then Answer 400 (js "SQL query is required and must be a string")
      else if (10000 <? Z.of_nat (List.length s))%Z
      then Answer 400 (js "SQL query exceeds maximum length")
      else Next (trim s)
  | _ => Answer 400 (js "SQL query is required and must be a string")
  end.

(** The properties of an error object that the handler reads; an absent
    property is [undefined]. *)
Record error : Type := mkError {
  err_name : jsstring;
  err_message : option jsstring;
  err_statusCode : option Z;
  err_status : option Z;
  err_stack : option jsstring
}.

(** [new Error(message)] *)
Definition newError (message stack : jsstring) : error :=
  mkError (js "Error") (Some message) None None (Some stack).

(** [s.includes(p)] *)
Definition includes (p s : jsstring) : bool :=
  match indexOf p s with Some _ => true | None => false end.

Record errorReply : Type := mkErrorReply {
  reply_status : Z;
  reply_error : jsstring;
  reply_stack : option jsstring;
  reply_requestId : option jsstring
}.

(** [errorHandler(err, req, res, next)]: the status and the body of the
    answer; [development] says whether NODE_ENV is 'development'. *)
Definition errorHandler (development : bool) (requestId : option jsstring)
  (err : error) : errorReply :=
  let statusCode := num_or (err_statusCode err) (num_or (err_status err) 500) in
  let statusCode :=
    if jsstring_eqb (err_name err) (js "ValidationError") then 400%Z
    else if jsstring_eqb (err_name err) (js "UnauthorizedError") then 401%Z
    else if match err_message err with
            | Some m => includes (js "not allowed") m
            | None => false
            end
    then 403%Z
    else statusCode in
  mkErrorReply statusCode
    (match err_message err with
     | Some m =>
         if Nat.eqb (List.length m) 0 then js "Internal server error" else m
     | None => js "Internal server error"
     end)
    (if development then err_stack err else None)
    (match requestId with
     | Some id => if Nat.eqb (List.length id) 0 then None else Some id
     | None => None
     end).

(** The answer to [POST /execute]. *)
Inductive executeReply : Type :=
| Executed (sql : jsstring) (results : list row) (rowCount : nat)
    (executionTimeMs : Z)
| Refused (status : Z) (error : jsstring)
| Failed (r : errorReply).

(** The route [POST /execute]: validateSQLRequest, then the handler
    wrapped by asyncHandler, whose rejection goes to errorHandler.
    [stack] is the stack text of the error thrown. *)
Definition postExecute (development : bool) (stack : jsstring)
  (sql : field) (db : connection) (env : environment) : executeReply :=
  match validateSQLRequest sql with
  | Answer status error => Refused status error
  | Next sql' =>
      match executeSQL sql' db (mkOptions None None false None) env with
      | Ok e => Executed sql' (results e) (rowCount e) (executionTimeMs e)
      | Throw message =>
          Failed (errorHandler development None (newError message stack))
      end
  end.

(** The HTTP status of an answer: [res.json] without [res.status] answers
    200. *)
Definition statusOf (r : executeReply) : Z :=
  match r with
  | Executed _ _ _ _ => 200
  | Refused status _ => status
  | Failed r => reply_status r
  end.

Definition errorOf (r : executeReply) : option jsstring :=
  match r with
  | Executed _ _ _ _ => None
  | Refused _ error => Some error
  | Failed r => Some (reply_error r)
  end.

End Http.

(* ===================================================================== *)
(** ** middleware/validator: validateQueryRequest *)
(* ===================================================================== *)

Module QueryRequest.
Import JsString Js Regex SqlService Wording Http.

Definition MAX_QUESTION_LENGTH : Z := 1000.

Definition VALID_DB_TYPES : list jsstring :=
  [js "sqlite"; js "mysql"; js "postgres"; js "postgresql"].

(** The lower-case form of one code unit, as
    [String.prototype.toLowerCase] computes it.  The table holds the
    ASCII and Latin-1 letters and the two other code units whose
    lower-case form holds an ASCII letter (U+0130 and the Kelvin sign);
    the remaining units are kept as they are: their real lower-case form
    is made of non-ASCII units, which no comparison with the ASCII
    literals of this program can tell apart from the unit itself. *)
Definition lowerUnit (c : N) : jsstring :=
  if (65 <=? c) && (c <=? 90) then [c + 32]
  else if (192 <=? c) && (c <=? 222) && negb (c =? 215) then [c + 32]
  else if c =? 304 then [105; 775]
  else if c =? 8490 then [107]
  else [c].

(** [s.toLowerCase()] *)
Definition toLowerCase (s : jsstring) : jsstring :=
  List.flat_map lowerUnit s.

(** The word characters [A-Za-z0-9_] of the class [\w]. *)
Definition wordUnits : list N :=
  Eval vm_compute in
    List.filter isWordChar (List.map N.of_nat (List.seq 0 128)).

(** [/<script/i] *)
Definition pat_script : RegExp := mkRegExp (lit "<script") true.

(** [/javascript:/i] *)
Definition pat_javascript : RegExp := mkRegExp (lit "javascript:") true.

(** [/on\w+\s*=/i] *)
Definition pat_handler : RegExp :=
  mkRegExp
    (seqs [lit "on"; Plus (Class (OneOf wordUnits)); space_star; lit "="])
    true.

(** [/\x00/] *)
Definition pat_nul : RegExp := mkRegExp (Char 0) false.

Definition SUSPICIOUS_PATTERNS : list RegExp :=
  [pat_script; pat_javascript; pat_handler; pat_nul].

(** ToBoolean of a body property: arrays and objects are truthy. *)
Definition truthyField (f : field) : bool :=
  match f with
  | Prim v => truthy v
  | Composite => true
  end.

(** [l.join(sep)] *)
Fixpoint join (sep : jsstring) (l : list jsstring) : jsstring :=
  match l with
  | [] => []
  | [x] => x
  | x :: l' => x ++ sep ++ join sep l'
  end.

(** [validateQueryRequest(req, res, next)]: the answer, or the question
    stored in the body when the request is handed on.  A [dbType] that is
    truthy and not a string has no [toLowerCase]: the call throws. *)
Definition validateQueryRequest (question dbType : field)
  : result (handled jsstring) :=
  match question with
  | Prim (JStr q) =>
      if Nat.eqb (List.length q) 0
      then Ok (Answer 400 (js "Question is required and must be a string"))
      else if (MAX_QUESTION_LENGTH <? Z.of_nat (List.length q))%Z
      then Ok (Answer 400
                 (js "Question exceeds maximum length of "
                    ++ numberToString MAX_QUESTION_LENGTH
                    ++ js " characters"))
      else if List.existsb (fun pattern => test pattern q)
                SUSPICIOUS_PATTERNS
      then Ok (Answer 400 (js "Invalid characters detected in question"))
      else
        match dbType with
        | Prim (JStr d) =>
            if negb (Nat.eqb (List.length d) 0)
               && negb (List.existsb (jsstring_eqb (toLowerCase d))
                          VALID_DB_TYPES)
            then Ok (Answer 400
                       (js "Invalid database type. Must be one of: "
                          ++ join (js ", ") VALID_DB_TYPES))
            else Ok (Next (trim q))
        | other =>
            if truthyField other
            then Throw (js "dbType.toLowerCase is not a function")
            else Ok (Next (trim q))
        end
  | _ => Ok (Answer 400 (js "Question is required and must be a string"))
  end.

(** *** The rules in words *)

(** The text [kw] occurs in [q], in any case. *)
Definition occursIgnoringCase (kw : string) (q : jsstring) : Prop :=
  exists pre w post, q = pre ++ w ++ post /\ spells kw w.

(** The shape of an event-handler attribute: [on], one word character or
    more, white space or none, and the equals sign. *)
Definition handlerShape (q : jsstring) : Prop :=
  exists pre o w ws post,
    q = pre ++ o ++ w ++ ws ++ js "=" ++ post /\
    spells "on" o /\ w <> [] /\
    List.Forall (fun c => isWordChar c = true) w /\ blank ws.

Definition suspicious (q : jsstring) : Prop :=
  occursIgnoringCase "<script" q \/ occursIgnoringCase "javascript:" q \/
  handlerShape q \/ List.In 0 q.

(** A database type that the validator lets through: none, or a text
    that in lower case is one of the valid types. *)
Definition knownDbType (dbType : field) : Prop :=
  truthyField dbType = false \/
  exists d, dbType = Prim (JStr d) /\
            List.In (toLowerCase d) VALID_DB_TYPES.

End QueryRequest.

(* ===================================================================== *)
(** ** Database types: initDatabase and getExplainPlan *)
(* ===================================================================== *)

Module Dispatch.
Import JsString Js Connection SqlService QueryRequest.

(** [initDatabase(dbType, config)]: the factory that the switch selects;
    [dbType] absent is the default 'sqlite'. *)
Definition initDatabase (dbType : option jsstring) : result driver :=
  let dbType := default (js "sqlite") dbType in
  let t := toLowerCase dbType in
  if jsstring_eqb t (js "sqlite") then Ok SQLite
  else if jsstring_eqb t (js "mysql") then Ok MySQL
  else if jsstring_eqb t (js "postgres") || jsstring_eqb t (js "postgresql")
  then Ok Postgres
  else Throw (js "Unsupported database type: " ++ dbType).

(** The statement that getExplainPlan builds for a database type. *)
Definition explainSQL (sql dbType : jsstring) : result jsstring :=
  let t := toLowerCase dbType in
  if jsstring_eqb t (js "sqlite") then Ok (js "EXPLAIN QUERY PLAN " ++ sql)
  else if jsstring_eqb t (js "mysql") then Ok (js "EXPLAIN " ++ sql)
  else if jsstring_eqb t (js "postgres") || jsstring_eqb t (js "postgresql")
  then Ok (js "EXPLAIN (FORMAT JSON) " ++ sql)
  else Throw (js "Explain not supported for " ++ dbType).

(** [getExplainPlan(sql, db, dbType)]: what the promise returned by
    [db.asyncAll] settles with. *)
Definition getExplainPlan (sql : jsstring) (db : connection)
  (dbType : option jsstring) : result (list row) :=
  bind (validateSQL sql) (fun _ =>
  bind (explainSQL sql (default (js "sqlite") dbType)) (fun statement =>
    outcome (asyncAll db statement))).


End Dispatch.

(* ===================================================================== *)
(** ** routes/api: GET /history *)
(* ===================================================================== *)

Module HistoryRoute.
Import JsString Js QueryHistory HistoryQueries SqlService.

(** The handler of [GET /history]: [limit] is what parseInt yields for
    the query parameter (absent for NaN), [success] the query parameter
    when it is given as a text. *)
Definition getHistoryRoute (dateOf : jsval -> option Z)
  (limit : option Z) (success : option jsstring) (history : list entry)
  : list entry :=
  let limit := num_or limit 100 in
  let success :=
    match success with
    | Some text => Some (jsstring_eqb text (js "true"))
    | None => None
    end in
  getHistory dateOf (mkHistoryOptions success None None (Some limit)) history.

End HistoryRoute.

(* ===================================================================== *)
(** ** ai/groq: callGroq *)
(* ===================================================================== *)

Module Groq.
Import JsString Js.


(** What callGroq throws: an error object, or [undefined] when
    [lastError] was never assigned. *)
Inductive thrown : Type :=
| ErrorObject (status : option Z) (message : jsstring)
| UndefinedValue.

Record run : Type := mkRun {
  r_result : jsstring + thrown;
  r_calls : nat;
  r_waited : Z
}.











End Groq.

(* ===================================================================== *)
(** ** middleware/validator: sanitizeOutput *)
(* ===================================================================== *)

Module Sanitize.
Import JsString Js Regex.

(** The values that are neither text nor array nor object. *)
Inductive scalar : Type :=
| SUndefined
| SNull
| SBool (b : bool)
| SNum (z : Z).

(** A value handed to sanitizeOutput; an object is given by its own
    enumerable properties in the order of [Object.entries]. *)
#[local] Unset Elimination Schemes.
Inductive data : Type :=
| DStr (s : jsstring)
| DArr (items : list data)
| DObj (entries : list (jsstring * data))
| DScalar (v : scalar).
#[local] Set Elimination Schemes.

(** The four replacements of a text: [<], [>], the double quote (34)
    and the single quote (39). *)
Definition escapeText (s : jsstring) : jsstring :=
  let s := replaceAll (mkRegExp (Char 60) false) (js "&lt;") s in
  let s := replaceAll (mkRegExp (Char 62) false) (js "&gt;") s in
  let s := replaceAll (mkRegExp (Char 34) false) (js "&quot;") s in
  replaceAll (mkRegExp (Char 39) false) (js "&#x27;") s.

(** The assignment [sanitized[key] = value] on an object literal creates
    an own property, except for the key [__proto__], which sets the
    prototype and leaves the own properties as they are. *)
Definition ownKey (key : jsstring) : bool :=
  negb (bool_decide (key = js "__proto__")).

(** [sanitizeOutput(data)]; the inner loop is the [for] loop over
    [Object.entries(data)]. *)
Fixpoint sanitizeOutput (d : data) : data :=
  match d with
  | DStr s => DStr (escapeText s)
  | DArr items => DArr (List.map sanitizeOutput items)
  | DObj entries =>
      DObj ((fix loop (es : list (jsstring * data)) :=
               match es with
               | [] => []
               | (key, value) :: es' =>
                   if ownKey key
                   then (key, sanitizeOutput value) :: loop es'
                   else loop es'
               end) entries)
  | DScalar v => DScalar v
  end.

(** The four units that sanitizeOutput replaces. *)
Definition special (c : N) : bool :=
  (c =? 60) || (c =? 62) || (c =? 34) || (c =? 39).

(** No text of the value holds one of the four units; property names are
    not looked at. *)
Fixpoint textsClean (d : data) : Prop :=
  match d with
  | DStr s => List.Forall (fun c => special c = false) s
  | DArr items =>
      (fix all (l : list data) : Prop :=
         match l with
         | [] => True
         | x :: l' => textsClean x /\ all l'
         end) items
  | DObj entries =>
      (fix all (es : list (jsstring * data)) : Prop :=
         match es with
         | [] => True
         | (_, value) :: es' => textsClean value /\ all es'
         end) entries
  | DScalar _ => True
  end.

(** The property names of an object, at the top level. *)
Definition keysOfData (d : data) : list jsstring :=
  match d with
  | DObj entries => List.map fst entries
  | _ => []
  end.

(** Replacing every occurrence of one unit. *)
Definition substitute (c : N) (repl s : jsstring) : jsstring :=
  List.flat_map (fun x => if c =? x then repl else [x]) s.

End Sanitize.

(* ===================================================================== *)
(** ** ai/openrouter: where cleanSQLResponse looks for the statement *)
(* ===================================================================== *)

Module Anchor.
Import JsString Js Regex SqlService OpenRouter Wording.

(** The response once trimmed and freed of code fences and surrounding
    quotes: the text in which cleanSQLResponse looks for the
    statement. *)
Definition unwrapped (response : jsstring) : jsstring :=
  let sql := trim response in
  let sql := replace re_fence_sql [] sql in
  let sql := replace re_fence_open [] sql in
  let sql := replace re_fence_close [] sql in
  replaceAll re_quotes [] sql.

(** SELECT or WITH occurs at the start of a word and is followed by
    white space. *)
Definition anchored (s : jsstring) : Prop :=
  exists pre w ws post,
    s = pre ++ w ++ ws ++ post /\
    (spells "SELECT" w \/ spells "WITH" w) /\ spacing ws /\
    endsInWord pre = false.

(** The text after a position starts with white space. *)
Definition startsInSpace (post : jsstring) : bool :=
  match post with
  | c :: _ => isWhiteSpace c
  | [] => false
  end.

(** The last step of cleanSQLResponse: the terminator is added to a
    text that lacks it. *)
Definition terminated (sql : jsstring) : jsstring :=
  if negb (endsWith (js ";") sql) then sql ++ js ";" else sql.

End Anchor.

(* ===================================================================== *)
(** ** services/sqlService: the explanation of a response *)
(* ===================================================================== *)

Module Explanation.
Import JsString Js SqlService Pipeline.

(** Two courses of the same request up to the moment the explanation
    is asked for: the schema, the answer of the model, the generation
    time and the clock read at the start are the same.  What comes
    later may differ: the outcome of the explanation service, and the
    clock read after it (the total time and the timestamp of the
    history entry). *)
Definition sameUntilExplanation (w w' : collaborators) : Prop :=
  schemaOutcome w = schemaOutcome w' /\ aiOutcome w = aiOutcome w' /\
  generationTime w = generationTime w' /\ nowString w = nowString w'.

(** Two responses that differ at most in the explanation and in the
    total time. *)
Definition sameButExplanation (a b : response) : Prop :=
  r_question a = r_question b /\ r_sql a = r_sql b /\
  r_results a = r_results b /\ r_rowCount a = r_rowCount b /\
  fst (r_timing a) = fst (r_timing b) /\
  r_requestId a = r_requestId b /\
  r_limitApplied a = r_limitApplied b /\
  r_schemaTablesUsed a = r_schemaTablesUsed b.

(** Two history entries that differ at most in the total time and in
    the timestamp. *)
Definition sameButClock (e e' : QueryHistory.entry) : Prop :=
  forall name : string,
    name <> "totalTimeMs"%string -> name <> "timestamp"%string ->
    e !! name = e' !! name.

(** The request of [answeringWorld] when the explanation service fails
    after four seconds. *)
Definition failedExplanationWorld : collaborators :=
  mkCollaborators
    (Ok [js "Products"]) (Ok (js "SELECT ProductName FROM Products"))
    (Throw (js "Rate limit exceeded")) 120 4140 (js "1700000000000")
    (js "2023-11-14T22:13:24.000Z").

End Explanation.

(* ===================================================================== *)
(** ** services/sqlService: the schema step of generateSQL *)
(* ===================================================================== *)

Module SchemaStep.
Import JsString Js Cache.

(** [a || b] on texts: an absent or empty text is falsy. *)
Definition text_or (a : option jsstring) (b : jsstring) : jsstring :=
  match a with
  | Some s => if Nat.eqb (List.length s) 0 then b else s
  | None => b
  end.

(** What generateSQL reads for the schema: [options.dbType], the
    variable DB_TYPE and [options.database]. *)
Record schemaSettings : Type := mkSchemaSettings {
  optDbType : option jsstring;
  envDbType : option jsstring;
  database : option jsstring
}.

(** The cache key [`${dbType}:${options.database || 'default'}`]. *)
Definition cacheKey (o : schemaSettings) : jsstring :=
  text_or (optDbType o) (text_or (envDbType o) (js "sqlite"))
    ++ js ":" ++ text_or (database o) (js "default").

Section Step.
Context {schema : Type}.
Variable env : cache_environment.

(** The schema step of generateSQL (the cache is asked first; on a miss
    the schema is introspected and stored): the schema or the error of
    the introspection, the cache left behind, and whether getSchema was
    called.  [getSchema] is what the introspection yields; [now] is the
    time of the cache lookup, [later] the time at which the
    introspection has ended. *)
Definition schemaFor (o : schemaSettings) (getSchema : result schema)
  (now later : Z) (c : lru schema) : result schema * lru schema * bool :=
  let key := cacheKey o in
  match getSchemaFromCache env key now c with
  | (Some cachedSchema, c') => (Ok cachedSchema, c', false)
  | (None, c') =>
      match getSchema with
      | Ok s => (Ok s, setSchemaInCache env key s None later c', true)
      | Throw message => (Throw message, c', true)
      end
  end.

End Step.

(** A request without settings: SQLite, the default database. *)
Definition plainSettings : schemaSettings := mkSchemaSettings None None None.

End SchemaStep.

(* ===================================================================== *)
(** * Properties *)
(* ===================================================================== *)

Import JsString Js Regex Connection SqlService OpenRouter Wording Scenario.
Import Pipeline Cache.

(** ** The matcher agrees with the declarative reading *)

Section MatcherFacts.
Context {A : Type}.
Variable ic : bool.

(** Whatever the declarative reading allows, the matcher finds a match
    (possibly another one, tried earlier) as soon as the continuation
    accepts the allowed one. *)
Lemma mt_complete_gen r p s p' s' :
  Matches ic r p s p' s' ->
  forall (k : @cont A) a, k p' s' = Some a ->
    (exists b, mt ic r p s k = Some b) /\
    (forall r0, r = Star r0 -> forall n, (List.length s <= n)%nat ->
        exists b, star_loop (mt ic r0) k n p s = Some b).
Proof.
  induction 1; intros k a Hk.
  - split; [exists a; exact Hk | discriminate].
  - split; [|discriminate]. exists a. simpl. rewrite H. exact Hk.
  - split; [|discriminate]. exists a. simpl. rewrite H. exact Hk.
  - split; [|discriminate]. simpl.
    destruct (IHMatches2 k a Hk) as [[b Hb] _].
    destruct (IHMatches1 (fun p' s' => mt ic r2 p' s' k) b Hb) as [Hc _].
    exact Hc.
  - split; [|discriminate]. simpl.
    destruct (IHMatches k a Hk) as [[b Hb] _]. rewrite Hb. eauto.
  - split; [|discriminate]. simpl.
    destruct (IHMatches k a Hk) as [[b Hb] _].
    destruct (mt ic r1 p s k); eauto.
  - assert (Hloop : forall n, exists b, star_loop (mt ic r) k n p s = Some b).
    { intros [|n]; simpl; [eauto|].
      match goal with |- context [mt ic r p s ?K] =>
        destruct (mt ic r p s K) end; eauto. }
    split; [apply Hloop|]. intros r0 [= <-] n _. apply Hloop.
  - assert (Hloop : forall n, (List.length s <= n)%nat ->
               exists b, star_loop (mt ic r) k n p s = Some b).
    { intros [|n] Hn; [lia|]. simpl.
      destruct (IHMatches2 k a Hk) as [_ Hstar].
      destruct (Hstar r eq_refl n ltac:(lia)) as [b Hb].
      destruct (IHMatches1
                  (fun p' s' =>
                     if (List.length s' <? List.length s)%nat
                     then star_loop (mt ic r) k n p' s' else None) b)
        as [[c Hc] _].
      { apply Nat.ltb_lt in H0. rewrite H0. exact Hb. }
      rewrite Hc. eauto. }
    split; [apply Hloop; lia|]. intros r0 [= <-]. apply Hloop.
  - split; [|discriminate]. exists a. simpl. rewrite H. exact Hk.
  - split; [|discriminate]. exists a. exact Hk.
  - split; [|discriminate]. exists a. exact Hk.
Qed.

Lemma mt_complete r p s p' s' (k : @cont A) a :
  Matches ic r p s p' s' -> k p' s' = Some a ->
  exists b, mt ic r p s k = Some b.
Proof. intros HM Hk. exact (proj1 (mt_complete_gen _ _ _ _ _ HM k a Hk)). Qed.

Lemma star_loop_sound r (k : @cont A) :
  (forall p s (k' : @cont A) a, mt ic r p s k' = Some a ->
     exists p' s', Matches ic r p s p' s' /\ k' p' s' = Some a) ->
  forall n p s a, star_loop (mt ic r) k n p s = Some a ->
    exists p' s', Matches ic (Star r) p s p' s' /\ k p' s' = Some a.
Proof.
  intros IH. induction n as [|n IHn]; intros p s a; simpl.
  - intros Hk. exists p, s. split; [constructor | exact Hk].
  - match goal with |- context [mt ic r p s ?K] =>
      destruct (mt ic r p s K) as [b|] eqn:E end.
    + intros [= ->]. apply IH in E. destruct E as (p1 & s1 & HM & HK).
      destruct (List.length s1 <? List.length s)%nat eqn:Hlt; [|discriminate].
      apply Nat.ltb_lt in Hlt.
      destruct (IHn _ _ _ HK) as (p2 & s2 & HM2 & HK2).
      exists p2, s2. split; [|exact HK2]. eapply M_StarS; eauto.
    + intros Hk. exists p, s. split; [constructor | exact Hk].
Qed.

(** Every match the matcher reports is allowed by the declarative
    reading, and the continuation accepted it. *)
Lemma mt_sound r : forall p s (k : @cont A) a,
  mt ic r p s k = Some a ->
  exists p' s', Matches ic r p s p' s' /\ k p' s' = Some a.
Proof.
  induction r; intros p s k a; simpl.
  - intros Hk. exists p, s. split; [constructor | exact Hk].
  - destruct s as [|x s]; [discriminate|].
    destruct (unitMatches ic c x) eqn:E; [|discriminate].
    intros Hk. exists (Some x), s. split; [constructor; exact E | exact Hk].
  - destruct s as [|x s]; [discriminate|].
    destruct (inClass cls x) eqn:E; [|discriminate].
    intros Hk. exists (Some x), s. split; [constructor; exact E | exact Hk].
  - intros Hm. apply IHr1 in Hm. destruct Hm as (p1 & s1 & HM1 & Hm).
    apply IHr2 in Hm. destruct Hm as (p2 & s2 & HM2 & Hk).
    exists p2, s2. split; [econstructor; eauto | exact Hk].
  - destruct (mt ic r1 p s k) as [b|] eqn:E.
    + intros [= ->]. apply IHr1 in E. destruct E as (p1 & s1 & HM & Hk).
      exists p1, s1. split; [apply M_AltL; exact HM | exact Hk].
    + intros Hm. apply IHr2 in Hm. destruct Hm as (p1 & s1 & HM & Hk).
      exists p1, s1. split; [apply M_AltR; exact HM | exact Hk].
  - apply star_loop_sound. exact IHr.
  - destruct (xorb (isWordAt p) (isWordAt (List.head s))) eqn:E;
      [|discriminate].
    intros Hk. exists p, s. split; [constructor; exact E | exact Hk].
  - destruct p; [discriminate|].
    intros Hk. exists None, s. split; [constructor | exact Hk].
  - destruct s; [|discriminate].
    intros Hk. exists p, []. split; [constructor | exact Hk].
Qed.

End MatcherFacts.

(** ** The unit read last *)

Lemma lastUnit_snoc p m c : lastUnit p (m ++ [c]) = Some c.
Proof. unfold lastUnit. rewrite List.rev_app_distr. reflexivity. Qed.

Lemma lastUnit_app p a b : lastUnit p (a ++ b) = lastUnit (lastUnit p a) b.
Proof.
  destruct b as [|x b] using List.rev_ind.
  - rewrite List.app_nil_r. reflexivity.
  - rewrite List.app_assoc, !lastUnit_snoc. reflexivity.
Qed.

Lemma lastUnit_cons p x m : lastUnit p (x :: m) = lastUnit (Some x) m.
Proof. change (x :: m) with ([x] ++ m). rewrite lastUnit_app. reflexivity. Qed.

(** A match reads a prefix of the input. *)
Lemma Matches_suffix ic r p s p' s' :
  Matches ic r p s p' s' ->
  exists m, s = m ++ s' /\ p' = lastUnit p m.
Proof.
  induction 1.
  - exists []. split; reflexivity.
  - exists [x]. split; reflexivity.
  - exists [x]. split; reflexivity.
  - destruct IHMatches1 as (m1 & -> & ->).
    destruct IHMatches2 as (m2 & -> & ->).
    exists (m1 ++ m2). rewrite List.app_assoc, lastUnit_app. split; reflexivity.
  - exact IHMatches.
  - exact IHMatches.
  - exists []. split; reflexivity.
  - destruct IHMatches1 as (m1 & -> & ->).
    destruct IHMatches2 as (m2 & -> & ->).
    exists (m1 ++ m2). rewrite List.app_assoc, lastUnit_app. split; reflexivity.
  - exists []. split; reflexivity.
  - exists []. split; reflexivity.
  - exists []. split; reflexivity.
Qed.

(** ** Searching *)

Lemma matchHere_sound re p s rest :
  matchHere re p s = Some rest ->
  exists p', Matches (ignoreCase re) (source re) p s p' rest.
Proof.
  unfold matchHere. intros Hm. apply mt_sound in Hm.
  destruct Hm as (p' & s' & HM & [= ->]). eauto.
Qed.

Lemma matchHere_complete re p s p' rest :
  Matches (ignoreCase re) (source re) p s p' rest ->
  exists rest', matchHere re p s = Some rest'.
Proof.
  intros HM. unfold matchHere.
  eapply mt_complete; [exact HM | reflexivity].
Qed.

Lemma firstn_matched (m rest : jsstring) :
  List.firstn (List.length (m ++ rest) - List.length rest)%nat (m ++ rest) = m.
Proof.
  rewrite List.length_app.
  replace (List.length m + List.length rest - List.length rest)%nat
    with (List.length m + 0)%nat by lia.
  rewrite List.firstn_app_2. simpl. apply List.app_nil_r.
Qed.

Lemma search_unfold re prev before s :
  search re prev before s =
  match matchHere re prev s with
  | Some rest =>
      Some (List.rev before,
            List.firstn (List.length s - List.length rest)%nat s, rest)
  | None =>
      match s with
      | [] => None
      | c :: s' => search re (Some c) (c :: before) s'
      end
  end.
Proof. destruct s; reflexivity. Qed.

(** What a successful search returns: the leftmost position at which the
    pattern matches. *)
Lemma search_found re : forall s prev before b m a,
  search re prev before s = Some (b, m, a) ->
  exists pre,
    b = List.rev before ++ pre /\ s = pre ++ m ++ a /\
    matchHere re (lastUnit prev pre) (m ++ a) = Some a /\
    (forall pre1 pre2, pre = pre1 ++ pre2 -> pre2 <> [] ->
       matchHere re (lastUnit prev pre1) (pre2 ++ m ++ a) = None).
Proof.
  induction s as [|c s IH]; intros prev before b m a;
    rewrite search_unfold.
  - destruct (matchHere re prev []) as [rest|] eqn:E; [|discriminate].
    intros [= <- <- <-]. exists [].
    destruct (matchHere_sound _ _ _ _ E) as (p' & HM).
    destruct (Matches_suffix _ _ _ _ _ _ HM) as (m & Hs & _).
    symmetry in Hs. apply List.app_eq_nil in Hs. destruct Hs as [-> ->].
    rewrite List.app_nil_r. repeat split; try reflexivity; [exact E|].
    intros pre1 pre2 Hp Hne. symmetry in Hp.
    apply List.app_eq_nil in Hp. destruct Hp; contradiction.
  - destruct (matchHere re prev (c :: s)) as [rest|] eqn:E.
    + intros [= <- <- <-]. exists [].
      destruct (matchHere_sound _ _ _ _ E) as (p' & HM).
      destruct (Matches_suffix _ _ _ _ _ _ HM) as (m & Hs & _).
      change (S (List.length s)) with (List.length (c :: s)).
      rewrite Hs, firstn_matched, List.app_nil_r.
      repeat split; try reflexivity.
      * simpl. rewrite <- Hs. exact E.
      * intros pre1 pre2 Hp Hne. symmetry in Hp.
        apply List.app_eq_nil in Hp. destruct Hp; contradiction.
    + intros Hs. apply IH in Hs.
      destruct Hs as (pre & -> & -> & Hm & Hleft).
      exists (c :: pre). simpl. rewrite <- List.app_assoc. simpl.
      repeat split; try reflexivity.
      * rewrite lastUnit_cons. exact Hm.
      * intros pre1 pre2 Hp Hne. destruct pre1 as [|x pre1].
        -- simpl in Hp. subst pre2. simpl. exact E.
        -- injection Hp as <- ->. rewrite lastUnit_cons.
           apply Hleft; [reflexivity | exact Hne].
Qed.

(** A failed search: the pattern matches at no position. *)
Lemma search_none re : forall s prev before,
  search re prev before s = None ->
  forall pre t, s = pre ++ t -> matchHere re (lastUnit prev pre) t = None.
Proof.
  induction s as [|c s IH]; intros prev before; rewrite search_unfold.
  - destruct (matchHere re prev []) eqn:E; [discriminate|].
    intros _ pre t Hs. symmetry in Hs. apply List.app_eq_nil in Hs.
    destruct Hs as [-> ->]. exact E.
  - destruct (matchHere re prev (c :: s)) eqn:E; [discriminate|].
    intros Hs pre t Hp. destruct pre as [|x pre].
    + simpl in Hp. subst t. exact E.
    + injection Hp as <- ->. rewrite lastUnit_cons.
      eapply IH; [exact Hs | reflexivity].
Qed.

(** [test] holds exactly when the pattern matches somewhere. *)
Lemma test_MatchesIn re s : test re s = true <-> MatchesIn re s.
Proof.
  unfold test, MatchesIn. split.
  - destruct (search re None [] s) as [[[b m] a]|] eqn:E; [|discriminate].
    intros _. apply search_found in E.
    destruct E as (pre & _ & -> & Hm & _).
    apply matchHere_sound in Hm. destruct Hm as (p' & HM).
    exists pre, m, a, p'. split; [reflexivity | exact HM].
  - intros (pre & m & post & p' & -> & HM).
    destruct (search re None [] (pre ++ m ++ post)) eqn:E; [reflexivity|].
    eapply search_none in E; [|reflexivity].
    apply matchHere_complete in HM. destruct HM as (rest & HM).
    rewrite HM in E. discriminate.
Qed.

Lemma test_false_iff re s : test re s = false <-> ~ MatchesIn re s.
Proof.
  rewrite <- test_MatchesIn. destruct (test re s); split; intros H;
    try reflexivity; try discriminate; try (intros ?; discriminate).
  exfalso. apply H. reflexivity.
Qed.

(** [replace] leaves the text alone when the pattern matches nowhere. *)
Lemma replace_no_match re repl s :
  ~ MatchesIn re s -> replace re repl s = s.
Proof.
  intros Hn. apply test_false_iff in Hn. unfold test in Hn.
  unfold replace. destruct (search re None [] s); [discriminate | reflexivity].
Qed.

(** ** Building matches *)

Lemma seqs_cons r l : seqs (r :: l) = Seq r (seqs l).
Proof. reflexivity. Qed.

Lemma Matches_seqs_cons ic r l p s p1 s1 p2 s2 :
  Matches ic r p s p1 s1 -> Matches ic (seqs l) p1 s1 p2 s2 ->
  Matches ic (seqs (r :: l)) p s p2 s2.
Proof. intros H1 H2. rewrite seqs_cons. econstructor; eauto. Qed.

Lemma Matches_seqs_inv ic r l p s p2 s2 :
  Matches ic (seqs (r :: l)) p s p2 s2 ->
  exists p1 s1, Matches ic r p s p1 s1 /\ Matches ic (seqs l) p1 s1 p2 s2.
Proof. rewrite seqs_cons. inversion 1; subst. eauto. Qed.

Lemma Matches_seqs_nil_inv ic p s p2 s2 :
  Matches ic (seqs []) p s p2 s2 -> p2 = p /\ s2 = s.
Proof. inversion 1; subst. split; reflexivity. Qed.

Lemma Matches_alts ic r l p s p' s' :
  List.In r l -> Matches ic r p s p' s' -> Matches ic (alts l) p s p' s'.
Proof.
  induction l as [|r0 l IH]; [intros []|].
  intros Hin HM. destruct l as [|r1 l].
  - destruct Hin as [->|[]]. exact HM.
  - change (alts (r0 :: r1 :: l)) with (Alt r0 (alts (r1 :: l))).
    destruct Hin as [->|Hin]; [apply M_AltL; exact HM|].
    apply M_AltR. apply IH; assumption.
Qed.

(** A literal reads exactly the texts that match it unit by unit. *)
Lemma Matches_lit_units ic : forall kw w p rest,
  kw <> [] ->
  List.Forall2 (fun k c => unitMatches ic k c = true) kw w ->
  Matches ic (lit_units kw) p (w ++ rest) (lastUnit p w) rest.
Proof.
  induction kw as [|k kw IH]; [congruence|].
  intros w p rest _ HF. inversion HF as [|? c ? w' Hk HF']; subst.
  destruct kw as [|k' kw].
  - inversion HF'; subst. simpl. constructor. exact Hk.
  - change (lit_units (k :: k' :: kw))
      with (Seq (Char k) (lit_units (k' :: kw))).
    simpl. rewrite lastUnit_cons.
    econstructor; [constructor; exact Hk|].
    apply IH; [discriminate | exact HF'].
Qed.

Lemma Matches_lit_units_inv ic : forall kw p s p' s',
  kw <> [] -> Matches ic (lit_units kw) p s p' s' ->
  exists w, s = w ++ s' /\ p' = lastUnit p w /\
    List.Forall2 (fun k c => unitMatches ic k c = true) kw w.
Proof.
  induction kw as [|k kw IH]; [congruence|].
  intros p s p' s' _ HM. destruct kw as [|k' kw].
  - simpl in HM. inversion HM; subst. exists [x].
    repeat split. repeat constructor. assumption.
  - change (lit_units (k :: k' :: kw))
      with (Seq (Char k) (lit_units (k' :: kw))) in HM.
    inversion HM as [| | |? ? ? ? p1 s1 ? ? H1 H2| | | | | | |]; subst.
    inversion H1; subst.
    apply IH in H2; [|discriminate].
    destruct H2 as (w & -> & -> & HF).
    exists (x :: w). rewrite lastUnit_cons. repeat split.
    constructor; assumption.
Qed.

(** A starred class reads any run of units of the class. *)
Lemma Matches_star_class ic cls : forall m p rest,
  List.Forall (fun c => inClass cls c = true) m ->
  Matches ic (Star (Class cls)) p (m ++ rest) (lastUnit p m) rest.
Proof.
  induction m as [|c m IH]; intros p rest HF.
  - constructor.
  - inversion HF; subst. simpl. rewrite lastUnit_cons.
    eapply M_StarS; [constructor; assumption | simpl; lia | apply IH; assumption].
Qed.

Lemma Matches_star_class_inv ic cls p s p' s' :
  Matches ic (Star (Class cls)) p s p' s' ->
  exists m, s = m ++ s' /\ p' = lastUnit p m /\
    List.Forall (fun c => inClass cls c = true) m.
Proof.
  intros HM. remember (Star (Class cls)) as r eqn:Hr.
  induction HM; try discriminate; injection Hr as ->.
  - exists []. repeat split. constructor.
  - destruct (IHHM2 eq_refl) as (m & -> & -> & HF).
    inversion HM1; subst.
    exists (x :: m). rewrite lastUnit_cons. repeat split.
    constructor; assumption.
Qed.

Lemma Matches_plus_class ic cls m p rest :
  m <> [] -> List.Forall (fun c => inClass cls c = true) m ->
  Matches ic (Plus (Class cls)) p (m ++ rest) (lastUnit p m) rest.
Proof.
  destruct m as [|c m]; [congruence|]. intros _ HF. inversion HF; subst.
  unfold Plus. simpl. rewrite lastUnit_cons.
  econstructor; [constructor; assumption|].
  apply Matches_star_class. assumption.
Qed.

Lemma Matches_plus_class_inv ic cls p s p' s' :
  Matches ic (Plus (Class cls)) p s p' s' ->
  exists m, m <> [] /\ s = m ++ s' /\ p' = lastUnit p m /\
    List.Forall (fun c => inClass cls c = true) m.
Proof.
  unfold Plus. inversion 1 as [| | |? ? ? ? p1 s1 ? ? H1 H2| | | | | | |]; subst.
  inversion H1; subst.
  apply Matches_star_class_inv in H2. destruct H2 as (m & -> & -> & HF).
  exists (x :: m). rewrite lastUnit_cons. repeat split; [discriminate|].
  constructor; assumption.
Qed.

(** ** Case folding *)

Lemma canonicalize_ascii c : c < 128 -> canonicalize c = foldCase c.
Proof.
  intros Hc. unfold canonicalize, upperUnit, foldCase.
  destruct ((97 <=? c) && (c <=? 122)) eqn:E1.
  - replace (128 <=? c) with false by (symmetry; apply N.leb_gt; lia).
    reflexivity.
  - repeat match goal with
      | |- context [c =? ?n] =>
          replace (c =? n) with false by (symmetry; apply N.eqb_neq; lia)
      end.
    replace (224 <=? c) with false by (symmetry; apply N.leb_gt; lia).
    simpl.
    replace (128 <=? c) with false by (symmetry; apply N.leb_gt; lia).
    reflexivity.
Qed.

Lemma canonicalize_high c : 128 <= c -> 128 <= canonicalize c.
Proof.
  intros Hc. unfold canonicalize.
  destruct (upperUnit c) as [|u [|? ?]]; try exact Hc.
  replace (128 <=? c) with true by (symmetry; apply N.leb_le; lia).
  simpl. destruct (u <? 128) eqn:E; [exact Hc|].
  apply N.ltb_ge in E. exact E.
Qed.

Lemma foldCase_ascii c : c < 128 -> foldCase c < 128.
Proof.
  unfold foldCase. destruct ((97 <=? c) && (c <=? 122)); lia.
Qed.

Lemma foldCase_high c : 128 <= c -> foldCase c = c.
Proof.
  intros Hc. unfold foldCase.
  replace (c <=? 122) with false by (symmetry; apply N.leb_gt; lia).
  rewrite andb_false_r. reflexivity.
Qed.

(** Against an ASCII unit of a pattern, the i flag is ASCII case
    folding. *)
Lemma unitMatches_fold k c :
  k < 128 -> (unitMatches true k c = true <-> foldCase k = foldCase c).
Proof.
  intros Hk. unfold unitMatches. rewrite N.eqb_eq, (canonicalize_ascii k Hk).
  destruct (N.lt_ge_cases c 128) as [Hc|Hc].
  - rewrite (canonicalize_ascii c Hc). reflexivity.
  - pose proof (canonicalize_high c Hc). pose proof (foldCase_ascii k Hk).
    rewrite (foldCase_high c Hc). split; intros; lia.
Qed.

Lemma sameIgnoringCase_Forall2 kw : forall w,
  List.Forall (fun k => k < 128) kw ->
  (sameIgnoringCase kw w <->
   List.Forall2 (fun k c => unitMatches true k c = true) kw w).
Proof.
  unfold sameIgnoringCase.
  induction kw as [|k kw IH]; intros w HA.
  - split.
    + destruct w; [constructor | discriminate].
    + inversion 1. reflexivity.
  - inversion HA; subst. destruct w as [|c w].
    + split; [discriminate | inversion 1].
    + simpl. split.
      * intros [= Hc Hw]. constructor.
        -- apply unitMatches_fold; assumption.
        -- apply IH; assumption.
      * inversion 1; subst. f_equal.
        -- apply unitMatches_fold; assumption.
        -- apply IH; assumption.
Qed.

Lemma js_ascii_dec (kw : string) :
  List.forallb (fun k => k <? 128) (js kw) = true ->
  List.Forall (fun k => k < 128) (js kw).
Proof.
  intros H. apply List.Forall_forall. intros k Hin.
  rewrite List.forallb_forall in H. apply N.ltb_lt. apply H. exact Hin.
Qed.

(** A keyword of the source reads every text that spells it. *)
Lemma Matches_lit (kw : string) w p rest :
  List.forallb (fun k => k <? 128) (js kw) = true -> js kw <> [] ->
  spells kw w ->
  Matches true (lit kw) p (w ++ rest) (lastUnit p w) rest.
Proof.
  intros HA Hne Hs. apply Matches_lit_units; [exact Hne|].
  apply sameIgnoringCase_Forall2; [apply js_ascii_dec; exact HA | exact Hs].
Qed.

Lemma Matches_lit_inv (kw : string) p s p' s' :
  List.forallb (fun k => k <? 128) (js kw) = true -> js kw <> [] ->
  Matches true (lit kw) p s p' s' ->
  exists w, s = w ++ s' /\ p' = lastUnit p w /\ spells kw w.
Proof.
  intros HA Hne HM. apply Matches_lit_units_inv in HM; [|exact Hne].
  destruct HM as (w & -> & -> & HF). exists w. repeat split.
  apply sameIgnoringCase_Forall2; [apply js_ascii_dec; exact HA | exact HF].
Qed.

(** ** Whole words *)

Lemma isWordChar_foldCase c : isWordChar (foldCase c) = isWordChar c.
Proof.
  unfold foldCase. destruct ((97 <=? c) && (c <=? 122)) eqn:E; [|reflexivity].
  apply andb_true_iff in E. destruct E as [E1 E2].
  apply N.leb_le in E1. apply N.leb_le in E2.
  unfold isWordChar, isDigit.
  replace (97 <=? c) with true by (symmetry; apply N.leb_le; lia).
  replace (c <=? 122) with true by (symmetry; apply N.leb_le; lia).
  replace (65 <=? c - 32) with true by (symmetry; apply N.leb_le; lia).
  replace (c - 32 <=? 90) with true by (symmetry; apply N.leb_le; lia).
  simpl. rewrite orb_true_r. reflexivity.
Qed.

Lemma sameIgnoringCase_head a b :
  sameIgnoringCase a b ->
  isWordAt (List.head b) = isWordAt (List.head a).
Proof.
  unfold sameIgnoringCase. destruct a as [|x a], b as [|y b];
    try discriminate; [reflexivity|].
  intros [= H _]. simpl.
  rewrite <- (isWordChar_foldCase x), <- (isWordChar_foldCase y), H.
  reflexivity.
Qed.

Lemma sameIgnoringCase_rev a b :
  sameIgnoringCase a b -> sameIgnoringCase (List.rev a) (List.rev b).
Proof.
  unfold sameIgnoringCase. intros H. rewrite !List.map_rev, H. reflexivity.
Qed.

Lemma lastUnit_head p m : lastUnit p m =
  match List.head (List.rev m) with Some c => Some c | None => p end.
Proof. unfold lastUnit. destruct (List.rev m); reflexivity. Qed.

Lemma sameIgnoringCase_last a b p q :
  a <> [] -> sameIgnoringCase a b ->
  isWordAt (lastUnit q b) = isWordAt (lastUnit p a).
Proof.
  intros Hne H. apply sameIgnoringCase_rev in H.
  pose proof (sameIgnoringCase_head _ _ H) as Hh.
  rewrite !lastUnit_head.
  assert (Ha : List.rev a <> []).
  { intros E. apply (f_equal (@List.rev N)) in E.
    rewrite List.rev_involutive in E. auto. }
  assert (Hb : List.rev b <> []).
  { intros E. unfold sameIgnoringCase in H. rewrite E in H.
    destruct (List.rev a); [auto | discriminate]. }
  destruct (List.rev a), (List.rev b); try congruence. exact Hh.
Qed.

Lemma sameIgnoringCase_nonempty a b :
  a <> [] -> sameIgnoringCase a b -> b <> [].
Proof.
  unfold sameIgnoringCase. intros Hne H ->. destruct a; [auto | discriminate].
Qed.

Lemma head_app_nonempty (a b : jsstring) :
  a <> [] -> List.head (a ++ b) = List.head a.
Proof. destruct a; [congruence | reflexivity]. Qed.

Lemma keyword_nonempty kw : keyword kw = true -> js kw <> [].
Proof.
  unfold keyword. intros H E. rewrite E in H. discriminate.
Qed.

Lemma keyword_ascii kw :
  keyword kw = true -> List.forallb (fun k => k <? 128) (js kw) = true.
Proof.
  unfold keyword. intros H. apply andb_true_iff in H. destruct H as [H _].
  apply andb_true_iff in H. tauto.
Qed.

(** The boundary [\b] in front of a word that follows no word
    character. *)
Lemma Matches_WordB_before ic kw w pre rest :
  keyword kw = true -> spells kw w -> endsInWord pre = false ->
  Matches ic WordB (lastUnit None pre) (w ++ rest)
    (lastUnit None pre) (w ++ rest).
Proof.
  intros Hk Hs Hpre. constructor.
  unfold endsInWord in Hpre. rewrite Hpre.
  rewrite head_app_nonempty
    by (eapply sameIgnoringCase_nonempty; [apply keyword_nonempty|]; eauto).
  rewrite (sameIgnoringCase_head _ _ Hs).
  unfold keyword in Hk. apply andb_true_iff in Hk. destruct Hk as [Hk _].
  apply andb_true_iff in Hk. destruct Hk as [_ Hk]. rewrite Hk. reflexivity.
Qed.

(** The boundary [\b] behind a word that no word character follows. *)
Lemma Matches_WordB_after ic kw w p post :
  keyword kw = true -> spells kw w -> startsInWord post = false ->
  Matches ic WordB (lastUnit p w) post (lastUnit p w) post.
Proof.
  intros Hk Hs Hpost. constructor.
  unfold startsInWord in Hpost. rewrite Hpost.
  rewrite (sameIgnoringCase_last (js kw) w None p
             (keyword_nonempty _ Hk) Hs).
  unfold keyword in Hk. apply andb_true_iff in Hk. destruct Hk as [_ Hk].
  rewrite Hk. reflexivity.
Qed.

(** A whole-word occurrence of a keyword is matched by
    [\b(...|kw|...)\b]. *)
Lemma occursAsWord_MatchesIn kw l s :
  keyword kw = true -> List.In (lit kw) l -> occursAsWord kw s ->
  MatchesIn (mkRegExp (seqs [WordB; alts l; WordB]) true) s.
Proof.
  intros Hk Hin (pre & w & post & -> & Hs & Hpre & Hpost).
  exists pre, w, post, (lastUnit (lastUnit None pre) w).
  split; [reflexivity|]. cbn [source ignoreCase].
  eapply Matches_seqs_cons;
    [eapply Matches_WordB_before; eassumption|].
  eapply Matches_seqs_cons.
  { eapply Matches_alts; [exact Hin|].
    apply Matches_lit;
      [apply keyword_ascii | apply keyword_nonempty |]; assumption. }
  eapply Matches_seqs_cons;
    [eapply Matches_WordB_after; eassumption | constructor].
Qed.

(** A phrase is matched by [\bkw1\s+kw2\b]. *)
Lemma occursAsPhrase_MatchesIn kw1 kw2 s :
  keyword kw1 = true -> keyword kw2 = true -> occursAsPhrase kw1 kw2 s ->
  MatchesIn
    (mkRegExp (seqs [WordB; lit kw1; space_plus; lit kw2; WordB]) true) s.
Proof.
  intros Hk1 Hk2 (pre & w1 & ws & w2 & post & -> & Hs1 & [Hne Hws] & Hs2
                  & Hpre & Hpost).
  exists pre, (w1 ++ ws ++ w2), post,
    (lastUnit (lastUnit (lastUnit (lastUnit None pre) w1) ws) w2).
  split; [rewrite <- !List.app_assoc; reflexivity|].
  cbn [source ignoreCase]. rewrite <- !List.app_assoc.
  eapply Matches_seqs_cons;
    [apply (Matches_WordB_before _ kw1); assumption|].
  eapply Matches_seqs_cons.
  { apply Matches_lit;
      [apply keyword_ascii | apply keyword_nonempty |]; eassumption. }
  eapply Matches_seqs_cons.
  { apply Matches_plus_class; [exact Hne | exact Hws]. }
  eapply Matches_seqs_cons.
  { apply Matches_lit;
      [apply keyword_ascii | apply keyword_nonempty |]; eassumption. }
  eapply Matches_seqs_cons;
    [apply (Matches_WordB_after _ kw2); assumption | constructor].
Qed.

(** ** validateSQL *)

(** A statement in which one of the dangerous patterns matches is
    rejected, whatever the earlier checks say. *)
Lemma validateSQL_pattern sql pat :
  List.In pat DANGEROUS_PATTERNS -> MatchesIn pat sql ->
  exists message, validateSQL sql = Throw message.
Proof.
  intros Hin HM. unfold validateSQL.
  destruct (_ || _); [eauto|].
  destruct (_ && _); [eauto|].
  assert (He : List.existsb (fun pattern => test pattern sql)
                 DANGEROUS_PATTERNS = true).
  { apply List.existsb_exists. exists pat. split; [exact Hin|].
    apply test_MatchesIn. exact HM. }
  rewrite He. eauto.
Qed.

(** Nothing is executed when validation throws. *)
Lemma executeSQL_rejected sql message db o env :
  validateSQL sql = Throw message ->
  executeSQL sql db o env = Throw message.
Proof. intros H. unfold executeSQL. rewrite H. reflexivity. Qed.

Lemma occursAsWord_MatchesIn_single kw s :
  keyword kw = true -> occursAsWord kw s ->
  MatchesIn (mkRegExp (seqs [WordB; lit kw; WordB]) true) s.
Proof.
  intros Hk Hocc.
  change (seqs [WordB; lit kw; WordB])
    with (seqs [WordB; alts [lit kw]; WordB]).
  apply (occursAsWord_MatchesIn kw);
    [exact Hk | left; reflexivity | exact Hocc].
Qed.

Ltac in_list :=
  solve [simpl; repeat (first [left; reflexivity | right])].

Ltac by_word pat :=
  match goal with
  | Hocc : occursAsWord ?kw ?s |- _ =>
      exists pat; split; [in_list|];
      apply (occursAsWord_MatchesIn kw _ s eq_refl); [in_list | exact Hocc]
  end.

Lemma containsBlocked_pattern sql :
  containsBlocked sql ->
  exists pat, List.In pat DANGEROUS_PATTERNS /\ MatchesIn pat sql.
Proof.
  unfold containsBlocked, blockedWords, blockedPhrases.
  intros [(kw & Hin & Hocc) | (ph & Hin & Hocc)].
  - simpl in Hin.
    repeat (destruct Hin as [<- | Hin];
            [first [ by_word pat_modify | by_word pat_exec
                   | exists pat_load_file; split; [in_list|];
                     apply (occursAsWord_MatchesIn_single "LOAD_FILE" _
                              eq_refl);
                     exact Hocc ] |]).
    destruct Hin.
  - simpl in Hin. destruct Hin as [<- | [<- | []]]; simpl in Hocc.
    + exists pat_outfile. split; [in_list|].
      apply (occursAsPhrase_MatchesIn "INTO" "OUTFILE" _ eq_refl eq_refl).
      exact Hocc.
    + exists pat_dumpfile. split; [in_list|].
      apply (occursAsPhrase_MatchesIn "INTO" "DUMPFILE" _ eq_refl eq_refl).
      exact Hocc.
Qed.

(** C2.  Every SQL text that contains, as a whole word in any case and
    anywhere, one of INSERT, UPDATE, DELETE, DROP, TRUNCATE, ALTER,
    CREATE, GRANT, REVOKE, EXEC, EXECUTE, EVAL, LOAD_FILE, or one of the
    phrases INTO OUTFILE, INTO DUMPFILE, makes validateSQL throw; and
    executeSQL then throws the same error for every connection, so the
    statement never reaches the database. *)
Theorem C2_blocked_keywords_rejected (sql : jsstring) :
  containsBlocked sql ->
  exists message,
    validateSQL sql = Throw message /\
    forall db o env, executeSQL sql db o env = Throw message.
Proof.
  intros Hb. destruct (containsBlocked_pattern _ Hb) as (pat & Hin & HM).
  destruct (validateSQL_pattern _ _ Hin HM) as (message & Hv).
  exists message. split; [exact Hv|].
  intros db o env. apply executeSQL_rejected. exact Hv.
Qed.

Lemma C2_blocked_keywords_witness :
  exists message,
    validateSQL (js "SELECT id FROM t WHERE 1=1 OR delete FROM t")
      = Throw message /\
    forall db o env,
      executeSQL (js "SELECT id FROM t WHERE 1=1 OR delete FROM t") db o env
        = Throw message.
Proof.
  apply (C2_blocked_keywords_rejected
           (js "SELECT id FROM t WHERE 1=1 OR delete FROM t")).
  left. exists "DELETE"%string. split; [in_list|].
  exists (js "SELECT id FROM t WHERE 1=1 OR "), (js "delete"), (js " FROM t").
  repeat split; reflexivity.
Defined.

(** ** Splitting and trimming *)

Lemma split_no_sep sep seg :
  ~ List.In sep seg -> split sep seg = [seg].
Proof.
  induction seg as [|c seg IH]; intros Hn; [reflexivity|].
  simpl. destruct (N.eqb_spec c sep) as [->|Hne].
  - exfalso. apply Hn. left. reflexivity.
  - rewrite IH; [reflexivity|]. intros Hin. apply Hn. right. exact Hin.
Qed.

Lemma split_app_sep sep seg r :
  ~ List.In sep seg -> split sep (seg ++ sep :: r) = seg :: split sep r.
Proof.
  induction seg as [|c seg IH]; intros Hn; simpl.
  - rewrite N.eqb_refl. reflexivity.
  - destruct (N.eqb_spec c sep) as [->|Hne].
    + exfalso. apply Hn. left. reflexivity.
    + rewrite IH; [reflexivity|]. intros Hin. apply Hn. right. exact Hin.
Qed.

(** [split] recovers the segments that were joined. *)
Lemma split_joinSegments segs :
  segs <> [] -> List.Forall (fun seg => ~ List.In 59 seg) segs ->
  split 59 (joinSegments segs) = segs.
Proof.
  induction segs as [|seg segs IH]; [congruence|].
  intros _ HF. inversion HF as [|? ? Hseg HF']; subst.
  destruct segs as [|seg' segs].
  - simpl. apply split_no_sep. exact Hseg.
  - change (joinSegments (seg :: seg' :: segs))
      with (seg ++ 59 :: joinSegments (seg' :: segs)).
    rewrite split_app_sep by exact Hseg.
    rewrite IH; [reflexivity | discriminate | exact HF'].
Qed.

Lemma trimStart_nonblank s :
  nonEmptySegment s -> nonEmptySegment (trimStart s).
Proof.
  unfold nonEmptySegment. induction s as [|c s IH]; intros HE.
  - inversion HE.
  - simpl. destruct (isWhiteSpace c) eqn:E; [|exact HE].
    inversion HE as [? ? Hc|? ? Hs]; subst; [congruence|].
    apply IH. exact Hs.
Qed.

Lemma nonEmptySegment_rev s :
  nonEmptySegment s -> nonEmptySegment (List.rev s).
Proof.
  unfold nonEmptySegment. rewrite !List.Exists_exists.
  intros (c & Hin & Hc). exists c. split; [|exact Hc].
  apply List.in_rev. rewrite List.rev_involutive. exact Hin.
Qed.

(** A segment with a unit that is not white space survives trimming. *)
Lemma trim_nonEmptySegment s :
  nonEmptySegment s -> Nat.ltb 0 (List.length (trim s)) = true.
Proof.
  intros H. unfold trim, trimEnd.
  apply trimStart_nonblank, nonEmptySegment_rev, trimStart_nonblank,
    nonEmptySegment_rev in H.
  destruct (List.rev (trimStart (List.rev (trimStart s)))); [inversion H|].
  reflexivity.
Qed.

Lemma filter_two {A : Type} (f : A -> bool) a x b y c :
  f x = true -> f y = true ->
  (1 < List.length (List.filter f (a ++ x :: b ++ y :: c)))%nat.
Proof.
  intros Hx Hy. rewrite List.filter_app. simpl. rewrite Hx.
  rewrite List.filter_app. simpl. rewrite Hy.
  rewrite List.length_app. simpl. rewrite List.length_app. simpl. lia.
Qed.

(** C5.  Every SQL text that splits on the terminator into more than one
    non-empty segment (a segment is empty when it holds nothing but white
    space) makes validateSQL throw: no batch is accepted. *)
Theorem C5_batches_rejected (sql : jsstring) :
  severalStatements sql ->
  exists message, validateSQL sql = Throw message.
Proof.
  intros (segs & a & x & b & y & c & (Hne & Hjoin & Hsep) & Hsegs & Hx & Hy).
  unfold validateSQL.
  destruct (_ || _); [eauto|].
  destruct (_ && _); [eauto|].
  destruct (List.existsb _ _); [eauto|].
  rewrite Hjoin, (split_joinSegments _ Hne Hsep), Hsegs.
  pose proof (filter_two (fun s => Nat.ltb 0 (List.length (trim s)))
                a x b y c (trim_nonEmptySegment _ Hx)
                (trim_nonEmptySegment _ Hy)) as Hlen.
  apply Nat.ltb_lt in Hlen. rewrite Hlen. eauto.
Qed.

Lemma C5_batches_witness :
  exists message,
    validateSQL (js "SELECT * FROM Orders; DROP TABLE Orders;")
      = Throw message.
Proof.
  apply (C5_batches_rejected (js "SELECT * FROM Orders; DROP TABLE Orders;")).
  exists [js "SELECT * FROM Orders"; js " DROP TABLE Orders"; []],
    [], (js "SELECT * FROM Orders"), [], (js " DROP TABLE Orders"), [[]].
  repeat split.
  - discriminate.
  - repeat constructor; vm_compute; intuition discriminate.
  - apply List.Exists_cons_hd. reflexivity.
  - apply List.Exists_cons_tl, List.Exists_cons_hd. reflexivity.
Defined.

(** ** The schema-enumeration rule *)

Lemma onOneLine_Dot mid :
  onOneLine mid -> List.Forall (fun c => inClass Dot c = true) mid.
Proof.
  unfold onOneLine. apply List.Forall_impl. intros c Hc. simpl.
  rewrite Hc. reflexivity.
Qed.

Ltac read_keyword kw :=
  eapply Matches_seqs_cons;
  [apply (Matches_lit kw);
   [apply keyword_ascii; reflexivity | apply keyword_nonempty; reflexivity
   | assumption] |].

Lemma schemaEnumerationShape_MatchesIn s :
  schemaEnumerationShape s -> MatchesIn pat_schema_enum s.
Proof.
  intros (pre & u & ws1 & a & ws2 & sel & mid & f & ws3 & i & post & ->
          & Hu & H1 & Ha & H2 & Hsel & Hmid & Hf & H3 & Hi).
  exists pre, (u ++ ws1 ++ a ++ ws2 ++ sel ++ mid ++ f ++ ws3 ++ i), post.
  eexists. split; [rewrite <- !List.app_assoc; reflexivity|].
  unfold pat_schema_enum. cbn [source ignoreCase].
  rewrite <- !List.app_assoc.
  read_keyword "UNION"%string.
  eapply Matches_seqs_cons;
    [apply Matches_plus_class; destruct H1; assumption|].
  read_keyword "ALL"%string.
  eapply Matches_seqs_cons;
    [apply Matches_plus_class; destruct H2; assumption|].
  read_keyword "SELECT"%string.
  eapply Matches_seqs_cons;
    [apply Matches_star_class; apply onOneLine_Dot; exact Hmid|].
  read_keyword "FROM"%string.
  eapply Matches_seqs_cons;
    [apply Matches_plus_class; destruct H3; assumption|].
  read_keyword "INFORMATION_SCHEMA"%string.
  constructor.
Qed.

(** C6 (as amended).  validateSQL throws on every statement in which the
    phrase UNION ALL SELECT is followed, on the same line, by FROM
    INFORMATION_SCHEMA, the words being in any case and separated by
    white space. *)
Theorem C6_schema_enumeration_rejected (sql : jsstring) :
  schemaEnumerationShape sql ->
  exists message, validateSQL sql = Throw message.
Proof.
  intros H. apply (validateSQL_pattern sql pat_schema_enum); [in_list|].
  apply schemaEnumerationShape_MatchesIn. exact H.
Qed.

Lemma C6_schema_enumeration_witness :
  exists message,
    validateSQL
      (js "SELECT name FROM products UNION ALL SELECT table_name FROM information_schema.tables")
      = Throw message.
Proof.
  apply (C6_schema_enumeration_rejected
           (js "SELECT name FROM products UNION ALL SELECT table_name FROM information_schema.tables")).
  exists (js "SELECT name FROM products "), (js "UNION"), (js " "),
    (js "ALL"), (js " "), (js "SELECT"), (js " table_name "), (js "FROM"),
    (js " "), (js "information_schema"), (js ".tables").
  unfold spacing, blank, onOneLine.
  repeat split; try reflexivity; try discriminate;
    repeat constructor.
Defined.

(** C6, as the specification words it, does not hold: a statement that
    reads the catalog first and then continues with UNION ALL SELECT
    combines both and is accepted. *)
Lemma C6_catalog_before_union_accepted :
  ~ (forall sql : jsstring,
       combinesUnionWithCatalog sql ->
       exists message, validateSQL sql = Throw message).
Proof.
  intros H.
  destruct (H (js "SELECT table_name FROM information_schema.tables UNION ALL SELECT name FROM products"))
    as (message & Hm).
  - split.
    + exists (js "SELECT table_name FROM information_schema.tables "),
        (js "UNION"), (js " "), (js "ALL"), (js " "), (js "SELECT"),
        (js " name FROM products").
      unfold spacing, blank.
      repeat split; try reflexivity; try discriminate; repeat constructor.
    + exists (js "SELECT table_name FROM "), (js "information_schema"),
        (js ".tables UNION ALL SELECT name FROM products").
      repeat split; reflexivity.
  - vm_compute in Hm. discriminate.
Qed.

(** ** The row limit *)

Lemma Matches_WordB_inv ic p s p' s' :
  Matches ic WordB p s p' s' ->
  p' = p /\ s' = s /\ xorb (isWordAt p) (isWordAt (List.head s)) = true.
Proof. inversion 1; subst. repeat split. assumption. Qed.

(** The pattern [/\bLIMIT\s+\d+/i] matches exactly the statements that
    have a LIMIT clause. *)
Lemma hasLimitClause_MatchesIn s :
  hasLimitClause s <-> MatchesIn re_limit s.
Proof.
  split.
  - intros (pre & w & ws & d & post & -> & Hw & [Hne Hws] & Hd & Hpre).
    exists pre, (w ++ ws ++ [d]), post. eexists.
    split; [rewrite <- !List.app_assoc; reflexivity|].
    unfold re_limit. cbn [source ignoreCase]. rewrite <- !List.app_assoc.
    eapply Matches_seqs_cons;
      [apply (Matches_WordB_before _ "LIMIT");
       [reflexivity | assumption | assumption]|].
    read_keyword "LIMIT"%string.
    eapply Matches_seqs_cons;
      [apply Matches_plus_class; assumption|].
    eapply Matches_seqs_cons; [|constructor].
    apply (Matches_plus_class true Digit [d]); [discriminate|].
    constructor; [exact Hd | constructor].
  - intros (pre & m & post & p' & -> & HM).
    unfold re_limit in HM. cbn [source ignoreCase] in HM.
    apply Matches_seqs_inv in HM. destruct HM as (p1 & s1 & HB & HM).
    apply Matches_WordB_inv in HB. destruct HB as (-> & -> & HB).
    apply Matches_seqs_inv in HM. destruct HM as (p2 & s2 & HL & HM).
    apply (Matches_lit_inv "LIMIT") in HL; [|reflexivity|discriminate].
    destruct HL as (w & Hs1 & -> & Hw).
    apply Matches_seqs_inv in HM. destruct HM as (p3 & s3 & HS & HM).
    apply Matches_plus_class_inv in HS.
    destruct HS as (ws & Hne & -> & -> & Hws).
    apply Matches_seqs_inv in HM. destruct HM as (p4 & s4 & HD & HM).
    apply Matches_plus_class_inv in HD.
    destruct HD as (ds & Hdne & -> & -> & Hds).
    apply Matches_seqs_nil_inv in HM. destruct HM as [-> ->].
    destruct ds as [|d ds]; [congruence|]. inversion Hds; subst.
    exists pre, w, ws, d, (ds ++ s4).
    rewrite Hs1. split; [reflexivity|].
    repeat split; try assumption.
    rewrite Hs1 in HB.
    rewrite head_app_nonempty in HB
      by (eapply sameIgnoringCase_nonempty; [|exact Hw]; discriminate).
    rewrite (sameIgnoringCase_head _ _ Hw) in HB. simpl in HB.
    unfold endsInWord. destruct (isWordAt (lastUnit None pre));
      [discriminate | reflexivity].
Qed.

Lemma hasLimitClause_test s : hasLimitClause s <-> test re_limit s = true.
Proof. rewrite test_MatchesIn. apply hasLimitClause_MatchesIn. Qed.

(** What [/;?\s*$/] reads: an optional terminator and white space, up to
    the end of the text. *)
Lemma tail_Matches p t :
  (exists p' rest, Matches false (source re_tail) p t p' rest) <->
  exists term ws, t = term ++ ws /\ (term = [] \/ term = js ";") /\ blank ws.
Proof.
  unfold re_tail. cbn [source]. split.
  - intros (p' & rest & HM).
    apply Matches_seqs_inv in HM. destruct HM as (p1 & s1 & HO & HM).
    apply Matches_seqs_inv in HM. destruct HM as (p2 & s2 & HS & HM).
    apply Matches_seqs_inv in HM. destruct HM as (p3 & s3 & HE & HM).
    apply Matches_seqs_nil_inv in HM. destruct HM as [-> ->].
    inversion HE; subst.
    apply Matches_star_class_inv in HS.
    destruct HS as (ws & -> & _ & Hws). rewrite List.app_nil_r in HO.
    unfold Opt in HO. inversion HO as [| | | |? ? ? ? ? ? HL|? ? ? ? ? ? HR| | | | |];
      subst.
    + unfold lit in HL. simpl in HL. inversion HL as [|? x ? ? Hx| | | | | | | | |];
        subst. unfold unitMatches in Hx. apply N.eqb_eq in Hx. subst x.
      exists (js ";"), ws. repeat split; [right; reflexivity | exact Hws].
    + inversion HR; subst. exists [], ws.
      repeat split; [left; reflexivity | exact Hws].
  - intros (term & ws & -> & Hterm & Hws).
    assert (Hstar : forall q,
               Matches false (seqs [space_star; Eol]) q ws (lastUnit q ws) []).
    { intros q. eapply Matches_seqs_cons.
      - rewrite <- (List.app_nil_r ws) at 1.
        apply Matches_star_class. exact Hws.
      - eapply Matches_seqs_cons; constructor. }
    destruct Hterm as [-> | ->].
    + exists (lastUnit p ws), [].
      eapply Matches_seqs_cons; [apply M_AltR; constructor | apply Hstar].
    + exists (lastUnit (Some 59) ws), [].
      change (js ";" ++ ws) with (59 :: ws).
      eapply Matches_seqs_cons; [|apply Hstar].
      apply M_AltL. apply (M_Char false 59 59). reflexivity.
Qed.

Lemma tail_matchHere_rest p t rest :
  matchHere re_tail p t = Some rest -> rest = [].
Proof.
  intros H. apply matchHere_sound in H. destruct H as (p' & HM).
  unfold re_tail in HM. cbn [source ignoreCase] in HM.
  apply Matches_seqs_inv in HM. destruct HM as (p1 & s1 & HO & HM).
  apply Matches_seqs_inv in HM. destruct HM as (p2 & s2 & HS & HM).
  apply Matches_seqs_inv in HM. destruct HM as (p3 & s3 & HE & HM).
  apply Matches_seqs_nil_inv in HM. destruct HM as [-> ->].
  inversion HE; subst. reflexivity.
Qed.

(** The replacement of [/;?\s*$/]: the text loses its final terminator
    (at most one) and the white space around the end, and gains the
    replacement. *)
Lemma replace_tail repl s :
  exists body term ws,
    s = body ++ term ++ ws /\ (term = [] \/ term = js ";") /\ blank ws /\
    (term = [] -> forall body' c, body = body' ++ [c] ->
                  c <> 59 /\ isWhiteSpace c = false) /\
    replace re_tail repl s = body ++ repl.
Proof.
  unfold replace.
  destruct (search re_tail None [] s) as [[[b m] a]|] eqn:E.
  - apply search_found in E.
    destruct E as (pre & -> & -> & Hm & Hleft). simpl.
    pose proof (tail_matchHere_rest _ _ _ Hm) as ->.
    pose proof Hm as Hm'. apply matchHere_sound in Hm'.
    destruct Hm' as (p' & HM).
    destruct (proj1 (tail_Matches _ _) (ex_intro _ p' (ex_intro _ [] HM)))
      as (term & ws & Ht & Hterm & Hws).
    rewrite List.app_nil_r in Ht. subst m.
    exists pre, term, ws. rewrite !List.app_nil_r.
    split; [reflexivity|]. split; [exact Hterm|]. split; [exact Hws|].
    split; [|reflexivity].
    intros -> body' c ->. simpl in Hleft.
    specialize (Hleft body' [c] eq_refl ltac:(discriminate)).
    assert (Hno : ~ exists term' ws', [c] ++ ws ++ [] = term' ++ ws' /\
                   (term' = [] \/ term' = js ";") /\ blank ws').
    { intros Hex. apply (tail_Matches (lastUnit None body')) in Hex.
      destruct Hex as (q & rest & HMq).
      apply (matchHere_complete re_tail) in HMq.
      destruct HMq as (rest' & HMq).
      rewrite Hleft in HMq. discriminate. }
    rewrite List.app_nil_r in Hno.
    split.
    + intros ->. apply Hno. exists (js ";"), ws.
      split; [reflexivity|]. split; [right; reflexivity | exact Hws].
    + destruct (isWhiteSpace c) eqn:Ec; [|reflexivity].
      exfalso. apply Hno. exists [], (c :: ws).
      split; [reflexivity|]. split; [left; reflexivity|].
      constructor; assumption.
  - exfalso. eapply search_none with (pre := s) (t := []) in E;
      [|rewrite List.app_nil_r; reflexivity].
    assert (Hex : exists term ws, @nil N = term ++ ws /\
                    (term = [] \/ term = js ";") /\ blank ws).
    { exists [], []. repeat split; [left; reflexivity | constructor]. }
    apply (tail_Matches (lastUnit None s)) in Hex.
    destruct Hex as (q & rest & HMq).
    apply (matchHere_complete re_tail) in HMq. destruct HMq as (rest' & HMq).
    rewrite E in HMq. discriminate.
Qed.

Lemma limit_clause_not_tail z term ws :
  (term = [] \/ term = js ";") -> blank ws ->
  js " LIMIT " ++ numberToString z ++ js ";" <> term ++ ws.
Proof.
  change (js " LIMIT ") with (32 :: 76 :: js "IMIT ").
  change (js ";") with [59].
  intros [-> | ->] Hws E; cbn [List.app] in E.
  - subst ws. inversion Hws as [|? ? _ Hws']; subst.
    inversion Hws' as [|? ? HL _]; subst. vm_compute in HL. discriminate.
  - discriminate E.
Qed.

Lemma executeSQL_valid sql db o env :
  validateSQL sql = Ok true ->
  executeSQL sql db o env =
  let limited := limitedSQL sql (maxRowsOf o env) in
  let run := executeWithTimeout db limited (timeoutOf o env) in
  bind (fst run) (fun rows =>
    Ok (mkExecution rows (List.length rows) (snd run)
          (negb (jsstring_eqb limited sql)))).
Proof.
  intros Hv. unfold executeSQL. rewrite Hv. simpl.
  destruct (executeWithTimeout db _ _). reflexivity.
Qed.

(** C3 (as amended).  executeSQL decides on the text of the statement:
    the statement shows a LIMIT when the word LIMIT, white space and a
    digit occur in it.  For every valid statement that shows none,
    executeSQL hands to the database the statement with [ LIMIT <max>;]
    in place of its final terminator (and of the white space after it)
    and reports limitApplied = true; for every valid statement that
    shows one it hands over the statement as it is and reports
    limitApplied = false.  <max> is the configured maximum:
    [options.maxRows] when it is given and not 0, else the variable
    MAX_RESULT_ROWS when it is set to a number other than 0, else 1000.
    With 1000 as the maximum,
    [SELECT ProductName FROM Products ORDER BY UnitPrice DESC] becomes
    [SELECT ProductName FROM Products ORDER BY UnitPrice DESC LIMIT 1000;];
    with [maxRows: 50] it ends in [LIMIT 50;], with MAX_RESULT_ROWS=200
    in [LIMIT 200;]. *)
Theorem C3_limit_injection :
  (forall sql db o env,
     validateSQL sql = Ok true -> ~ hasLimitClause sql ->
     exists body term ws,
       sql = body ++ term ++ ws /\ (term = [] \/ term = js ";") /\
       blank ws /\
       (term = [] -> forall body' c, body = body' ++ [c] ->
                     c <> 59 /\ isWhiteSpace c = false) /\
       let limited :=
         body ++ js " LIMIT " ++ numberToString (maxRowsOf o env) ++ js ";" in
       let run := executeWithTimeout db limited (timeoutOf o env) in
       limitedSQL sql (maxRowsOf o env) = limited /\
       executeSQL sql db o env =
         bind (fst run) (fun rows =>
           Ok (mkExecution rows (List.length rows) (snd run) true))) /\
  (forall sql db o env,
     validateSQL sql = Ok true -> hasLimitClause sql ->
     let run := executeWithTimeout db sql (timeoutOf o env) in
     limitedSQL sql (maxRowsOf o env) = sql /\
     executeSQL sql db o env =
       bind (fst run) (fun rows =>
         Ok (mkExecution rows (List.length rows) (snd run) false))) /\
  (forall o env n,
     opt_maxRows o = Some n -> n <> 0%Z -> maxRowsOf o env = n) /\
  (forall o env m,
     opt_maxRows o = None \/ opt_maxRows o = Some 0%Z ->
     MAX_RESULT_ROWS env = Some m -> m <> 0%Z -> maxRowsOf o env = m) /\
  (forall o env,
     opt_maxRows o = None \/ opt_maxRows o = Some 0%Z ->
     MAX_RESULT_ROWS env = None \/ MAX_RESULT_ROWS env = Some 0%Z ->
     maxRowsOf o env = 1000%Z) /\
  limitedSQL (js "SELECT ProductName FROM Products ORDER BY UnitPrice DESC")
    (maxRowsOf noOptions noSettings)
  = js "SELECT ProductName FROM Products ORDER BY UnitPrice DESC LIMIT 1000;"
  /\
  limitedSQL (js "SELECT ProductName FROM Products ORDER BY UnitPrice DESC")
    (maxRowsOf (mkOptions None (Some 50%Z) false None)
       (mkEnvironment None (Some 200%Z)))
  = js "SELECT ProductName FROM Products ORDER BY UnitPrice DESC LIMIT 50;"
  /\
  limitedSQL (js "SELECT ProductName FROM Products ORDER BY UnitPrice DESC")
    (maxRowsOf noOptions (mkEnvironment None (Some 200%Z)))
  = js "SELECT ProductName FROM Products ORDER BY UnitPrice DESC LIMIT 200;".
Proof.
  split; [|split; [|split; [|split; [|split; [|split; [|split]]]]]].
  - intros sql db o env Hv Hno.
    assert (Ht : test re_limit sql = false).
    { destruct (test re_limit sql) eqn:E; [|reflexivity].
      exfalso. apply Hno. apply hasLimitClause_test. exact E. }
    destruct (replace_tail
                (js " LIMIT " ++ numberToString (maxRowsOf o env) ++ js ";")
                sql)
      as (body & term & ws & Hs & Hterm & Hws & Hmin & Hr).
    exists body, term, ws.
    split; [exact Hs|]. split; [exact Hterm|]. split; [exact Hws|].
    split; [exact Hmin|].
    assert (HL : limitedSQL sql (maxRowsOf o env) =
                 body ++ js " LIMIT " ++ numberToString (maxRowsOf o env)
                   ++ js ";").
    { unfold limitedSQL. rewrite Ht. exact Hr. }
    cbv zeta. split; [exact HL|].
    rewrite (executeSQL_valid _ _ _ _ Hv). cbv zeta. rewrite HL.
    replace (jsstring_eqb _ sql) with false; [reflexivity|].
    symmetry. unfold jsstring_eqb. apply bool_decide_eq_false.
    intros E. rewrite Hs in E. apply List.app_inv_head in E.
    exact (limit_clause_not_tail _ _ _ Hterm Hws E).
  - intros sql db o env Hv Hl.
    assert (HL : limitedSQL sql (maxRowsOf o env) = sql).
    { unfold limitedSQL. apply hasLimitClause_test in Hl. rewrite Hl.
      reflexivity. }
    cbv zeta. split; [exact HL|].
    rewrite (executeSQL_valid _ _ _ _ Hv). cbv zeta. rewrite HL.
    replace (jsstring_eqb sql sql) with true; [reflexivity|].
    symmetry. unfold jsstring_eqb. apply bool_decide_eq_true. reflexivity.
  - intros o env n Hn Hne. unfold maxRowsOf, num_or. rewrite Hn.
    apply Z.eqb_neq in Hne. rewrite Hne. reflexivity.
  - intros o env m Ho Hm Hne. unfold maxRowsOf, num_or. rewrite Hm.
    apply Z.eqb_neq in Hne. rewrite Hne.
    destruct Ho as [-> | ->]; reflexivity.
  - intros o env Ho He. unfold maxRowsOf, num_or.
    destruct Ho as [-> | ->], He as [-> | ->]; reflexivity.
  - vm_compute. reflexivity.
  - vm_compute. reflexivity.
  - vm_compute. reflexivity.
Qed.

Lemma C3_limit_witness :
  (exists body term ws,
     js "SELECT ProductName FROM Products ORDER BY UnitPrice DESC"
       = body ++ term ++ ws /\ (term = [] \/ term = js ";") /\
     blank ws /\
     (term = [] -> forall body' c, body = body' ++ [c] ->
                   c <> 59 /\ isWhiteSpace c = false) /\
     let limited :=
       body ++ js " LIMIT " ++ numberToString (maxRowsOf noOptions noSettings)
         ++ js ";" in
     let run :=
       executeWithTimeout (answering Postgres 12) limited
         (timeoutOf noOptions noSettings) in
     limitedSQL (js "SELECT ProductName FROM Products ORDER BY UnitPrice DESC")
       (maxRowsOf noOptions noSettings) = limited /\
     executeSQL (js "SELECT ProductName FROM Products ORDER BY UnitPrice DESC")
       (answering Postgres 12) noOptions noSettings =
       bind (fst run) (fun rows =>
         Ok (mkExecution rows (List.length rows) (snd run) true))) /\
  (let run :=
     executeWithTimeout (answering Postgres 12)
       (js "SELECT ProductName FROM Products LIMIT 5;")
       (timeoutOf noOptions noSettings) in
   limitedSQL (js "SELECT ProductName FROM Products LIMIT 5;")
     (maxRowsOf noOptions noSettings)
   = js "SELECT ProductName FROM Products LIMIT 5;" /\
   executeSQL (js "SELECT ProductName FROM Products LIMIT 5;")
     (answering Postgres 12) noOptions noSettings =
     bind (fst run) (fun rows =>
       Ok (mkExecution rows (List.length rows) (snd run) false))).
Proof.
  split.
  - apply (proj1 C3_limit_injection
             (js "SELECT ProductName FROM Products ORDER BY UnitPrice DESC")
             (answering Postgres 12) noOptions noSettings).
    + vm_compute. reflexivity.
    + intros H. apply hasLimitClause_test in H. vm_compute in H.
      discriminate.
  - apply (proj1 (proj2 C3_limit_injection)
             (js "SELECT ProductName FROM Products LIMIT 5;")
             (answering Postgres 12) noOptions noSettings).
    + vm_compute. reflexivity.
    + exists (js "SELECT ProductName FROM Products "), (js "LIMIT"),
        (js " "), 53, (js ";").
      unfold spacing, blank.
      repeat split; try reflexivity; try discriminate; repeat constructor.
Defined.

(** ** cleanSQL *)

Lemma lastUnit_None_nil pre : lastUnit None pre = None -> pre = [].
Proof.
  destruct pre as [|c pre] using List.rev_ind; [reflexivity|].
  rewrite lastUnit_snoc. discriminate.
Qed.

Lemma Matches_Bol_inv ic p s p' s' :
  Matches ic Bol p s p' s' -> p = None /\ p' = None /\ s' = s.
Proof. inversion 1; subst. repeat split. Qed.

Lemma Matches_Eol_inv ic p s p' s' :
  Matches ic Eol p s p' s' -> s = [] /\ s' = [] /\ p' = p.
Proof. inversion 1; subst. repeat split. Qed.

Lemma foldCase_backtick c : foldCase 96 = foldCase c -> c = 96.
Proof.
  unfold foldCase. simpl.
  destruct ((97 <=? c) && (c <=? 122)) eqn:E; [|congruence].
  apply andb_true_iff in E. destruct E as [E1 E2].
  apply N.leb_le in E1. apply N.leb_le in E2. lia.
Qed.

Lemma spells_fence_head kw' w :
  sameIgnoringCase (96 :: kw') w -> exists w', w = 96 :: w'.
Proof.
  unfold sameIgnoringCase. destruct w as [|c w]; [discriminate|].
  simpl. intros [= Hc _]. apply foldCase_backtick in Hc. subst c. eauto.
Qed.

Lemma spells_fence w : spells "```" w -> w = js "```".
Proof.
  unfold spells, sameIgnoringCase.
  destruct w as [|a [|b [|c [|? ?]]]]; try discriminate.
  simpl. intros [= Ha Hb Hc].
  apply foldCase_backtick in Ha, Hb, Hc. subst. reflexivity.
Qed.

(** An opening fence is found only in a text that starts with a
    backtick. *)
Lemma fence_open_needs_backtick kw' tail s :
  MatchesIn (mkRegExp (seqs (Bol :: lit_units (96 :: kw') :: tail)) true) s ->
  List.forallb (fun k => k <? 128) (96 :: kw') = true ->
  List.head s = Some 96.
Proof.
  intros (pre & m & post & p' & -> & HM) HA. cbn [source ignoreCase] in HM.
  apply Matches_seqs_inv in HM. destruct HM as (p1 & s1 & HB & HM).
  apply Matches_Bol_inv in HB. destruct HB as (Hp & -> & ->).
  apply lastUnit_None_nil in Hp. subst pre.
  apply Matches_seqs_inv in HM. destruct HM as (p2 & s2 & HL & _).
  apply Matches_lit_units_inv in HL; [|discriminate].
  destruct HL as (w & Hs & _ & HF).
  apply sameIgnoringCase_Forall2 in HF.
  - apply spells_fence_head in HF. destruct HF as (w' & ->).
    simpl. rewrite Hs. reflexivity.
  - apply List.Forall_forall. intros k Hin.
    rewrite List.forallb_forall in HA. apply N.ltb_lt. apply HA. exact Hin.
Qed.

(** A closing fence is found only in a text that ends with a backtick. *)
Lemma fence_close_needs_backtick s :
  MatchesIn re_fence_close s -> lastUnit None s = Some 96.
Proof.
  intros (pre & m & post & p' & -> & HM).
  unfold re_fence_close in HM. cbn [source ignoreCase] in HM.
  apply Matches_seqs_inv in HM. destruct HM as (p1 & s1 & HS & HM).
  apply Matches_star_class_inv in HS. destruct HS as (ws & Hs & -> & _).
  apply Matches_seqs_inv in HM. destruct HM as (p2 & s2 & HL & HM).
  apply (Matches_lit_inv "```") in HL; [|reflexivity|discriminate].
  destruct HL as (w & -> & -> & Hw). apply spells_fence in Hw. subst w.
  apply Matches_seqs_inv in HM. destruct HM as (p3 & s3 & HE & HM).
  apply Matches_Eol_inv in HE. destruct HE as (-> & -> & ->).
  rewrite Hs. rewrite !lastUnit_app. reflexivity.
Qed.

(** The quote pattern matches at a position only if the text starts
    with a quote (first branch) or ends with one (second branch). *)
Lemma quotes_match_needs_quote pre t p' rest :
  Matches false (source re_quotes) (lastUnit None pre) t p' rest ->
  (exists c, List.head (pre ++ t) = Some c /\ isQuote c = true) \/
  (exists c, lastUnit None (pre ++ t) = Some c /\ isQuote c = true).
Proof.
  unfold re_quotes. cbn [source]. intros HM.
  inversion HM as [| | | |? ? ? ? ? ? HL|? ? ? ? ? ? HR| | | | |]; subst.
  - left. inversion HL as [| | |? ? ? ? p1 s1 ? ? HB HP| | | | | | |]; subst.
    apply Matches_Bol_inv in HB. destruct HB as (Hp & -> & ->).
    apply lastUnit_None_nil in Hp. subst pre.
    apply Matches_plus_class_inv in HP.
    destruct HP as (m & Hne & -> & _ & HF).
    destruct m as [|c m]; [congruence|]. inversion HF; subst.
    exists c. split; [reflexivity | assumption].
  - right. inversion HR as [| | |? ? ? ? p1 s1 ? ? HP HE| | | | | | |]; subst.
    apply Matches_Eol_inv in HE. destruct HE as (-> & -> & ->).
    apply Matches_plus_class_inv in HP.
    destruct HP as (m & Hne & -> & _ & HF).
    rewrite List.app_nil_r.
    destruct m as [|c m] using List.rev_ind; [congruence|].
    exists c. rewrite List.app_assoc, lastUnit_snoc. split; [reflexivity|].
    apply List.Forall_app in HF. destruct HF as [_ HF].
    inversion HF; subst. assumption.
Qed.

Lemma replaceAll_no_match re repl s :
  search re None [] s = None -> replaceAll re repl s = s.
Proof. intros H. unfold replaceAll. simpl. rewrite H. reflexivity. Qed.

Lemma endsWith_snoc body c : endsWith [c] (body ++ [c]) = true.
Proof.
  unfold endsWith. rewrite List.rev_app_distr. simpl.
  rewrite N.eqb_refl. reflexivity.
Qed.

(** C9.  cleanSQL returns an already-clean statement (trimmed, ending
    with exactly one terminator, without code fence and without
    surrounding quotes) as it is; hence cleaning it twice is cleaning it
    once. *)
Theorem C9_cleanSQL_noop_on_clean (s : jsstring) :
  cleanStatement s ->
  cleanSQL s = s /\ cleanSQL (cleanSQL s) = cleanSQL s.
Proof.
  intros (Htrim & (body & Hs & Hone) & Hfence & Hhead & Hlast).
  assert (Hend : lastUnit None s = Some 59).
  { rewrite Hs. apply lastUnit_snoc. }
  assert (Hclean : cleanSQL s = s).
  { unfold cleanSQL. rewrite Htrim.
    rewrite (replace_no_match re_fence_sql).
    2:{ intros HM. apply (fence_open_needs_backtick [96; 96; 115; 113; 108]) in HM;
          [|reflexivity].
        apply Hhead in HM. discriminate. }
    rewrite (replace_no_match re_fence_open).
    2:{ intros HM. apply (fence_open_needs_backtick [96; 96]) in HM;
          [|reflexivity].
        apply Hhead in HM. discriminate. }
    rewrite (replace_no_match re_fence_close).
    2:{ intros HM. apply fence_close_needs_backtick in HM. congruence. }
    rewrite replaceAll_no_match.
    2:{ destruct (search re_quotes None [] s) as [[[b m] a]|] eqn:E;
          [|reflexivity].
        exfalso. apply search_found in E.
        destruct E as (pre & _ & Hsplit & Hm & _).
        apply matchHere_sound in Hm. destruct Hm as (p' & HM).
        apply quotes_match_needs_quote in HM. rewrite <- Hsplit in HM.
        destruct HM as [(c & Hc & Hq) | (c & Hc & Hq)].
        - apply Hhead in Hc. congruence.
        - apply Hlast in Hc. congruence. }
    assert (He : endsWith (js ";") s = true).
    { rewrite Hs. apply (endsWith_snoc body 59). }
    rewrite He. reflexivity. }
  split; [exact Hclean|]. rewrite Hclean. exact Hclean.
Qed.

Lemma C9_cleanSQL_noop_witness :
  cleanSQL (js "SELECT Name FROM Customers;")
    = js "SELECT Name FROM Customers;" /\
  cleanSQL (cleanSQL (js "SELECT Name FROM Customers;"))
    = cleanSQL (js "SELECT Name FROM Customers;").
Proof.
  apply (C9_cleanSQL_noop_on_clean (js "SELECT Name FROM Customers;")).
  split; [reflexivity|].
  split; [exists (js "SELECT Name FROM Customers"); split; reflexivity|].
  split.
  - intros a b E.
    assert (H : List.existsb (N.eqb 96) (js "SELECT Name FROM Customers;")
                = true).
    { rewrite E. rewrite List.existsb_app. simpl.
      rewrite orb_true_r. reflexivity. }
    vm_compute in H. discriminate.
  - split; intros c [= <-]; reflexivity.
Defined.

(** ** Commentary in front of the statement *)

(** C1, at the input of the scenario.  cleanSQL keeps the remark in front
    of the statement, and validateSQL then throws; cleanSQLResponse of
    ai/openrouter, which looks for the first SELECT or WITH, yields the
    statement alone, which validateSQL accepts. *)
Theorem C1_commentary_not_discarded :
  cleanSQL chattyResponse = js "Sure! SELECT TOP 5 * FROM Products;" /\
  validateSQL (cleanSQL chattyResponse)
    = Throw (js "Only SELECT queries are allowed") /\
  cleanSQLResponse chattyResponse = js "SELECT TOP 5 * FROM Products;" /\
  validateSQL (cleanSQLResponse chattyResponse) = Ok true.
Proof. repeat split; vm_compute; reflexivity. Qed.

(** ** The execution deadline *)

Lemma timerDelay_bounds timeout :
  (1 <= timerDelay timeout <= 2147483647)%Z.
Proof.
  unfold timerDelay.
  destruct (Z.ltb_spec timeout 1), (Z.ltb_spec 2147483647 timeout);
    cbn [orb]; lia.
Qed.

Lemma timerDelay_in_range timeout :
  (1 <= timeout <= 2147483647)%Z -> timerDelay timeout = timeout.
Proof.
  intros H. unfold timerDelay.
  destruct (Z.ltb_spec timeout 1), (Z.ltb_spec 2147483647 timeout);
    cbn [orb]; lia.
Qed.

(** With the pools of mysql2 and pg, a statement that runs longer than
    the timeout ends in the timer's error, after [timeout] milliseconds
    and without rows. *)
Lemma pool_times_out db sql timeout :
  dbType db <> SQLite -> (1 <= timeout <= 2147483647)%Z ->
  (timeout < duration (asyncAll db sql))%Z ->
  executeWithTimeout db sql timeout =
    (Throw (js "Query timed out after " ++ numberToString timeout ++ js "ms"),
     timeout).
Proof.
  intros Hd H1 Hlt.
  unfold executeWithTimeout, asyncAllPromise, race, timerPromise.
  rewrite (timerDelay_in_range timeout H1).
  destruct (dbType db); [congruence| |]; cbn [settledAt settledWith];
    (replace (timeout <? duration (asyncAll db sql))%Z with true
       by (symmetry; apply Z.ltb_lt; exact Hlt)); reflexivity.
Qed.

(** With the SQLite connection the statement has run to its end before
    the timer is started: its outcome is delivered whatever its
    duration. *)
Lemma sqlite_blocks db sql timeout :
  dbType db = SQLite ->
  executeWithTimeout db sql timeout =
    (outcome (asyncAll db sql), duration (asyncAll db sql)).
Proof.
  intros Hd. unfold executeWithTimeout, asyncAllPromise, race, timerPromise.
  rewrite Hd. cbn [settledAt settledWith].
  pose proof (timerDelay_bounds timeout).
  replace (timerDelay timeout <? 0)%Z with false
    by (symmetry; apply Z.ltb_ge; lia).
  cbn [settledAt settledWith]. rewrite Z.add_0_r. reflexivity.
Qed.

(** C7, at a statement that runs for 45 seconds under the default
    timeout of 30 seconds.  On a PostgreSQL pool executeSQL throws the
    timeout error, whose message differs from that of a statement the
    database rejects; on the SQLite connection it returns the rows, with
    the 45 seconds as execution time. *)
Theorem C7_sqlite_deadline_ignored :
  executeSQL (js "SELECT * FROM Orders;") (answering Postgres 45000)
    noOptions noSettings
    = Throw (js "Query timed out after 30000ms") /\
  executeSQL (js "SELECT * FROM Orders;") (failing Postgres 12)
    noOptions noSettings
    = Throw (js "no such column: x") /\
  executeSQL (js "SELECT * FROM Orders;") (answering SQLite 45000)
    noOptions noSettings
    = Ok (mkExecution [oneRow] 1 45000 true).
Proof. repeat split; vm_compute; reflexivity. Qed.

(** ** Recording in the history *)

Lemma queryFromQuestion_returning {H : Type}
  (rec : QueryHistory.entry -> H -> result H) question db o env w h :
  (forall e h0, exists h1, rec e h0 = Ok h1) ->
  fst (queryFromQuestion rec question db o env w h)
    = primary question db o env w.
Proof.
  intros Hrec. unfold queryFromQuestion, primary.
  destruct (generateSQL w) as [g|m] eqn:Eg; simpl.
  - destruct (executeSQL (g_sql g) db o env) as [e|m] eqn:Ee; simpl.
    + destruct (Hrec (successEntry question o w g e) h) as (h1 & ->).
      reflexivity.
    + destruct (Hrec (failureEntry question o w m) h) as (h1 & ->).
      reflexivity.
  - destruct (Hrec (failureEntry question o w m) h) as (h1 & ->).
    reflexivity.
Qed.



(** ** The schema cache *)

Section CacheFacts.
Context {V : Type}.
Implicit Types (c : lru V) (e : lru_entry V).

Lemma has_key_true k e : has_key k e = true <-> key e = k.
Proof. unfold has_key. apply bool_decide_eq_true. Qed.

Lemma lookup_entry_cons_same k e c :
  key e = k -> lookup_entry k (e :: c) = Some e.
Proof.
  intros Hk. unfold lookup_entry. simpl.
  rewrite (proj2 (has_key_true k e) Hk). reflexivity.
Qed.

(** After [set], the key is found with the value set, its age counted
    from the time of the call. *)
Lemma lru_set_lookup o k (v : V) now c :
  (1 <= max o)%Z -> ttl o <> 0%Z ->
  lookup_entry k (lru_set o k v None now c)
    = Some (mkEntry k v now (ttl o)).
Proof.
  intros Hmax Httl. unfold lru_set. simpl.
  replace (ttl o =? 0)%Z with false by (symmetry; apply Z.eqb_neq; exact Httl).
  destruct (remove_key k c) as [|x rest] eqn:E.
  - simpl. destruct (Z.ltb_spec (max o) (Z.of_nat 1)) as [Hlt|_];
      [simpl in Hlt; lia|].
    apply lookup_entry_cons_same. reflexivity.
  - destruct (max o <? _)%Z.
    + unfold lookup_entry.
      change (List.removelast (mkEntry k v now (ttl o) :: x :: rest))
        with (mkEntry k v now (ttl o) :: List.removelast (x :: rest)).
      simpl. unfold has_key. simpl.
      rewrite bool_decide_eq_true_2 by reflexivity. reflexivity.
    + apply lookup_entry_cons_same. reflexivity.
Qed.

(** A read within the time-to-live of the last access: the value is
    returned, the entry becomes the most recently used, and its age is
    counted from the time of the read. *)
Lemma lru_get_live o k (v : V) t0 t1 c :
  updateAgeOnGet o = true -> ttl o <> 0%Z ->
  lookup_entry k c = Some (mkEntry k v t0 (ttl o)) ->
  (t1 - t0 <= ttl o)%Z ->
  lru_get o k t1 c
    = (Some v, mkEntry k v t1 (ttl o) :: remove_key k c).
Proof.
  intros Hup Httl Hl Hage. unfold lru_get. rewrite Hl.
  unfold isStale. simpl.
  replace (ttl o <? t1 - t0)%Z with false
    by (symmetry; apply Z.ltb_ge; exact Hage).
  rewrite andb_false_r, Hup. unfold updateItemAge. simpl.
  replace (ttl o =? 0)%Z with false by (symmetry; apply Z.eqb_neq; exact Httl).
  reflexivity.
Qed.

(** A read later than the time-to-live after the last access: absent. *)
Lemma lru_get_stale o k (v : V) t0 t1 c :
  ttl o <> 0%Z -> t0 <> 0%Z ->
  lookup_entry k c = Some (mkEntry k v t0 (ttl o)) ->
  (ttl o < t1 - t0)%Z ->
  fst (lru_get o k t1 c) = None.
Proof.
  intros Httl Ht0 Hl Hage. unfold lru_get. rewrite Hl.
  unfold isStale. simpl.
  replace (ttl o =? 0)%Z with false by (symmetry; apply Z.eqb_neq; exact Httl).
  replace (t0 =? 0)%Z with false by (symmetry; apply Z.eqb_neq; exact Ht0).
  replace (ttl o <? t1 - t0)%Z with true
    by (symmetry; apply Z.ltb_lt; exact Hage).
  reflexivity.
Qed.

End CacheFacts.

Lemma cache_options_ttl env : ttl (cache_options env) <> 0%Z.
Proof.
  unfold cache_options, num_or. simpl.
  destruct (SCHEMA_CACHE_TTL_MS env) as [z|]; [|discriminate].
  destruct (Z.eqb_spec z 0); [discriminate | assumption].
Qed.

Lemma last_default {A : Type} (l : list A) a b :
  l <> [] -> List.last l a = List.last l b.
Proof.
  induction l as [|x l IH]; [congruence|]. intros _.
  destruct l as [|y l]; [reflexivity|].
  change (List.last (y :: l) a = List.last (y :: l) b).
  apply IH. discriminate.
Qed.

(** Repeated reads, each within the time-to-live of the access before
    it, all return the schema and leave the entry in front, its age
    counted from the last read. *)
Lemma readAt_alive {schema : Type} env k (s : schema) :
  forall times t0 c,
    (0 < t0)%Z ->
    lookup_entry k c = Some (mkEntry k s t0 (ttl (cache_options env))) ->
    eachWithin (ttl (cache_options env)) t0 times ->
    List.Forall (fun v => v = Some s) (fst (readAt env k times c)) /\
    lookup_entry k (snd (readAt env k times c))
      = Some (mkEntry k s (lastAccess t0 times) (ttl (cache_options env))) /\
    (0 < lastAccess t0 times)%Z /\
    (times <> [] ->
     List.head (snd (readAt env k times c))
       = Some (mkEntry k s (lastAccess t0 times) (ttl (cache_options env)))).
Proof.
  induction times as [|t1 ts IH]; intros t0 c Hpos Hl Hw.
  - simpl. repeat split; [constructor | exact Hl | exact Hpos | congruence].
  - destruct Hw as [[Hle Hgap] Hw].
    simpl readAt. unfold getSchemaFromCache.
    rewrite (lru_get_live (cache_options env) k s t0 t1 c eq_refl
               (cache_options_ttl env) Hl Hgap).
    set (c1 := mkEntry k s t1 (ttl (cache_options env)) :: remove_key k c).
    assert (Hl1 : lookup_entry k c1
                  = Some (mkEntry k s t1 (ttl (cache_options env)))).
    { apply lookup_entry_cons_same. reflexivity. }
    destruct (IH t1 c1 ltac:(lia) Hl1 Hw) as (Hall & Hlook & Hlast & Hhead).
    assert (Hla : lastAccess t0 (t1 :: ts) = lastAccess t1 ts).
    { unfold lastAccess. destruct ts as [|z ts]; [reflexivity|].
      apply (last_default (z :: ts)). discriminate. }
    rewrite Hla.
    destruct (readAt env k ts c1) as [vs c2] eqn:E. cbn [fst snd] in *.
    repeat split; try assumption.
    + constructor; [reflexivity | exact Hall].
    + intros _. destruct ts as [|t2 ts'].
      * simpl in E. injection E as <- <-. reflexivity.
      * apply Hhead. discriminate.
Qed.

Lemma get_moves_to_front {schema : Type} env k now (c : lru schema) e :
  lookup_entry k c = Some e -> isStale e now = false ->
  getSchemaFromCache env k now c
    = (Some (value e), updateItemAge e now :: remove_key k c).
Proof.
  intros Hl Hlive. unfold getSchemaFromCache, lru_get.
  rewrite Hl, Hlive. reflexivity.
Qed.

Lemma read_entry_survives_set {schema : Type} env k k' (s' : schema)
  ttl_opt t1 t2 (c : lru schema) e :
  (2 <= max (cache_options env))%Z ->
  lookup_entry k c = Some e -> isStale e t1 = false -> k' <> k ->
  lookup_entry k
    (setSchemaInCache env k' s' ttl_opt t2
       (snd (getSchemaFromCache env k t1 c)))
  = Some (updateItemAge e t1).
Proof.
  intros Hmax Hl Hlive Hne.
  assert (Hk : key e = k).
  { unfold lookup_entry in Hl. apply List.find_some in Hl.
    destruct Hl as [_ Hl]. unfold has_key in Hl.
    apply bool_decide_eq_true in Hl. exact Hl. }
  rewrite (get_moves_to_front env k t1 c e Hl Hlive). cbn [snd].
  unfold setSchemaInCache, lru_set.
  set (enew := mkEntry k' s' _ _).
  assert (Hrm : remove_key k' (updateItemAge e t1 :: remove_key k c)
                = updateItemAge e t1 :: remove_key k' (remove_key k c)).
  { unfold remove_key at 1. cbn [List.filter]. unfold has_key at 1.
    cbn [updateItemAge key].
    rewrite bool_decide_eq_false_2 by congruence. reflexivity. }
  rewrite Hrm.
  assert (Hfound : forall rest,
             lookup_entry k (enew :: updateItemAge e t1 :: rest)
             = Some (updateItemAge e t1)).
  { intros rest. unfold lookup_entry. cbn [List.find]. unfold has_key.
    subst enew. cbn [updateItemAge key].
    rewrite bool_decide_eq_false_2 by congruence.
    rewrite bool_decide_eq_true_2 by exact Hk. reflexivity. }
  destruct (Z.ltb_spec (max (cache_options env))
              (Z.of_nat (List.length
                 (enew :: updateItemAge e t1
                    :: remove_key k' (remove_key k c))))) as [Hover|_];
    [|apply Hfound].
  destruct (remove_key k' (remove_key k c)) as [|y rest].
  - cbn [List.length] in Hover. lia.
  - assert (Hr : forall (x1 x2 x3 : lru_entry schema) l,
               List.removelast (x1 :: x2 :: x3 :: l)
               = x1 :: x2 :: List.removelast (x3 :: l)) by reflexivity.
    rewrite Hr. apply Hfound.
Qed.

(** C4 (as amended).  A get of a live entry refreshes its recency: the
    entry, wherever it stood in the cache, becomes the first, the most
    recently used one, the other entries keeping their order, so that
    the next set of another key, in a cache however full, evicts
    another entry and not the one just read.  The get also restarts the
    time-to-live (the cache is built with updateAgeOnGet): an entry set
    at [t0] and then read repeatedly, each read within the time-to-live
    of the access before it, is returned by every one of these reads; a
    later get returns the schema when it comes within the time-to-live
    of the last read and behaves as absent when it comes later than
    that. *)
Theorem C4_get_refreshes_recency_and_age {schema : Type}
  env k (s : schema) t0 times t c :
  (1 <= max (cache_options env))%Z -> (0 < t0)%Z ->
  eachWithin (ttl (cache_options env)) t0 times ->
  let c0 := setSchemaInCache env k s None t0 c in
  let answers := fst (readAt env k times c0) in
  let c1 := snd (readAt env k times c0) in
  List.Forall (fun v => v = Some s) answers /\
  (times <> [] -> key <$> List.head c1 = Some k) /\
  ((t - lastAccess t0 times <= ttl (cache_options env))%Z ->
   fst (getSchemaFromCache env k t c1) = Some s) /\
  ((ttl (cache_options env) < t - lastAccess t0 times)%Z ->
   fst (getSchemaFromCache env k t c1) = None) /\
  (forall (c' : lru schema) e t1,
     lookup_entry k c' = Some e -> isStale e t1 = false ->
     getSchemaFromCache env k t1 c'
       = (Some (value e), updateItemAge e t1 :: remove_key k c')) /\
  (forall (c' : lru schema) e t1 k' s' t2,
     (2 <= max (cache_options env))%Z ->
     lookup_entry k c' = Some e -> isStale e t1 = false -> k' <> k ->
     lookup_entry k
       (setSchemaInCache env k' s' None t2
          (snd (getSchemaFromCache env k t1 c')))
     = Some (updateItemAge e t1)).
Proof.
  intros Hmax Hpos Hw c0 answers c1.
  assert (Hl0 : lookup_entry k c0
                = Some (mkEntry k s t0 (ttl (cache_options env)))).
  { apply lru_set_lookup; [exact Hmax | apply cache_options_ttl]. }
  destruct (readAt_alive env k s times t0 c0 Hpos Hl0 Hw)
    as (Hall & Hlook & Hlast & Hhead).
  split; [exact Hall|]. split; [|split; [|split; [|split]]].
  - intros Hne. unfold c1. rewrite (Hhead Hne). reflexivity.
  - intros Hage. unfold getSchemaFromCache, c1.
    rewrite (lru_get_live (cache_options env) k s _ t _ eq_refl
               (cache_options_ttl env) Hlook Hage).
    reflexivity.
  - intros Hage. unfold getSchemaFromCache, c1.
    apply (lru_get_stale (cache_options env) k s (lastAccess t0 times) t);
      [apply cache_options_ttl | lia | exact Hlook | exact Hage].
  - intros c' e t1. apply get_moves_to_front.
  - intros c' e t1 k' s' t2. apply read_entry_survives_set.
Qed.

Lemma C4_get_refreshes_witness :
  let c0 :=
    setSchemaInCache smallCacheSettings northwindKey northwindSchema None
      1000 [] in
  let answers :=
    fst (readAt smallCacheSettings northwindKey [200000; 450000]%Z c0) in
  let c1 :=
    snd (readAt smallCacheSettings northwindKey [200000; 450000]%Z c0) in
  let others :=
    [mkEntry (js "mysql:shop") [js "Orders"] 2000%Z 300000%Z;
     mkEntry northwindKey northwindSchema 1000%Z 300000%Z] in
  List.Forall (fun v => v = Some northwindSchema) answers /\
  key <$> List.head c1 = Some northwindKey /\
  fst (getSchemaFromCache smallCacheSettings northwindKey 700000 c1)
    = Some northwindSchema /\
  fst (getSchemaFromCache smallCacheSettings northwindKey 800000 c1) = None /\
  getSchemaFromCache smallCacheSettings northwindKey 3000 others
    = (Some northwindSchema,
       [mkEntry northwindKey northwindSchema 3000%Z 300000%Z;
        mkEntry (js "mysql:shop") [js "Orders"] 2000%Z 300000%Z]) /\
  lookup_entry northwindKey
    (setSchemaInCache smallCacheSettings (js "postgres:crm") [js "Leads"]
       None 4000
       (snd (getSchemaFromCache smallCacheSettings northwindKey 3000
               others)))
  = Some (mkEntry northwindKey northwindSchema 3000%Z 300000%Z).
Proof.
  assert (Hmax : (1 <= max (cache_options smallCacheSettings))%Z)
    by (vm_compute; discriminate).
  assert (Hw : eachWithin (ttl (cache_options smallCacheSettings)) 1000
                 [200000; 450000]%Z) by (simpl; lia).
  destruct (C4_get_refreshes_recency_and_age smallCacheSettings northwindKey
              northwindSchema 1000 [200000; 450000]%Z 700000 []
              Hmax ltac:(lia) Hw) as (Hall & Hhead & Hlive & _ & Hfront & Hkeep).
  destruct (C4_get_refreshes_recency_and_age smallCacheSettings northwindKey
              northwindSchema 1000 [200000; 450000]%Z 800000 []
              Hmax ltac:(lia) Hw) as (_ & _ & _ & Hstale & _).
  cbv zeta. split; [exact Hall|].
  split; [apply Hhead; discriminate|].
  split; [apply Hlive; vm_compute; discriminate|].
  split; [apply Hstale; vm_compute; reflexivity|].
  split.
  - etransitivity;
      [apply (Hfront _
                (mkEntry northwindKey northwindSchema 1000%Z 300000%Z));
       reflexivity
      | vm_compute; reflexivity].
  - etransitivity;
      [apply (Hkeep _ (mkEntry northwindKey northwindSchema 1000%Z 300000%Z)
                3000%Z (js "postgres:crm") [js "Leads"] 4000%Z);
       [vm_compute; discriminate | reflexivity | reflexivity
       | vm_compute; discriminate]
      | reflexivity].
Defined.


(** C4, as the specification words it, does not hold.  With the default
    time-to-live of 300000 ms, an entry set at 1000 and read at 200000
    and at 450000 is still returned at 700000, long after 1000 + 300000. *)
Lemma C4_read_entry_outlives_ttl :
  let c0 :=
    setSchemaInCache noCacheSettings northwindKey northwindSchema None 1000
      [] in
  let c1 := snd (readAt noCacheSettings northwindKey [200000; 450000]%Z c0) in
  (1000 + ttl (cache_options noCacheSettings) < 700000)%Z /\
  fst (getSchemaFromCache noCacheSettings northwindKey 700000 c1)
    = Some northwindSchema.
Proof. split; vm_compute; reflexivity. Qed.

(** ** The in-memory history *)

Import QueryHistory.

Lemma newItem_id e now h :
  e !! "id" = None ->
  newItem e now h !! "id" = Some (JNum (Z.of_nat (List.length h) + 1)).
Proof.
  intros He. unfold newItem.
  rewrite lookup_insert_ne by discriminate.
  rewrite lookup_union_r by exact He.
  apply lookup_singleton_eq.
Qed.

Lemma removelast_cons {A : Type} (x y : A) l :
  List.removelast (x :: y :: l) = x :: List.removelast (y :: l).
Proof. reflexivity. Qed.

Lemma length_removelast_cons {A : Type} (x : A) l :
  List.length (List.removelast (x :: l)) = List.length l.
Proof.
  revert x. induction l as [|y l IH]; intros x; [reflexivity|].
  rewrite removelast_cons. cbn [List.length]. f_equal. apply IH.
Qed.

(** A full store stays full, the new item in front. *)
Lemma addToHistory_full e now h :
  List.length h = MAX_HISTORY_SIZE ->
  addToHistory e now h = newItem e now h :: List.removelast h /\
  List.length (addToHistory e now h) = MAX_HISTORY_SIZE.
Proof.
  intros Hlen. unfold addToHistory.
  change (List.length (newItem e now h :: h)) with (S (List.length h)).
  rewrite Hlen.
  replace (Nat.ltb MAX_HISTORY_SIZE (S MAX_HISTORY_SIZE)) with true
    by (symmetry; apply Nat.ltb_lt; lia).
  destruct h as [|x h]; [discriminate Hlen|].
  rewrite removelast_cons. split; [reflexivity|].
  cbn [List.length]. rewrite length_removelast_cons.
  cbn [List.length] in Hlen. lia.
Qed.

Lemma addToHistory_head e now h :
  List.head (addToHistory e now h) = Some (newItem e now h).
Proof.
  unfold addToHistory. destruct h as [|x h].
  - replace (Nat.ltb MAX_HISTORY_SIZE (List.length [newItem e now []]))
      with false by (vm_compute; reflexivity).
    reflexivity.
  - destruct (Nat.ltb _ _); reflexivity.
Qed.

Lemma addAll_snoc es e now h :
  addAll (es ++ [e]) now h = addToHistory e now (addAll es now h).
Proof.
  revert h. induction es as [|x es IH]; intros h; [reflexivity|].
  simpl. apply IH.
Qed.

Lemma lookup_removelast {A : Type} (l : list A) i :
  (S i < List.length l)%nat -> List.removelast l !! i = l !! i.
Proof.
  revert i. induction l as [|x l IH]; intros i Hi; [simpl in Hi; lia|].
  destruct l as [|y l]; [simpl in Hi; lia|].
  rewrite removelast_cons. destruct i as [|i]; [reflexivity|].
  simpl. apply IH. simpl in Hi |- *. lia.
Qed.

(** Once the store is full, it stays full and everything added since
    bears the number 1001. *)
Lemma addAll_full now h : forall es,
  List.length h = MAX_HISTORY_SIZE ->
  List.Forall (fun x : entry => x !! "id" = None) es ->
  List.length (addAll es now h) = MAX_HISTORY_SIZE /\
  forall i, (i < List.length es)%nat -> (i < MAX_HISTORY_SIZE)%nat ->
    exists x, addAll es now h !! i = Some x /\
              x !! "id" = Some (JNum 1001).
Proof.
  intros es Hlen. induction es as [|e es IH] using List.rev_ind; intros Hno.
  - split; [exact Hlen|]. intros i Hi. simpl in Hi. lia.
  - apply List.Forall_app in Hno. destruct Hno as [Hes He].
    inversion He as [|? ? Hid _]; subst.
    destruct (IH Hes) as (Hfull & Hids).
    rewrite addAll_snoc.
    destruct (addToHistory_full e now _ Hfull) as (Hadd & Hlen').
    split; [exact Hlen'|].
    intros i Hi Hmax. rewrite Hadd. destruct i as [|i].
    + exists (newItem e now (addAll es now h)). split; [reflexivity|].
      rewrite (newItem_id _ _ _ Hid), Hfull. reflexivity.
    + rewrite List.length_app in Hi. simpl in Hi.
      destruct (Hids i ltac:(lia) ltac:(lia)) as (x & Hx & Hxid).
      exists x. split; [|exact Hxid].
      simpl. rewrite lookup_removelast by (rewrite Hfull; lia). exact Hx.
Qed.

Lemma getHistoryById_head id item h :
  item !! "id" = Some (JNum id) -> getHistoryById id (item :: h) = Some item.
Proof.
  intros H. unfold getHistoryById. simpl.
  rewrite bool_decide_eq_true_2 by exact H. reflexivity.
Qed.

(** C10.  addToHistory gives a new entry (one that brings no id of its
    own) the number: size of the store before the insertion, plus one.
    Hence once the store holds its maximum of 1000 entries, every entry
    added afterwards receives 1001: the numbers are no longer unique,
    and getHistoryById 1001 returns the entry inserted last. *)
Theorem C10_history_ids_repeat_once_full :
  (forall e now h,
     e !! "id" = None ->
     newItem e now h !! "id" = Some (JNum (Z.of_nat (List.length h) + 1)) /\
     List.head (addToHistory e now h) = Some (newItem e now h)) /\
  (forall es e now h,
     List.length h = MAX_HISTORY_SIZE ->
     List.Forall (fun x : entry => x !! "id" = None) (es ++ [e]) ->
     let h' := addAll (es ++ [e]) now h in
     let item := newItem e now (addAll es now h) in
     List.length h' = MAX_HISTORY_SIZE /\
     (forall i, (i < List.length (es ++ [e]))%nat ->
                (i < MAX_HISTORY_SIZE)%nat ->
        exists x, h' !! i = Some x /\ x !! "id" = Some (JNum 1001)) /\
     List.head h' = Some item /\
     getHistoryById 1001 h' = Some item).
Proof.
  split.
  - intros e now h He. split; [apply newItem_id; exact He|].
    apply addToHistory_head.
  - intros es e now h Hlen Hno h' item.
    destruct (addAll_full now h (es ++ [e]) Hlen Hno) as (Hfull & Hids).
    split; [exact Hfull|]. split; [exact Hids|].
    apply List.Forall_app in Hno. destruct Hno as [Hes He].
    inversion He as [|? ? Hid _]; subst.
    destruct (addAll_full now h es Hlen Hes) as (Hfull0 & _).
    unfold h'. rewrite addAll_snoc.
    destruct (addToHistory_full e now _ Hfull0) as (Hadd & _).
    rewrite Hadd. split; [reflexivity|].
    apply getHistoryById_head. unfold item.
    rewrite (newItem_id _ _ _ Hid), Hfull0. reflexivity.
Qed.

Lemma C10_history_ids_witness :
  (newItem firstQuestion (js "2024-01-01T00:00:00.000Z") [] !! "id"
     = Some (JNum (Z.of_nat (List.length (@nil entry)) + 1)) /\
   List.head (addToHistory firstQuestion (js "2024-01-01T00:00:00.000Z") [])
     = Some (newItem firstQuestion (js "2024-01-01T00:00:00.000Z") [])) /\
  (let now := js "2024-01-01T00:00:00.000Z" in
   let h' := addAll ([firstQuestion] ++ [secondQuestion]) now fullStore in
   let item := newItem secondQuestion now (addAll [firstQuestion] now fullStore) in
   List.length h' = MAX_HISTORY_SIZE /\
   (forall i, (i < List.length ([firstQuestion] ++ [secondQuestion]))%nat ->
              (i < MAX_HISTORY_SIZE)%nat ->
      exists x, h' !! i = Some x /\ x !! "id" = Some (JNum 1001)) /\
   List.head h' = Some item /\
   getHistoryById 1001 h' = Some item).
Proof.
  split.
  - apply (proj1 C10_history_ids_repeat_once_full firstQuestion
             (js "2024-01-01T00:00:00.000Z") []).
    reflexivity.
  - apply (proj2 C10_history_ids_repeat_once_full [firstQuestion]
             secondQuestion (js "2024-01-01T00:00:00.000Z") fullStore).
    + apply List.repeat_length.
    + repeat constructor.
Defined.

(* ===================================================================== *)
(** * Further properties of the code *)
(* ===================================================================== *)

Import HistoryQueries.

(** ** The in-memory history: size and numbering *)

Lemma removelast_firstn_pred {A : Type} (l : list A) :
  List.removelast l = List.firstn (List.length l - 1) l.
Proof.
  induction l as [|x l IH]; [reflexivity|].
  destruct l as [|y l]; [reflexivity|].
  rewrite removelast_cons, IH. cbn [List.length].
  replace (S (S (List.length l)) - 1)%nat with (S (S (List.length l) - 1))
    by lia.
  reflexivity.
Qed.

Lemma addToHistory_below e now h :
  (List.length h < MAX_HISTORY_SIZE)%nat ->
  addToHistory e now h = newItem e now h :: h.
Proof.
  intros H. unfold addToHistory.
  change (List.length (newItem e now h :: h)) with (S (List.length h)).
  replace (Nat.ltb MAX_HISTORY_SIZE (S (List.length h))) with false
    by (symmetry; apply Nat.ltb_ge; lia).
  reflexivity.
Qed.

(** X1.  A store within its bound stays within it: addToHistory puts the
    new item in front and keeps the 999 most recent of the older entries,
    in their order; only the oldest entry of a full store is dropped. *)
Theorem X_history_keeps_most_recent (e : entry) now (h : list entry) :
  (List.length h <= MAX_HISTORY_SIZE)%nat ->
  addToHistory e now h
    = newItem e now h :: List.firstn (MAX_HISTORY_SIZE - 1) h /\
  (List.length (addToHistory e now h) <= MAX_HISTORY_SIZE)%nat /\
  ((List.length h < MAX_HISTORY_SIZE)%nat ->
   addToHistory e now h = newItem e now h :: h).
Proof.
  intros Hlen.
  pose proof (addToHistory_below e now h) as Hlt.
  assert (Heq : addToHistory e now h
                = newItem e now h :: List.firstn (MAX_HISTORY_SIZE - 1) h).
  { destruct (Nat.eq_dec (List.length h) MAX_HISTORY_SIZE) as [Hfull|Hne].
    - destruct (addToHistory_full e now h Hfull) as [-> _].
      rewrite removelast_firstn_pred, Hfull. reflexivity.
    - rewrite Hlt by lia. rewrite List.firstn_all2 by lia. reflexivity. }
  split; [exact Heq|]. split; [|exact Hlt].
  rewrite Heq. cbn [List.length]. rewrite List.length_firstn.
  unfold MAX_HISTORY_SIZE in *. lia.
Qed.

Lemma X_history_keeps_most_recent_witness :
  addToHistory firstQuestion (js "now") fullStore
    = newItem firstQuestion (js "now") fullStore
        :: List.firstn (MAX_HISTORY_SIZE - 1) fullStore /\
  (List.length (addToHistory firstQuestion (js "now") fullStore)
     <= MAX_HISTORY_SIZE)%nat /\
  ((List.length fullStore < MAX_HISTORY_SIZE)%nat ->
   addToHistory firstQuestion (js "now") fullStore
     = newItem firstQuestion (js "now") fullStore :: fullStore).
Proof.
  apply (X_history_keeps_most_recent firstQuestion (js "now") fullStore).
  unfold fullStore. rewrite List.repeat_length. lia.
Defined.

Lemma getHistoryById_skip id item h :
  item !! "id" <> Some (JNum id) ->
  getHistoryById id (item :: h) = getHistoryById id h.
Proof.
  intros H. unfold getHistoryById. simpl.
  rewrite bool_decide_eq_false_2 by exact H. reflexivity.
Qed.

(** Entries added to an empty store, fewer than its bound: the store
    holds them all and their numbers are at most their count. *)
Lemma addAll_from_empty now : forall es,
  withoutIds es -> (List.length es <= MAX_HISTORY_SIZE)%nat ->
  List.length (addAll es now []) = List.length es /\
  (forall id, (id <= 0 \/ Z.of_nat (List.length es) < id)%Z ->
     getHistoryById id (addAll es now []) = None) /\
  (forall k e, es !! k = Some e ->
     getHistoryById (Z.of_nat k + 1) (addAll es now [])
       = Some (newItem e now (addAll (List.firstn k es) now []))).
Proof.
  induction es as [|e es IH] using List.rev_ind; intros Hno Hlen.
  - split; [reflexivity|]. split; [reflexivity|]. intros k e Hk.
    rewrite lookup_nil in Hk. discriminate.
  - apply List.Forall_app in Hno. destruct Hno as [Hes He].
    inversion He as [|? ? Hid _]; subst.
    rewrite List.length_app in Hlen. simpl in Hlen.
    destruct (IH Hes ltac:(lia)) as (Hl & Hnone & Hsome).
    rewrite addAll_snoc.
    rewrite addToHistory_below by lia.
    pose proof (newItem_id e now (addAll es now []) Hid) as Hnew.
    rewrite Hl in Hnew.
    split; [cbn [List.length]; rewrite Hl, List.length_app; simpl; lia|].
    split.
    + intros id Hout. rewrite List.length_app in Hout. simpl in Hout.
      rewrite getHistoryById_skip.
      * apply Hnone. lia.
      * rewrite Hnew. intros [= E]. lia.
    + intros k x Hk.
      destruct (Nat.lt_ge_cases k (List.length es)) as [Hlt|Hge].
      * rewrite lookup_app_l in Hk by exact Hlt.
        rewrite getHistoryById_skip by (rewrite Hnew; intros [= E]; lia).
        rewrite List.firstn_app.
        replace (k - List.length es)%nat with 0%nat by lia.
        simpl. rewrite List.app_nil_r. apply Hsome. exact Hk.
      * assert (k = List.length es) as ->.
        { apply lookup_lt_Some in Hk. rewrite List.length_app in Hk.
          simpl in Hk. lia. }
        rewrite list_lookup_middle in Hk by reflexivity.
        injection Hk as <-.
        rewrite List.firstn_app, List.firstn_all, Nat.sub_diag. simpl.
        rewrite List.app_nil_r.
        apply getHistoryById_head. rewrite Hnew. reflexivity.
Qed.

(** X2.  Numbers and lookups agree while the store has never been full:
    after adding to an empty store at most 1000 entries that bring no id
    of their own, getHistoryById (k) returns the k-th entry added (k
    counted from 1), and returns nothing for any other number. *)
Theorem X_history_lookup_by_number now (es : list entry) :
  withoutIds es -> (List.length es <= MAX_HISTORY_SIZE)%nat ->
  (forall k e, es !! k = Some e ->
     exists item,
       getHistoryById (Z.of_nat k + 1) (addAll es now []) = Some item /\
       item = newItem e now (addAll (List.firstn k es) now []) /\
       item !! "id" = Some (JNum (Z.of_nat k + 1))) /\
  (forall id, (id <= 0 \/ Z.of_nat (List.length es) < id)%Z ->
     getHistoryById id (addAll es now []) = None).
Proof.
  intros Hno Hlen.
  destruct (addAll_from_empty now es Hno Hlen) as (_ & Hnone & Hsome).
  split; [|exact Hnone].
  intros k e Hk. eexists. split; [apply Hsome; exact Hk|].
  split; [reflexivity|].
  assert (He : e !! "id" = None).
  { unfold withoutIds in Hno. rewrite List.Forall_forall in Hno.
    apply Hno. apply list_elem_of_In. eapply list_elem_of_lookup_2. exact Hk. }
  rewrite (newItem_id _ _ _ He).
  assert (Hk' : (k < List.length es)%nat) by (eapply lookup_lt_Some; eauto).
  assert (Hpre : withoutIds (List.firstn k es)).
  { unfold withoutIds in *. apply Forall_take. exact Hno. }
  destruct (addAll_from_empty now (List.firstn k es) Hpre) as (Hl & _ & _).
  { rewrite List.length_firstn. lia. }
  rewrite Hl, List.length_firstn.
  replace (Nat.min k (List.length es)) with k by lia. reflexivity.
Qed.

Lemma X_history_lookup_by_number_witness :
  (forall k e, [firstQuestion; secondQuestion] !! k = Some e ->
     exists item,
       getHistoryById (Z.of_nat k + 1)
         (addAll [firstQuestion; secondQuestion] (js "now") []) = Some item /\
       item = newItem e (js "now")
                (addAll (List.firstn k [firstQuestion; secondQuestion])
                   (js "now") []) /\
       item !! "id" = Some (JNum (Z.of_nat k + 1))) /\
  (forall id,
     (id <= 0 \/
      Z.of_nat (List.length [firstQuestion; secondQuestion]) < id)%Z ->
     getHistoryById id (addAll [firstQuestion; secondQuestion] (js "now") [])
       = None).
Proof.
  apply (X_history_lookup_by_number (js "now")
           [firstQuestion; secondQuestion]).
  - repeat constructor.
  - unfold MAX_HISTORY_SIZE. simpl. lia.
Defined.

(** ** The in-memory history: getHistory *)






Section GetHistoryFacts.
Variable dateOf : jsval -> option Z.



End GetHistoryFacts.


(** ** The schema cache: shape, invalidation, eviction *)

Import CacheShape.

Section CacheShapeFacts.
Context {V : Type}.
Implicit Types (c : lru V) (e : lru_entry V).

Lemma keysOf_remove_key k c :
  keysOf (remove_key k c)
    = List.filter (fun x => negb (bool_decide (x = k))) (keysOf c).
Proof.
  induction c as [|e c IH]; [reflexivity|].
  unfold remove_key, keysOf in *. simpl. unfold has_key at 1.
  destruct (bool_decide (key e = k)); simpl; rewrite IH; reflexivity.
Qed.

Lemma NoDup_filter_bool {A : Type} (f : A -> bool) (l : list A) :
  List.NoDup l -> List.NoDup (List.filter f l).
Proof.
  induction 1 as [|x l Hx Hl IH]; [constructor|].
  simpl. destruct (f x); [|exact IH].
  constructor; [|exact IH]. intros Hin. apply List.filter_In in Hin.
  apply Hx. tauto.
Qed.

Lemma remove_key_NoDup k c :
  List.NoDup (keysOf c) -> List.NoDup (keysOf (remove_key k c)).
Proof. rewrite keysOf_remove_key. apply NoDup_filter_bool. Qed.

Lemma remove_key_absent k c : ~ List.In k (keysOf (remove_key k c)).
Proof.
  rewrite keysOf_remove_key. intros Hin. apply List.filter_In in Hin.
  destruct Hin as [_ H]. rewrite bool_decide_eq_true_2 in H by reflexivity.
  discriminate.
Qed.

Lemma remove_key_length k c :
  (List.length (remove_key k c) <= List.length c)%nat.
Proof. unfold remove_key. apply List.filter_length_le. Qed.

Lemma lookup_entry_key k c e : lookup_entry k c = Some e -> key e = k.
Proof.
  unfold lookup_entry. intros H. apply List.find_some in H.
  destruct H as [_ H]. apply has_key_true in H. exact H.
Qed.

Lemma remove_key_shrinks k c e :
  lookup_entry k c = Some e ->
  (List.length (remove_key k c) < List.length c)%nat.
Proof.
  unfold lookup_entry, remove_key.
  induction c as [|x c IH]; [discriminate|]. simpl.
  destruct (has_key k x); simpl.
  - intros _. pose proof (List.filter_length_le
                            (fun e0 => negb (has_key k e0)) c). lia.
  - intros H. apply IH in H. lia.
Qed.

Lemma lookup_entry_None k c :
  lookup_entry k c = None <-> ~ List.In k (keysOf c).
Proof.
  unfold lookup_entry, keysOf. induction c as [|x c IH]; simpl.
  - tauto.
  - unfold has_key at 1. destruct (bool_decide_reflect (key x = k)) as [E|E].
    + split; [discriminate | intros H; exfalso; apply H; left; exact E].
    + rewrite IH. tauto.
Qed.

Lemma remove_key_fresh k c :
  ~ List.In k (keysOf c) -> remove_key k c = c.
Proof.
  unfold remove_key, keysOf. induction c as [|x c IH]; [reflexivity|].
  simpl. intros H. unfold has_key at 1.
  rewrite bool_decide_eq_false_2 by tauto. simpl. f_equal. apply IH. tauto.
Qed.

Lemma lookup_entry_remove_other k k' c :
  k' <> k -> lookup_entry k' (remove_key k c) = lookup_entry k' c.
Proof.
  intros Hne. unfold lookup_entry, remove_key.
  induction c as [|x c IH]; [reflexivity|]. simpl.
  destruct (has_key k x) eqn:Ek; simpl.
  - apply has_key_true in Ek.
    destruct (has_key k' x) eqn:Ek'; [|exact IH].
    apply has_key_true in Ek'. congruence.
  - destruct (has_key k' x); [reflexivity | exact IH].
Qed.

Lemma lookup_entry_remove_same k c : lookup_entry k (remove_key k c) = None.
Proof. apply lookup_entry_None, remove_key_absent. Qed.

Lemma removelast_NoDup {A : Type} (l : list A) :
  List.NoDup l -> List.NoDup (List.removelast l).
Proof.
  intros H. apply NoDup_ListNoDup. apply NoDup_ListNoDup in H.
  rewrite removelast_firstn_pred.
  eapply sublist_NoDup; [exact H | apply sublist_take].
Qed.

Lemma keysOf_removelast c :
  keysOf (List.removelast c) = List.removelast (keysOf c).
Proof.
  unfold keysOf. induction c as [|x c IH]; [reflexivity|].
  destruct c as [|y c]; [reflexivity|].
  rewrite removelast_cons. simpl List.map. rewrite removelast_cons.
  f_equal. exact IH.
Qed.

Lemma lru_set_wellFormed o k (v : V) t now c :
  (1 <= max o)%Z -> wellFormed o c -> wellFormed o (lru_set o k v t now c).
Proof.
  intros Hmax [Hnd Hlen]. unfold lru_set.
  set (e := mkEntry k v _ _).
  assert (Hnd' : List.NoDup (keysOf (e :: remove_key k c))).
  { simpl. constructor; [apply remove_key_absent|].
    apply remove_key_NoDup. exact Hnd. }
  pose proof (remove_key_length k c) as Hrl.
  destruct (Z.ltb_spec (max o) (Z.of_nat (List.length (e :: remove_key k c))))
    as [Hover|Hok].
  - split.
    + rewrite keysOf_removelast. apply removelast_NoDup. exact Hnd'.
    + rewrite length_removelast_cons. lia.
  - split; [exact Hnd' | exact Hok].
Qed.

Lemma lru_get_wellFormed o k now c :
  wellFormed o c -> wellFormed o (snd (lru_get o k now c)).
Proof.
  intros [Hnd Hlen]. unfold lru_get.
  destruct (lookup_entry k c) as [e|] eqn:E; [|split; assumption].
  pose proof (remove_key_shrinks _ _ _ E) as Hsh.
  pose proof (lookup_entry_key _ _ _ E) as Hk.
  destruct (isStale e now); simpl.
  - split; [apply remove_key_NoDup; exact Hnd | lia].
  - split; [|simpl; lia].
    assert (Hkey : key (if updateAgeOnGet o then updateItemAge e now else e)
                   = k) by (destruct (updateAgeOnGet o); exact Hk).
    unfold keysOf. simpl. rewrite Hkey.
    constructor; [apply remove_key_absent | apply remove_key_NoDup; exact Hnd].
Qed.

Lemma lru_has_wellFormed o k now c :
  wellFormed o c -> wellFormed o (snd (lru_has o k now c)).
Proof.
  intros [Hnd Hlen]. unfold lru_has.
  destruct (lookup_entry k c) as [e|]; [|split; assumption].
  destruct (isStale e now); [split; assumption|].
  destruct (updateAgeOnHas o); [|split; assumption]. simpl.
  assert (Hk : keysOf (List.map (fun x => if has_key k x
                                          then updateItemAge x now else x) c)
               = keysOf c).
  { unfold keysOf. rewrite List.map_map. apply List.map_ext.
    intros x. destruct (has_key k x); reflexivity. }
  split; [rewrite Hk; exact Hnd | rewrite List.length_map; exact Hlen].
Qed.

End CacheShapeFacts.

Lemma NoDup_map_filter {A B : Type} (g : A -> B) (f : A -> bool) l :
  List.NoDup (List.map g l) -> List.NoDup (List.map g (List.filter f l)).
Proof.
  induction l as [|x l IH]; [intros; apply List.NoDup_nil|].
  simpl. intros H. inversion H as [|? ? Hx Hl]; subst.
  destruct (f x); [|apply IH; exact Hl].
  simpl. constructor; [|apply IH; exact Hl].
  intros Hin. apply Hx. apply List.in_map_iff in Hin.
  destruct Hin as (y & Hy & Hin). apply List.filter_In in Hin.
  apply List.in_map_iff. exists y. tauto.
Qed.

(** X4.  The cache keeps its shape: starting from the empty cache, every
    operation of the module (set, get, has, clearing one key, clearing
    all) leaves at most one entry per key and at most [max] entries, so
    the size reported by getCacheStats never exceeds maxSize and the
    keys it lists are distinct and no more than the size. *)
Theorem X_cache_shape_is_kept {schema : Type} (env : cache_environment)
  (c : lru schema) k (s : schema) ttl_opt now :
  (1 <= max (cache_options env))%Z ->
  wellFormed (cache_options env) c ->
  wellFormed (cache_options env) (setSchemaInCache env k s ttl_opt now c) /\
  wellFormed (cache_options env) (snd (getSchemaFromCache env k now c)) /\
  wellFormed (cache_options env) (snd (hasInCache env k now c)) /\
  wellFormed (cache_options env) (clearCacheKey k c) /\
  wellFormed (cache_options env) (clearAllCache c) /\
  (Z.of_nat (stats_size (getCacheStats env now c))
     <= stats_maxSize (getCacheStats env now c))%Z /\
  List.NoDup (stats_keys (getCacheStats env now c)) /\
  (List.length (stats_keys (getCacheStats env now c))
     <= stats_size (getCacheStats env now c))%nat.
Proof.
  intros Hmax Hwf.
  split; [apply lru_set_wellFormed; assumption|].
  split; [apply lru_get_wellFormed; assumption|].
  split; [apply lru_has_wellFormed; assumption|].
  destruct Hwf as [Hnd Hlen].
  split.
  { split; [apply remove_key_NoDup; exact Hnd|].
    pose proof (remove_key_length k c). unfold clearCacheKey, lru_delete. lia. }
  split; [split; [apply List.NoDup_nil |
                  unfold clearAllCache, lru_clear; cbn [List.length]; lia]|].
  split; [exact Hlen|]. simpl. split.
  - apply NoDup_map_filter. exact Hnd.
  - unfold keysOf. rewrite List.length_map. apply List.filter_length_le.
Qed.

Lemma X_cache_shape_witness :
  let c := setSchemaInCache noCacheSettings northwindKey northwindSchema
             None 1000 [] in
  wellFormed (cache_options noCacheSettings)
    (setSchemaInCache noCacheSettings (js "mysql:shop") northwindSchema
       (Some 5000%Z) 2000 c) /\
  wellFormed (cache_options noCacheSettings)
    (snd (getSchemaFromCache noCacheSettings (js "mysql:shop") 2000 c)) /\
  wellFormed (cache_options noCacheSettings)
    (snd (hasInCache noCacheSettings (js "mysql:shop") 2000 c)) /\
  wellFormed (cache_options noCacheSettings)
    (clearCacheKey (js "mysql:shop") c) /\
  wellFormed (cache_options noCacheSettings) (clearAllCache c) /\
  (Z.of_nat (stats_size (getCacheStats noCacheSettings 2000 c))
     <= stats_maxSize (getCacheStats noCacheSettings 2000 c))%Z /\
  List.NoDup (stats_keys (getCacheStats noCacheSettings 2000 c)) /\
  (List.length (stats_keys (getCacheStats noCacheSettings 2000 c))
     <= stats_size (getCacheStats noCacheSettings 2000 c))%nat.
Proof.
  apply (X_cache_shape_is_kept noCacheSettings
           (setSchemaInCache noCacheSettings northwindKey northwindSchema
              None 1000 [])
           (js "mysql:shop") northwindSchema (Some 5000%Z) 2000).
  - vm_compute. discriminate.
  - split.
    + repeat constructor. intros [].
    + vm_compute. discriminate.
Defined.

Lemma cache_options_max env : max (cache_options env) <> 0%Z.
Proof.
  unfold cache_options, num_or. simpl.
  destruct (SCHEMA_CACHE_MAX_SIZE env) as [z|]; [|discriminate].
  destruct (Z.eqb_spec z 0); [discriminate | assumption].
Qed.

Lemma fst_lru_get {V : Type} o k now (c : lru V) :
  fst (lru_get o k now c)
    = match lookup_entry k c with
      | Some e => if isStale e now then None else Some (value e)
      | None => None
      end.
Proof.
  unfold lru_get. destruct (lookup_entry k c) as [e|]; [|reflexivity].
  destruct (isStale e now); reflexivity.
Qed.

(** X5.  Invalidation: after clearCacheKey the key is absent for get and
    for has, whatever the time, and every other key is answered as
    before; after clearAllCache every key is absent and the cache is
    empty. *)
Theorem X_cache_invalidation {schema : Type} (env : cache_environment)
  (k : jsstring) (now : Z) (c : lru schema) :
  getSchemaFromCache env k now (clearCacheKey k c)
    = (None, clearCacheKey k c) /\
  fst (hasInCache env k now (clearCacheKey k c)) = false /\
  (forall k', k' <> k ->
     fst (getSchemaFromCache env k' now (clearCacheKey k c))
       = fst (getSchemaFromCache env k' now c)) /\
  (forall k', getSchemaFromCache env k' now (clearAllCache c) = (None, [])).
Proof.
  unfold getSchemaFromCache, hasInCache, clearCacheKey, clearAllCache,
    lru_delete, lru_clear.
  split; [|split; [|split]].
  - unfold lru_get. rewrite lookup_entry_remove_same. reflexivity.
  - unfold lru_has. rewrite lookup_entry_remove_same. reflexivity.
  - intros k' Hne. rewrite !fst_lru_get.
    rewrite lookup_entry_remove_other by exact Hne. reflexivity.
  - intros k'. reflexivity.
Qed.

Lemma X_cache_invalidation_witness :
  let c := setSchemaInCache noCacheSettings northwindKey northwindSchema
             None 1000 [] in
  fst (getSchemaFromCache noCacheSettings (js "mysql:shop") 2000
         (clearCacheKey northwindKey
            (setSchemaInCache noCacheSettings (js "mysql:shop")
               northwindSchema None 1500 c)))
    = fst (getSchemaFromCache noCacheSettings (js "mysql:shop") 2000
             (setSchemaInCache noCacheSettings (js "mysql:shop")
                northwindSchema None 1500 c)).
Proof.
  intros c.
  apply (proj1 (proj2 (proj2
           (X_cache_invalidation noCacheSettings northwindKey 2000
              (setSchemaInCache noCacheSettings (js "mysql:shop")
                 northwindSchema None 1500 c))))).
  vm_compute. discriminate.
Defined.

(** X6.  Least recently used goes first.  When the cache is full, setting
    a key it does not hold drops exactly its last entry, the least
    recently used one, and puts the new entry in front; and an entry
    that has just been read is still there after the next set of another
    key, however full the cache is (for a capacity of at least 2). *)
Theorem X_cache_evicts_least_recent {schema : Type}
  (env : cache_environment) (c : lru schema) :
  (forall k s now,
     Z.of_nat (List.length c) = max (cache_options env) ->
     ~ List.In k (keysOf c) ->
     setSchemaInCache env k s None now c
       = mkEntry k s now (ttl (cache_options env)) :: List.removelast c) /\
  (forall k e k' s' ttl_opt t1 t2,
     (2 <= max (cache_options env))%Z ->
     lookup_entry k c = Some e -> isStale e t1 = false -> k' <> k ->
     lookup_entry k
       (setSchemaInCache env k' s' ttl_opt t2
          (snd (getSchemaFromCache env k t1 c)))
     = Some (updateItemAge e t1)).
Proof.
  split.
  - intros k s now Hfull Hfresh. unfold setSchemaInCache, lru_set.
    change (default (ttl (cache_options env)) None)
      with (ttl (cache_options env)).
    cbv zeta.
    replace (ttl (cache_options env) =? 0)%Z with false
      by (symmetry; apply Z.eqb_neq; apply cache_options_ttl).
    rewrite (remove_key_fresh k c Hfresh).
    destruct (Z.ltb_spec (max (cache_options env))
                (Z.of_nat (List.length
                   (mkEntry k s now (ttl (cache_options env)) :: c))))
      as [_|Hge]; [|cbn [List.length] in Hge; lia].
    destruct c as [|x c']; [|reflexivity].
    cbn [List.length] in Hfull. pose proof (cache_options_max env). lia.
  - intros k e k' s' ttl_opt t1 t2 Hmax Hl Hlive Hne.
    pose proof (lookup_entry_key _ _ _ Hl) as Hk.
    unfold getSchemaFromCache, lru_get. rewrite Hl, Hlive.
    change (updateAgeOnGet (cache_options env)) with true. cbn [snd].
    unfold setSchemaInCache, lru_set.
    set (enew := mkEntry k' s' _ _).
    assert (Hrm : remove_key k' (updateItemAge e t1 :: remove_key k c)
                  = updateItemAge e t1 :: remove_key k' (remove_key k c)).
    { unfold remove_key at 1. simpl. unfold has_key at 1. simpl.
      rewrite bool_decide_eq_false_2 by congruence. reflexivity. }
    rewrite Hrm.
    assert (Hfound : forall rest,
               lookup_entry k (enew :: updateItemAge e t1 :: rest)
               = Some (updateItemAge e t1)).
    { intros rest. unfold lookup_entry. simpl. unfold has_key. simpl.
      rewrite bool_decide_eq_false_2 by congruence.
      rewrite bool_decide_eq_true_2 by exact Hk. reflexivity. }
    destruct (Z.ltb_spec (max (cache_options env))
                (Z.of_nat (List.length
                   (enew :: updateItemAge e t1
                      :: remove_key k' (remove_key k c))))) as [Hover|_];
      [|apply Hfound].
    destruct (remove_key k' (remove_key k c)) as [|y rest].
    + cbn [List.length] in Hover. lia.
    + rewrite removelast_cons, removelast_cons. apply Hfound.
Qed.

Lemma X_cache_evicts_least_recent_witness :
  let c :=
    setSchemaInCache smallCacheSettings (js "mysql:shop") northwindSchema
      None 1500
      (setSchemaInCache smallCacheSettings northwindKey northwindSchema
         None 1000 []) in
  setSchemaInCache smallCacheSettings (js "postgres:crm") northwindSchema
    None 2000 c
    = mkEntry (js "postgres:crm") northwindSchema 2000
        (ttl (cache_options smallCacheSettings)) :: List.removelast c /\
  lookup_entry northwindKey
    (setSchemaInCache smallCacheSettings (js "postgres:crm") northwindSchema
       None 2500
       (snd (getSchemaFromCache smallCacheSettings northwindKey 2000 c)))
    = Some (updateItemAge
              (mkEntry northwindKey northwindSchema 1000
                 (ttl (cache_options smallCacheSettings))) 2000).
Proof.
  intros c. split.
  - apply (proj1 (X_cache_evicts_least_recent smallCacheSettings c)).
    + reflexivity.
    + vm_compute. intros [H|[H|[]]]; discriminate.
  - apply (proj2 (X_cache_evicts_least_recent smallCacheSettings c)
             northwindKey
             (mkEntry northwindKey northwindSchema 1000
                (ttl (cache_options smallCacheSettings)))).
    + vm_compute. discriminate.
    + reflexivity.
    + reflexivity.
    + vm_compute. discriminate.
Defined.

(** ** validateSQL, rule by rule *)

Import Acceptance.

Lemma Matches_alts_inv ic l p s p' s' :
  l <> [] -> Matches ic (alts l) p s p' s' ->
  exists r, List.In r l /\ Matches ic r p s p' s'.
Proof.
  induction l as [|r0 l IH]; [congruence|]. intros _ HM.
  destruct l as [|r1 l].
  - exists r0. split; [left; reflexivity | exact HM].
  - change (alts (r0 :: r1 :: l)) with (Alt r0 (alts (r1 :: l))) in HM.
    inversion HM; subst.
    + exists r0. split; [left; reflexivity | assumption].
    + destruct IH as (r & Hin & Hr); [discriminate | eassumption |].
      exists r. split; [right; exact Hin | exact Hr].
Qed.

Lemma keyword_head kw : keyword kw = true -> isWordAt (List.head (js kw)) = true.
Proof.
  unfold keyword. intros H. apply andb_true_iff in H. destruct H as [H _].
  apply andb_true_iff in H. tauto.
Qed.

Lemma keyword_last kw p :
  keyword kw = true -> isWordAt (lastUnit p (js kw)) = true.
Proof.
  intros H. pose proof (keyword_nonempty _ H) as Hne.
  unfold keyword in H. apply andb_true_iff in H. destruct H as [_ H].
  rewrite lastUnit_head in *. destruct (List.rev (js kw)) eqn:E; [|exact H].
  exfalso. apply Hne. apply (f_equal (@List.rev N)) in E.
  rewrite List.rev_involutive in E. exact E.
Qed.

(** What the two boundaries around a keyword say. *)
Lemma boundaries_of_word kw w pre post :
  keyword kw = true -> spells kw w ->
  xorb (isWordAt (lastUnit None pre)) (isWordAt (List.head (w ++ post)))
    = true ->
  xorb (isWordAt (lastUnit (lastUnit None pre) w)) (isWordAt (List.head post))
    = true ->
  endsInWord pre = false /\ startsInWord post = false.
Proof.
  intros Hk Hs H1 H2.
  pose proof (sameIgnoringCase_nonempty _ _ (keyword_nonempty _ Hk) Hs) as Hne.
  rewrite head_app_nonempty in H1 by exact Hne.
  rewrite (sameIgnoringCase_head _ _ Hs), (keyword_head _ Hk) in H1.
  rewrite (sameIgnoringCase_last (js kw) w None _ (keyword_nonempty _ Hk) Hs),
    (keyword_last kw None Hk) in H2.
  unfold endsInWord, startsInWord.
  destruct (isWordAt (lastUnit None pre)), (isWordAt (List.head post));
    simpl in *; try discriminate; split; reflexivity.
Qed.

(** [\b(kw1|kw2|...)\b] matches exactly where one of the keywords occurs
    as a whole word. *)
Lemma word_pattern_iff kws s :
  List.forallb keyword kws = true -> kws <> [] ->
  MatchesIn (mkRegExp (seqs [WordB; alts (List.map lit kws); WordB]) true) s
  <-> exists kw, List.In kw kws /\ occursAsWord kw s.
Proof.
  intros Hall Hne. rewrite List.forallb_forall in Hall. split.
  - intros (pre & m & post & p' & -> & HM). cbn [source ignoreCase] in HM.
    apply Matches_seqs_inv in HM. destruct HM as (p1 & s1 & HB1 & HM).
    apply Matches_WordB_inv in HB1. destruct HB1 as (-> & -> & HB1).
    apply Matches_seqs_inv in HM. destruct HM as (p2 & s2 & HA & HM).
    apply Matches_alts_inv in HA; [|destruct kws; [congruence|discriminate]].
    destruct HA as (r & Hr & HA).
    apply List.in_map_iff in Hr. destruct Hr as (kw & <- & Hin).
    pose proof (Hall _ Hin) as Hk.
    apply (Matches_lit_inv kw) in HA;
      [|apply keyword_ascii; exact Hk | apply keyword_nonempty; exact Hk].
    destruct HA as (w & Hsplit & -> & Hw).
    apply Matches_seqs_inv in HM. destruct HM as (p3 & s3 & HB2 & HM).
    apply Matches_WordB_inv in HB2. destruct HB2 as (-> & -> & HB2).
    apply Matches_seqs_nil_inv in HM. destruct HM as [_ <-].
    rewrite Hsplit in HB1.
    destruct (boundaries_of_word kw w pre post Hk Hw HB1 HB2) as [Hpre Hpost].
    exists kw. split; [exact Hin|]. exists pre, w, post. rewrite Hsplit.
    repeat split; assumption.
  - intros (kw & Hin & Hocc).
    apply (occursAsWord_MatchesIn kw); [apply Hall; exact Hin | | exact Hocc].
    apply List.in_map. exact Hin.
Qed.

(** [\bkw1\s+kw2\b] matches exactly where the phrase occurs. *)
Lemma phrase_pattern_iff kw1 kw2 s :
  keyword kw1 = true -> keyword kw2 = true ->
  MatchesIn
    (mkRegExp (seqs [WordB; lit kw1; space_plus; lit kw2; WordB]) true) s
  <-> occursAsPhrase kw1 kw2 s.
Proof.
  intros Hk1 Hk2. split; [|apply occursAsPhrase_MatchesIn; assumption].
  intros (pre & m & post & p' & -> & HM). cbn [source ignoreCase] in HM.
  apply Matches_seqs_inv in HM. destruct HM as (p1 & s1 & HB1 & HM).
  apply Matches_WordB_inv in HB1. destruct HB1 as (-> & -> & HB1).
  apply Matches_seqs_inv in HM. destruct HM as (p2 & s2 & HL1 & HM).
  apply (Matches_lit_inv kw1) in HL1;
    [|apply keyword_ascii; exact Hk1 | apply keyword_nonempty; exact Hk1].
  destruct HL1 as (w1 & Hsplit & -> & Hw1).
  apply Matches_seqs_inv in HM. destruct HM as (p3 & s3 & HS & HM).
  apply Matches_plus_class_inv in HS.
  destruct HS as (ws & Hne & -> & -> & Hws).
  apply Matches_seqs_inv in HM. destruct HM as (p4 & s4 & HL2 & HM).
  apply (Matches_lit_inv kw2) in HL2;
    [|apply keyword_ascii; exact Hk2 | apply keyword_nonempty; exact Hk2].
  destruct HL2 as (w2 & -> & -> & Hw2).
  apply Matches_seqs_inv in HM. destruct HM as (p5 & s5 & HB2 & HM).
  apply Matches_WordB_inv in HB2. destruct HB2 as (-> & -> & HB2).
  apply Matches_seqs_nil_inv in HM. destruct HM as [_ <-].
  rewrite Hsplit in HB1.
  exists pre, w1, ws, w2, post. rewrite Hsplit.
  split; [reflexivity|]. split; [exact Hw1|]. split; [split; assumption|].
  split; [exact Hw2|].
  pose proof (sameIgnoringCase_nonempty _ _ (keyword_nonempty _ Hk1) Hw1)
    as Hne1.
  rewrite head_app_nonempty in HB1 by exact Hne1.
  rewrite (sameIgnoringCase_head _ _ Hw1), (keyword_head _ Hk1) in HB1.
  rewrite (sameIgnoringCase_last (js kw2) w2 None _
             (keyword_nonempty _ Hk2) Hw2),
    (keyword_last kw2 None Hk2) in HB2.
  unfold endsInWord, startsInWord.
  destruct (isWordAt (lastUnit None pre)), (isWordAt (List.head post));
    simpl in *; try discriminate; split; reflexivity.
Qed.

(** C3, as the specification words it, does not hold: the test of
    executeSQL reads the text, not the statement.  A valid statement
    that declares no LIMIT but holds the words [limit 5] in a string
    literal shows a LIMIT to the test: it is handed to the database as
    it is, unbounded, with limitApplied = false.  And a valid statement
    that declares its LIMIT as [LIMIT (5)] shows none to the test: a
    second LIMIT is appended to it. *)
Lemma C3_limit_in_literal_not_bounded :
  validateSQL (js "SELECT title FROM notes WHERE body = 'limit 5 per user'")
    = Ok true /\
  ~ declaresLimit
      (js "SELECT title FROM notes WHERE body = 'limit 5 per user'") /\
  limitedSQL (js "SELECT title FROM notes WHERE body = 'limit 5 per user'")
    (maxRowsOf noOptions noSettings)
  = js "SELECT title FROM notes WHERE body = 'limit 5 per user'" /\
  executeSQL (js "SELECT title FROM notes WHERE body = 'limit 5 per user'")
    (answering Postgres 12) noOptions noSettings
  = Ok (mkExecution [oneRow] 1 12 false) /\
  validateSQL (js "SELECT title FROM notes LIMIT (5)") = Ok true /\
  declaresLimit (js "SELECT title FROM notes LIMIT (5)") /\
  limitedSQL (js "SELECT title FROM notes LIMIT (5)")
    (maxRowsOf noOptions noSettings)
  = js "SELECT title FROM notes LIMIT (5) LIMIT 1000;".
Proof.
  split; [vm_compute; reflexivity|]. split.
  { unfold declaresLimit. intros H.
    assert (HM : MatchesIn
                   (mkRegExp
                      (seqs [WordB; alts (List.map lit ["LIMIT"%string]);
                             WordB]) true)
                   (outsideLiterals false
                      (js "SELECT title FROM notes WHERE body = 'limit 5 per user'"))).
    { apply word_pattern_iff; [reflexivity | discriminate|].
      exists "LIMIT"%string. split; [left; reflexivity | exact H]. }
    apply test_MatchesIn in HM. vm_compute in HM. discriminate HM. }
  split; [vm_compute; reflexivity|].
  split; [vm_compute; reflexivity|].
  split; [vm_compute; reflexivity|]. split.
  { unfold declaresLimit.
    exists (js "SELECT title FROM notes "), (js "LIMIT"), (js " (5)").
    split; [vm_compute; reflexivity|].
    repeat split; reflexivity. }
  vm_compute. reflexivity.
Qed.

Lemma Forall2_exact kw w :
  List.Forall2 (fun k c => unitMatches false k c = true) kw w -> w = kw.
Proof.
  induction 1 as [|k c kw w Hk _ IH]; [reflexivity|].
  simpl in Hk. apply N.eqb_eq in Hk. subst. reflexivity.
Qed.

Lemma Forall2_exact_refl kw :
  List.Forall2 (fun k c => unitMatches false k c = true) kw kw.
Proof.
  induction kw as [|k kw IH]; constructor; [|exact IH].
  simpl. apply N.eqb_refl.
Qed.

(** [;\s*--] matches exactly where a terminator is followed, after white
    space or none, by the comment marker. *)
Lemma comment_pattern_iff s :
  MatchesIn pat_comment s <-> commentAfterTerminator s.
Proof.
  split.
  - intros (pre & m & post & p' & -> & HM).
    unfold pat_comment in HM. cbn [source ignoreCase] in HM.
    apply Matches_seqs_inv in HM. destruct HM as (p1 & s1 & H1 & HM).
    unfold lit in H1. apply Matches_lit_units_inv in H1; [|discriminate].
    destruct H1 as (w1 & E1 & -> & F1). apply Forall2_exact in F1. subst w1.
    apply Matches_seqs_inv in HM. destruct HM as (p2 & s2 & H2 & HM).
    apply Matches_star_class_inv in H2. destruct H2 as (ws & -> & -> & Hws).
    apply Matches_seqs_inv in HM. destruct HM as (p3 & s3 & H3 & HM).
    unfold lit in H3. apply Matches_lit_units_inv in H3; [|discriminate].
    destruct H3 as (w3 & -> & -> & F3). apply Forall2_exact in F3. subst w3.
    apply Matches_seqs_nil_inv in HM. destruct HM as [_ <-].
    exists pre, ws, post. split; [rewrite E1; reflexivity | exact Hws].
  - intros (pre & ws & post & -> & Hws).
    exists pre, (js ";" ++ ws ++ js "--"), post. eexists.
    split; [rewrite <- !List.app_assoc; reflexivity|].
    unfold pat_comment. cbn [source ignoreCase]. rewrite <- !List.app_assoc.
    eapply Matches_seqs_cons.
    { apply (Matches_lit_units false (js ";"));
        [discriminate | apply Forall2_exact_refl]. }
    eapply Matches_seqs_cons; [apply Matches_star_class; exact Hws|].
    eapply Matches_seqs_cons.
    { apply (Matches_lit_units false (js "--"));
        [discriminate | apply Forall2_exact_refl]. }
    constructor.
Qed.

Ltac unread_keyword kw HM w E Hw :=
  let p := fresh "p" in
  let s := fresh "s" in
  let H := fresh "H" in
  apply Matches_seqs_inv in HM; destruct HM as (p & s & H & HM);
  apply (Matches_lit_inv kw) in H;
  [|apply keyword_ascii; reflexivity | apply keyword_nonempty; reflexivity];
  destruct H as (w & E & -> & Hw).

Ltac unread_spacing HM ws Hne Hws :=
  let p := fresh "p" in
  let s := fresh "s" in
  let H := fresh "H" in
  apply Matches_seqs_inv in HM; destruct HM as (p & s & H & HM);
  apply Matches_plus_class_inv in H;
  destruct H as (ws & Hne & -> & -> & Hws).

(** The schema-enumeration pattern matches exactly the statements of that
    shape. *)
Lemma schema_pattern_iff s :
  MatchesIn pat_schema_enum s <-> schemaEnumerationShape s.
Proof.
  split; [|apply schemaEnumerationShape_MatchesIn].
  intros (pre & m & post & p' & -> & HM).
  unfold pat_schema_enum in HM. cbn [source ignoreCase] in HM.
  unread_keyword "UNION"%string HM u E Hu.
  unread_spacing HM ws1 Hne1 Hws1.
  unread_keyword "ALL"%string HM a Ea Ha. subst.
  unread_spacing HM ws2 Hne2 Hws2.
  unread_keyword "SELECT"%string HM sel Es Hsel. subst.
  apply Matches_seqs_inv in HM. destruct HM as (p5 & s5 & HD & HM).
  apply Matches_star_class_inv in HD. destruct HD as (mid & -> & -> & Hmid).
  unread_keyword "FROM"%string HM f Ef Hf. subst.
  unread_spacing HM ws3 Hne3 Hws3.
  unread_keyword "INFORMATION_SCHEMA"%string HM i Ei Hi. subst.
  apply Matches_seqs_nil_inv in HM. destruct HM as [_ <-].
  exists pre, u, ws1, a, ws2, sel, mid, f, ws3, i, post.
  split; [rewrite E; reflexivity|].
  repeat (split; [first [assumption | split; assumption]|]).
  split; [|split; [|split; [split|]]]; try assumption.
  unfold onOneLine. eapply List.Forall_impl; [|exact Hmid].
  intros c Hc. simpl in Hc. apply negb_true_iff in Hc. exact Hc.
Qed.

(** One of the seven patterns matches exactly when the statement is
    dangerous in the sense of the rules. *)
Lemma dangerous_patterns_iff s :
  List.existsb (fun pattern => test pattern s) DANGEROUS_PATTERNS = true
  <-> dangerous s.
Proof.
  rewrite List.existsb_exists. split.
  - intros (pat & Hin & HM). apply test_MatchesIn in HM.
    unfold DANGEROUS_PATTERNS in Hin. simpl in Hin.
    destruct Hin as [<-|[<-|[<-|[<-|[<-|[<-|[<-|[]]]]]]]].
    + apply (proj1 (word_pattern_iff
                      ["INSERT"; "UPDATE"; "DELETE"; "DROP"; "TRUNCATE";
                       "ALTER"; "CREATE"; "GRANT"; "REVOKE"]%string s
                      eq_refl ltac:(discriminate))) in HM.
      destruct HM as (kw & Hin & Hocc). left. left. exists kw.
      split; [|exact Hocc]. simpl in Hin |- *. tauto.
    + apply (proj1 (word_pattern_iff ["EXEC"; "EXECUTE"; "EVAL"]%string s
                      eq_refl ltac:(discriminate))) in HM.
      destruct HM as (kw & Hin & Hocc). left. left. exists kw.
      split; [|exact Hocc]. simpl in Hin |- *. tauto.
    + apply (proj1 (phrase_pattern_iff "INTO" "OUTFILE" s eq_refl eq_refl))
        in HM.
      left. right. exists ("INTO", "OUTFILE")%string.
      split; [in_list | exact HM].
    + apply (proj1 (phrase_pattern_iff "INTO" "DUMPFILE" s eq_refl eq_refl))
        in HM.
      left. right. exists ("INTO", "DUMPFILE")%string.
      split; [in_list | exact HM].
    + apply (proj1 (word_pattern_iff ["LOAD_FILE"]%string s
                      eq_refl ltac:(discriminate))) in HM.
      destruct HM as (kw & Hin & Hocc). left. left. exists kw.
      split; [|exact Hocc]. simpl in Hin |- *. tauto.
    + right. left. apply comment_pattern_iff. exact HM.
    + right. right. apply schema_pattern_iff. exact HM.
  - intros [Hb | [Hc | Hs]].
    + destruct (containsBlocked_pattern s Hb) as (pat & Hin & HM).
      exists pat. split; [exact Hin | apply test_MatchesIn; exact HM].
    + exists pat_comment. split; [in_list|].
      apply test_MatchesIn, comment_pattern_iff. exact Hc.
    + exists pat_schema_enum. split; [in_list|].
      apply test_MatchesIn, schema_pattern_iff. exact Hs.
Qed.

Lemma blank_or_nonEmptySegment s : blank s \/ nonEmptySegment s.
Proof.
  unfold blank, nonEmptySegment. induction s as [|c s [IH|IH]].
  - left. constructor.
  - destruct (isWhiteSpace c) eqn:E.
    + left. constructor; assumption.
    + right. apply List.Exists_cons_hd. exact E.
  - right. apply List.Exists_cons_tl. exact IH.
Qed.

Lemma trimStart_blank s : blank s -> trimStart s = [].
Proof.
  induction 1 as [|c s Hc _ IH]; [reflexivity|]. simpl. rewrite Hc. exact IH.
Qed.

(** The first check of validateSQL passes exactly for the texts with a
    unit that is not white space. *)
Lemma empty_check_iff s :
  Nat.eqb (List.length s) 0 || Nat.eqb (List.length (trim s)) 0 = false
  <-> nonEmptySegment s.
Proof.
  split.
  - intros H. apply orb_false_iff in H. destruct H as [_ H].
    destruct (blank_or_nonEmptySegment s) as [Hb|Hn]; [|exact Hn].
    unfold trim, trimEnd in H. rewrite (trimStart_blank _ Hb) in H.
    discriminate H.
  - intros H. pose proof (trim_nonEmptySegment _ H) as Ht.
    apply orb_false_iff. split.
    + destruct s; [inversion H | reflexivity].
    + destruct (List.length (trim s)); [discriminate Ht | reflexivity].
Qed.

Lemma nonEmptySegment_trim s :
  Nat.ltb 0 (List.length (trim s)) = true -> nonEmptySegment s.
Proof.
  intros H. apply empty_check_iff. apply orb_false_iff.
  destruct (List.length (trim s)) eqn:E; [discriminate H|].
  split; [|reflexivity].
  destruct s; [discriminate E | reflexivity].
Qed.

(** [split] gives the segments of the text. *)
Lemma split_segmentsOf s : segmentsOf s (split 59 s).
Proof.
  unfold segmentsOf. induction s as [|c s (Hne & Hjoin & HF)].
  - split; [discriminate|]. split; [reflexivity|].
    constructor; [intros []|constructor].
  - cbn [split]. destruct (N.eqb_spec c 59) as [->|Hc].
    + split; [discriminate|]. split.
      * destruct (split 59 s) as [|seg rest]; [congruence|].
        change (joinSegments ([] :: seg :: rest))
          with (59 :: joinSegments (seg :: rest)).
        rewrite <- Hjoin. reflexivity.
      * constructor; [intros []|exact HF].
    + destruct (split 59 s) as [|seg rest]; [congruence|].
      split; [discriminate|].
      apply List.Forall_cons_iff in HF. destruct HF as [Hseg HF'].
      split.
      * destruct rest as [|seg' rest].
        -- simpl in Hjoin. simpl. rewrite <- Hjoin. reflexivity.
        -- change (joinSegments ((c :: seg) :: seg' :: rest))
             with (c :: seg ++ 59 :: joinSegments (seg' :: rest)).
           rewrite Hjoin. reflexivity.
      * constructor; [|exact HF'].
        intros [E|Hin]; [apply Hc; exact E | exact (Hseg Hin)].
Qed.

Lemma filter_one_inv {A : Type} (f : A -> bool) l :
  (0 < List.length (List.filter f l))%nat ->
  exists b y c, l = b ++ y :: c /\ f y = true.
Proof.
  induction l as [|h t IH]; simpl; [lia|].
  destruct (f h) eqn:E.
  - intros _. exists [], h, t. split; [reflexivity | exact E].
  - intros H. destruct (IH H) as (b & y & c & -> & Hy).
    exists (h :: b), y, c. split; [reflexivity | exact Hy].
Qed.

Lemma filter_two_inv {A : Type} (f : A -> bool) l :
  (1 < List.length (List.filter f l))%nat ->
  exists a x b y c, l = a ++ x :: b ++ y :: c /\ f x = true /\ f y = true.
Proof.
  induction l as [|h t IH]; simpl; [lia|].
  destruct (f h) eqn:E.
  - simpl. intros H.
    destruct (filter_one_inv f t) as (b & y & c & -> & Hy); [lia|].
    exists [], h, b, y, c. split; [reflexivity|]. split; assumption.
  - intros H. destruct (IH H) as (a & x & b & y & c & -> & Hx & Hy).
    exists (h :: a), x, b, y, c. split; [reflexivity|]. split; assumption.
Qed.

(** The last check of validateSQL fires exactly for the texts with
    several statements. *)
Lemma statements_check_iff s :
  Nat.ltb 1
    (List.length
       (List.filter (fun seg => Nat.ltb 0 (List.length (trim seg)))
          (split 59 s))) = true
  <-> severalStatements s.
Proof.
  split.
  - intros H. apply Nat.ltb_lt in H. apply filter_two_inv in H.
    destruct H as (a & x & b & y & c & E & Hx & Hy).
    exists (split 59 s), a, x, b, y, c.
    split; [apply split_segmentsOf|]. split; [exact E|].
    split; apply nonEmptySegment_trim; assumption.
  - intros (segs & a & x & b & y & c & (Hne & Hjoin & Hsep) & Hsegs & Hx
            & Hy).
    rewrite Hjoin, (split_joinSegments _ Hne Hsep), Hsegs.
    apply Nat.ltb_lt. apply filter_two; apply trim_nonEmptySegment; assumption.
Qed.

Lemma keyword_check_iff s :
  negb (startsWith (js "SELECT") (toUpperCase (trim s)))
  && negb (startsWith (js "WITH") (toUpperCase (trim s))) = false
  <-> beginsWithKeyword s.
Proof.
  unfold beginsWithKeyword.
  destruct (startsWith (js "SELECT") _), (startsWith (js "WITH") _);
    simpl; intuition congruence.
Qed.

(** X7.  validateSQL accepts exactly the statements that pass every rule
    (some unit is not white space; trimmed and upper-cased the text starts
    with SELECT or WITH; no blocked word or phrase, no comment marker
    after a terminator, no schema enumeration; at most one non-empty
    segment between terminators), and the error it throws is that of the
    first rule that fails, in this order. *)
Theorem X_validateSQL_decides (sql : jsstring) :
  (validateSQL sql = Ok true <-> passesAllRules sql) /\
  (validateSQL sql = Throw (js "Empty SQL query")
   <-> ~ nonEmptySegment sql) /\
  (validateSQL sql = Throw (js "Only SELECT queries are allowed")
   <-> nonEmptySegment sql /\ ~ beginsWithKeyword sql) /\
  (validateSQL sql
     = Throw (js "Query contains potentially dangerous operations")
   <-> nonEmptySegment sql /\ beginsWithKeyword sql /\ dangerous sql) /\
  (validateSQL sql = Throw (js "Multiple SQL statements are not allowed")
   <-> nonEmptySegment sql /\ beginsWithKeyword sql /\ ~ dangerous sql /\
       severalStatements sql).
Proof.
  pose proof (empty_check_iff sql) as H1.
  pose proof (keyword_check_iff sql) as H2.
  pose proof (dangerous_patterns_iff sql) as H3.
  pose proof (statements_check_iff sql) as H4.
  assert (D12 : js "Empty SQL query" <> js "Only SELECT queries are allowed")
    by (vm_compute; discriminate).
  assert (D13 : js "Empty SQL query"
                <> js "Query contains potentially dangerous operations")
    by (vm_compute; discriminate).
  assert (D14 : js "Empty SQL query"
                <> js "Multiple SQL statements are not allowed")
    by (vm_compute; discriminate).
  assert (D23 : js "Only SELECT queries are allowed"
                <> js "Query contains potentially dangerous operations")
    by (vm_compute; discriminate).
  assert (D24 : js "Only SELECT queries are allowed"
                <> js "Multiple SQL statements are not allowed")
    by (vm_compute; discriminate).
  assert (D34 : js "Query contains potentially dangerous operations"
                <> js "Multiple SQL statements are not allowed")
    by (vm_compute; discriminate).
  unfold passesAllRules, validateSQL.
  destruct (_ || _);
    [|destruct (_ && _);
      [|destruct (List.existsb _ _);
        [|destruct (Nat.ltb 1 _)]]];
    repeat split; intros; try discriminate; try congruence;
    intuition (try discriminate; try congruence).
Qed.

(** A statement that validateSQL accepts passes every rule. *)
Lemma X_validateSQL_decides_witness :
  passesAllRules (js "SELECT name FROM customers WHERE city = 'Oslo';").
Proof.
  apply (proj1 (proj1 (X_validateSQL_decides
                         (js "SELECT name FROM customers WHERE city = 'Oslo';")))).
  vm_compute. reflexivity.
Defined.

(** ** One history entry per request *)

(** X8.  With the in-memory history every call of queryFromQuestion
    records exactly one entry, added in front of the history, and
    delivers the response or the error of generation and execution
    unchanged.  After a response the entry has success true and holds
    the statement and the row count of the response; after an error it
    has success false, the error message and [null] as statement.  In
    both cases it holds the question and is numbered with the size of
    the history plus one. *)
Theorem X_every_request_is_recorded now question db o env w h :
  let out := fst (queryFromQuestion (inMemoryRecorder now)
                    question db o env w h) in
  let h' := snd (queryFromQuestion (inMemoryRecorder now)
                   question db o env w h) in
  out = primary question db o env w /\
  exists item,
    h' = QueryHistory.addToHistory item now h /\
    List.head h' = Some (newItem item now h) /\
    newItem item now h !! "id"
      = Some (JNum (Z.of_nat (List.length h) + 1)) /\
    newItem item now h !! "question" = Some (JStr question) /\
    match out with
    | Ok resp =>
        newItem item now h !! "success" = Some (JBool true) /\
        newItem item now h !! "sql" = Some (JStr (r_sql resp)) /\
        newItem item now h !! "rowCount"
          = Some (JNum (Z.of_nat (r_rowCount resp))) /\
        newItem item now h !! "error" = None
    | Throw message =>
        newItem item now h !! "success" = Some (JBool false) /\
        newItem item now h !! "error" = Some (JStr message) /\
        newItem item now h !! "sql" = Some JNull
    end.
Proof.
  cbv zeta. split.
  { apply queryFromQuestion_returning. intros e h0. eexists. reflexivity. }
  unfold queryFromQuestion, inMemoryRecorder.
  destruct (generateSQL w) as [g|m] eqn:Eg; simpl.
  - destruct (executeSQL (g_sql g) db o env) as [e|m] eqn:Ee; simpl.
    + exists (successEntry question o w g e).
      split; [reflexivity|]. split; [apply addToHistory_head|].
      repeat split; vm_compute; reflexivity.
    + exists (failureEntry question o w m).
      split; [reflexivity|]. split; [apply addToHistory_head|].
      repeat split; vm_compute; reflexivity.
  - exists (failureEntry question o w m).
    split; [reflexivity|]. split; [apply addToHistory_head|].
    repeat split; vm_compute; reflexivity.
Qed.

(** ** What cleanSQL hands to validateSQL *)

Lemma endsWith_unit_inv c s :
  endsWith [c] s = true -> exists body, s = body ++ [c].
Proof.
  unfold endsWith. simpl. intros H.
  destruct (List.rev s) as [|x t] eqn:E; [discriminate H|].
  apply andb_true_iff in H. destruct H as [H _]. apply N.eqb_eq in H.
  subst x. exists (List.rev t).
  rewrite <- (List.rev_involutive s), E. reflexivity.
Qed.

Lemma trim_blank s : blank s -> trim s = [].
Proof.
  intros H. unfold trim, trimEnd. rewrite (trimStart_blank _ H). reflexivity.
Qed.

Lemma validateSQL_not_empty s :
  nonEmptySegment s -> validateSQL s <> Throw (js "Empty SQL query").
Proof.
  intros H. unfold validateSQL.
  rewrite (proj2 (empty_check_iff s) H).
  destruct (_ && _); [vm_compute; discriminate|].
  destruct (List.existsb _ _); [vm_compute; discriminate|].
  destruct (Nat.ltb 1 _); [vm_compute; discriminate | discriminate].
Qed.

Lemma cleanSQL_terminated raw : exists body, cleanSQL raw = body ++ js ";".
Proof.
  unfold cleanSQL. cbv zeta.
  destruct (endsWith (js ";") _) eqn:E; simpl negb; cbv iota.
  - apply endsWith_unit_inv in E. exact E.
  - eexists. reflexivity.
Qed.

(** X9.  Whatever the model returns, cleanSQL yields a text that ends
    with the statement terminator; so validateSQL never reports its
    result as an empty query.  A response that is empty or holds white
    space only becomes the lone terminator and is reported, by
    validateSQL and by generateSQL, with the error of the read-only
    rule. *)
Theorem X_cleanSQL_never_empty (raw : jsstring) :
  (exists body, cleanSQL raw = body ++ js ";") /\
  validateSQL (cleanSQL raw) <> Throw (js "Empty SQL query") /\
  (forall w schema,
     schemaOutcome w = Ok schema -> aiOutcome w = Ok raw ->
     generateSQL w <> Throw (js "Empty SQL query")) /\
  (blank raw ->
     cleanSQL raw = js ";" /\
     validateSQL (cleanSQL raw)
       = Throw (js "Only SELECT queries are allowed") /\
     forall w schema,
       schemaOutcome w = Ok schema -> aiOutcome w = Ok raw ->
       generateSQL w = Throw (js "Only SELECT queries are allowed")).
Proof.
  pose proof (cleanSQL_terminated raw) as Hterm.
  assert (Hne : validateSQL (cleanSQL raw) <> Throw (js "Empty SQL query")).
  { destruct Hterm as (body & ->). apply validateSQL_not_empty.
    apply List.Exists_app. right. apply List.Exists_cons_hd. reflexivity. }
  split; [exact Hterm|]. split; [exact Hne|]. split.
  - intros w schema Hs Ha. unfold generateSQL. rewrite Hs, Ha. simpl.
    destruct (validateSQL (cleanSQL raw)) as [b|m]; simpl;
      [discriminate|].
    intros E. apply Hne. injection E as ->. reflexivity.
  - intros Hb.
    assert (Hc : cleanSQL raw = js ";").
    { unfold cleanSQL. rewrite (trim_blank _ Hb). vm_compute. reflexivity. }
    split; [exact Hc|]. split.
    + rewrite Hc. vm_compute. reflexivity.
    + intros w schema Hs Ha. unfold generateSQL. rewrite Hs, Ha. simpl.
      rewrite Hc. vm_compute. reflexivity.
Qed.

Lemma X_cleanSQL_never_empty_witness :
  cleanSQL (js "  ") = js ";" /\
  validateSQL (cleanSQL (js "  "))
    = Throw (js "Only SELECT queries are allowed").
Proof.
  destruct (proj2 (proj2 (proj2 (X_cleanSQL_never_empty (js "  ")))))
    as (H1 & H2 & _).
  - repeat constructor.
  - split; [exact H1 | exact H2].
Defined.

(** ** The deadline of executeWithTimeout *)

(** X10.  The deadline of a statement is the delay that setTimeout
    applies: the timeout itself when it lies between 1 and 2147483647
    milliseconds, and one millisecond for every other timeout, the
    larger ones included.  On the pools of mysql2 and pg a statement
    that answers before the deadline yields the database's outcome, rows
    or error, after its own duration; one that runs past the deadline
    yields the timeout error at the deadline; in both cases the caller
    waits no longer than the deadline.  On the SQLite connection the
    database's outcome is delivered after the statement's full
    duration, whatever the timeout. *)
Theorem X_deadline_of_executeWithTimeout db sql timeout :
  (dbType db = SQLite ->
   executeWithTimeout db sql timeout
     = (outcome (asyncAll db sql), duration (asyncAll db sql))) /\
  (dbType db <> SQLite ->
   ((duration (asyncAll db sql) < timerDelay timeout)%Z ->
    executeWithTimeout db sql timeout
      = (outcome (asyncAll db sql), duration (asyncAll db sql))) /\
   ((timerDelay timeout < duration (asyncAll db sql))%Z ->
    executeWithTimeout db sql timeout
      = (Throw (js "Query timed out after " ++ numberToString timeout
                  ++ js "ms"),
         timerDelay timeout)) /\
   (snd (executeWithTimeout db sql timeout) <= timerDelay timeout)%Z) /\
  ((1 <= timeout <= 2147483647)%Z -> timerDelay timeout = timeout) /\
  ((timeout < 1 \/ 2147483647 < timeout)%Z -> timerDelay timeout = 1%Z).
Proof.
  split; [apply sqlite_blocks|]. split; [|split].
  - intros Hd.
    unfold executeWithTimeout, asyncAllPromise, race, timerPromise.
    destruct (dbType db); [congruence| |]; cbn [settledAt settledWith];
      (destruct (Z.ltb_spec (timerDelay timeout)
                   (duration (asyncAll db sql)))
         as [Hlt|Hge]; cbn [settledAt settledWith snd];
       (split; [intros; try reflexivity; lia|]);
       (split; [intros; try reflexivity; lia | lia])).
  - apply timerDelay_in_range.
  - intros H. unfold timerDelay.
    destruct (Z.ltb_spec timeout 1), (Z.ltb_spec 2147483647 timeout);
      cbn [orb]; try reflexivity; lia.
Qed.

Lemma X_deadline_witness :
  executeWithTimeout (answering MySQL 45000) (js "SELECT 1;") 30000
    = (Throw (js "Query timed out after " ++ numberToString 30000
                ++ js "ms"), timerDelay 30000) /\
  executeWithTimeout (answering SQLite 45000) (js "SELECT 1;") 30000
    = (Ok [oneRow], 45000%Z) /\
  timerDelay 30000 = 30000%Z /\
  timerDelay 3000000000 = 1%Z.
Proof.
  split; [|split; [|split]].
  - apply (proj1 (proj2 (X_deadline_of_executeWithTimeout
                           (answering MySQL 45000) (js "SELECT 1;") 30000)));
      [discriminate | vm_compute; reflexivity].
  - apply (proj1 (X_deadline_of_executeWithTimeout
                    (answering SQLite 45000) (js "SELECT 1;") 30000)).
    reflexivity.
  - apply (proj1 (proj2 (proj2 (X_deadline_of_executeWithTimeout
                                  (answering MySQL 45000) (js "SELECT 1;")
                                  30000)))).
    lia.
  - apply (proj2 (proj2 (proj2 (X_deadline_of_executeWithTimeout
                                  (answering MySQL 45000) (js "SELECT 1;")
                                  3000000000)))).
    right. lia.
Defined.

(** ** The status of POST /execute *)

Import Http.

(** X11.  For a request that reaches the route (past the rate limiter
    and, when enabled, the authentication), POST /execute answers 400 to
    an empty statement and to one of more than 10000 units.  A statement
    of white space only passes the request validator and is answered 500
    with 'Empty SQL query'.  Of
    the statements that validateSQL rejects, only the one with several
    statements is answered 403, its message being the only one that
    holds the words 'not allowed'; a statement that does not start with
    SELECT or WITH, or that matches a dangerous pattern, is answered
    500.  The answer is 200 only for a statement that, trimmed, passes
    every rule of validateSQL. *)
Theorem X_status_of_execute development stack (sql : jsstring) db env :
  let reply := postExecute development stack (Prim (JStr sql)) db env in
  (sql = [] \/ (10000 < Z.of_nat (List.length sql))%Z ->
   statusOf reply = 400%Z) /\
  (sql <> [] -> (Z.of_nat (List.length sql) <= 10000)%Z ->
   (blank sql ->
    statusOf reply = 500%Z /\ errorOf reply = Some (js "Empty SQL query")) /\
   (nonEmptySegment (trim sql) -> ~ beginsWithKeyword (trim sql) ->
    statusOf reply = 500%Z /\
    errorOf reply = Some (js "Only SELECT queries are allowed")) /\
   (nonEmptySegment (trim sql) -> beginsWithKeyword (trim sql) ->
    dangerous (trim sql) ->
    statusOf reply = 500%Z /\
    errorOf reply
      = Some (js "Query contains potentially dangerous operations")) /\
   (nonEmptySegment (trim sql) -> beginsWithKeyword (trim sql) ->
    ~ dangerous (trim sql) -> severalStatements (trim sql) ->
    statusOf reply = 403%Z /\
    errorOf reply = Some (js "Multiple SQL statements are not allowed")) /\
   (statusOf reply = 200%Z -> passesAllRules (trim sql))).
Proof.
  cbv zeta. unfold postExecute, validateSQLRequest. split.
  - intros [-> | Hlen]; [reflexivity|].
    destruct (Nat.eqb (List.length sql) 0); [reflexivity|].
    apply Z.ltb_lt in Hlen. rewrite Hlen. reflexivity.
  - intros Hne Hlen.
    replace (Nat.eqb (List.length sql) 0) with false
      by (destruct sql; [congruence | reflexivity]).
    replace (10000 <? Z.of_nat (List.length sql))%Z with false
      by (symmetry; apply Z.ltb_ge; exact Hlen).
    pose proof (empty_check_iff (trim sql)) as H1.
    pose proof (keyword_check_iff (trim sql)) as H2.
    pose proof (dangerous_patterns_iff (trim sql)) as H3.
    pose proof (statements_check_iff (trim sql)) as H4.
    split.
    { intros Hb. rewrite (trim_blank _ Hb). split; vm_compute; reflexivity. }
    unfold executeSQL, validateSQL, passesAllRules.
    destruct (_ || _);
      [|destruct (_ && _);
        [|destruct (List.existsb _ _);
          [|destruct (Nat.ltb 1 _)]]]; cbn [bind].
    5:{ repeat split; intros;
          try (exfalso; intuition congruence); intuition congruence. }
    all: repeat split; intros;
      try (exfalso; intuition congruence);
      try (vm_compute; reflexivity);
      try match goal with
          | H : statusOf _ = 200%Z |- _ => vm_compute in H; discriminate H
          end;
      try intuition congruence.
Qed.

Lemma X_status_of_execute_witness :
  statusOf (postExecute false (js "Error") (Prim (JStr (js "   ")))
              (answering SQLite 5) noSettings) = 500%Z /\
  errorOf (postExecute false (js "Error") (Prim (JStr (js "   ")))
             (answering SQLite 5) noSettings)
    = Some (js "Empty SQL query").
Proof.
  pose proof (X_status_of_execute false (js "Error") (js "   ")
                (answering SQLite 5) noSettings) as H.
  cbv zeta in H. destruct H as [_ H].
  apply H; [discriminate | simpl; lia | repeat constructor].
Defined.


(** ** validateQueryRequest, rule by rule *)

Import QueryRequest.

Lemma isWordChar_ascii c : isWordChar c = true -> c < 128.
Proof.
  unfold isWordChar, isDigit. intros H.
  repeat (apply orb_true_iff in H; destruct H as [H|H]);
    try (apply andb_true_iff in H; destruct H as [_ H];
         apply N.leb_le in H; lia).
  apply N.eqb_eq in H. lia.
Qed.

(** The class [\w] holds exactly the word characters. *)
Lemma inClass_wordUnits c : inClass (OneOf wordUnits) c = isWordChar c.
Proof.
  cbn [inClass]. destruct (isWordChar c) eqn:E.
  - apply List.existsb_exists. exists c. split; [|apply N.eqb_refl].
    change wordUnits
      with (List.filter isWordChar (List.map N.of_nat (List.seq 0 128))).
    apply List.filter_In. split; [|exact E].
    apply List.in_map_iff. exists (N.to_nat c).
    split; [apply N2Nat.id|].
    apply List.in_seq. pose proof (isWordChar_ascii c E). lia.
  - apply not_true_is_false. intros H.
    apply List.existsb_exists in H. destruct H as (x & Hin & Hx).
    apply N.eqb_eq in Hx. subst x.
    change wordUnits
      with (List.filter isWordChar (List.map N.of_nat (List.seq 0 128)))
      in Hin.
    apply List.filter_In in Hin. destruct Hin as [_ Hin]. congruence.
Qed.

(** A literal of ASCII units under the i flag matches exactly where the
    text occurs in any case. *)
Lemma lit_pattern_iff (kw : string) q :
  List.forallb (fun k => k <? 128) (js kw) = true -> js kw <> [] ->
  MatchesIn (mkRegExp (lit kw) true) q <-> occursIgnoringCase kw q.
Proof.
  intros HA Hne. split.
  - intros (pre & m & post & p' & -> & HM). cbn [source ignoreCase] in HM.
    apply (Matches_lit_inv kw) in HM; [|exact HA | exact Hne].
    destruct HM as (w & E & _ & Hw).
    exists pre, w, post. rewrite E. split; [reflexivity | exact Hw].
  - intros (pre & w & post & -> & Hw).
    exists pre, w, post, (lastUnit (lastUnit None pre) w).
    split; [reflexivity|]. cbn [source ignoreCase].
    apply Matches_lit; assumption.
Qed.

Lemma spells_equals e : spells "=" e -> e = js "=".
Proof.
  unfold spells, sameIgnoringCase. change (js "=") with [61].
  destruct e as [|c [|? ?]]; try discriminate.
  intros [= H]. f_equal. change (foldCase 61) with 61 in H.
  unfold foldCase in H.
  destruct ((97 <=? c) && (c <=? 122)) eqn:E.
  - apply andb_true_iff in E. destruct E as [E1 E2].
    apply N.leb_le in E1. apply N.leb_le in E2. lia.
  - symmetry. exact H.
Qed.

Lemma handler_pattern_iff q : MatchesIn pat_handler q <-> handlerShape q.
Proof.
  split.
  - intros (pre & m & post & p' & -> & HM).
    unfold pat_handler in HM. cbn [source ignoreCase] in HM.
    apply Matches_seqs_inv in HM. destruct HM as (p1 & s1 & H1 & HM).
    apply (Matches_lit_inv "on") in H1; [|reflexivity | discriminate].
    destruct H1 as (o & E & -> & Ho).
    apply Matches_seqs_inv in HM. destruct HM as (p2 & s2 & H2 & HM).
    apply Matches_plus_class_inv in H2.
    destruct H2 as (w & Hne & -> & -> & Hw).
    apply Matches_seqs_inv in HM. destruct HM as (p3 & s3 & H3 & HM).
    apply Matches_star_class_inv in H3. destruct H3 as (ws & -> & -> & Hws).
    apply Matches_seqs_inv in HM. destruct HM as (p4 & s4 & H4 & HM).
    apply (Matches_lit_inv "=") in H4; [|reflexivity | discriminate].
    destruct H4 as (e & -> & -> & He). apply spells_equals in He. subst e.
    apply Matches_seqs_nil_inv in HM. destruct HM as [_ <-].
    exists pre, o, w, ws, post. rewrite E.
    split; [reflexivity|]. split; [exact Ho|]. split; [exact Hne|].
    split; [|exact Hws].
    eapply List.Forall_impl; [|exact Hw].
    intros c Hc. cbv beta in Hc. rewrite <- inClass_wordUnits. exact Hc.
  - intros (pre & o & w & ws & post & -> & Ho & Hne & Hw & Hws).
    exists pre, (o ++ w ++ ws ++ js "="), post. eexists.
    split; [rewrite <- !List.app_assoc; reflexivity|].
    unfold pat_handler. cbn [source ignoreCase]. rewrite <- !List.app_assoc.
    eapply Matches_seqs_cons;
      [apply (Matches_lit "on"); [reflexivity | discriminate | exact Ho]|].
    eapply Matches_seqs_cons.
    { apply Matches_plus_class; [exact Hne|].
      eapply List.Forall_impl; [|exact Hw].
      intros c Hc. cbv beta. rewrite inClass_wordUnits. exact Hc. }
    eapply Matches_seqs_cons; [apply Matches_star_class; exact Hws|].
    eapply Matches_seqs_cons;
      [apply (Matches_lit "="); [reflexivity | discriminate | reflexivity]|].
    constructor.
Qed.

Lemma Matches_Char_inv ic c p s p' s' :
  Matches ic (Char c) p s p' s' ->
  exists x, s = x :: s' /\ p' = Some x /\ unitMatches ic c x = true.
Proof. inversion 1; subst. eauto. Qed.

Lemma nul_pattern_iff q : MatchesIn pat_nul q <-> List.In 0 q.
Proof.
  split.
  - intros (pre & m & post & p' & -> & HM). cbn [source ignoreCase] in HM.
    apply Matches_Char_inv in HM. destruct HM as (x & E & _ & Hx).
    unfold unitMatches in Hx. apply N.eqb_eq in Hx. subst x.
    apply List.in_or_app. right. rewrite E. left. reflexivity.
  - intros H. apply List.in_split in H. destruct H as (pre & post & ->).
    exists pre, [0], post, (Some 0). split; [reflexivity|].
    cbn [source ignoreCase]. apply (M_Char false 0 0). reflexivity.
Qed.

Lemma suspicious_patterns_iff q :
  List.existsb (fun pattern => test pattern q) SUSPICIOUS_PATTERNS = true
  <-> suspicious q.
Proof.
  rewrite List.existsb_exists. unfold suspicious. split.
  - intros (pat & Hin & HM). apply test_MatchesIn in HM.
    simpl in Hin. destruct Hin as [<-|[<-|[<-|[<-|[]]]]].
    + left. apply (lit_pattern_iff "<script"); [reflexivity | discriminate|].
      exact HM.
    + right. left.
      apply (lit_pattern_iff "javascript:"); [reflexivity | discriminate|].
      exact HM.
    + right. right. left. apply handler_pattern_iff. exact HM.
    + right. right. right. apply nul_pattern_iff. exact HM.
  - intros [H|[H|[H|H]]].
    + exists pat_script. split; [in_list|]. apply test_MatchesIn.
      apply (lit_pattern_iff "<script"); [reflexivity | discriminate|].
      exact H.
    + exists pat_javascript. split; [in_list|]. apply test_MatchesIn.
      apply (lit_pattern_iff "javascript:"); [reflexivity | discriminate|].
      exact H.
    + exists pat_handler. split; [in_list|]. apply test_MatchesIn.
      apply handler_pattern_iff. exact H.
    + exists pat_nul. split; [in_list|]. apply test_MatchesIn.
      apply nul_pattern_iff. exact H.
Qed.

Lemma printable_not_space c : 33 <= c -> c < 160 -> isWhiteSpace c = false.
Proof.
  intros H1 H2. unfold isWhiteSpace.
  repeat match goal with
         | |- context [?a =? ?b] =>
             replace (a =? b) with false by (symmetry; apply N.eqb_neq; lia)
         end.
  replace (8192 <=? c) with false by (symmetry; apply N.leb_gt; lia).
  reflexivity.
Qed.

Lemma isWhiteSpace_foldCase c : isWhiteSpace (foldCase c) = isWhiteSpace c.
Proof.
  unfold foldCase. destruct ((97 <=? c) && (c <=? 122)) eqn:E; [|reflexivity].
  apply andb_true_iff in E. destruct E as [E1 E2].
  apply N.leb_le in E1. apply N.leb_le in E2.
  rewrite !printable_not_space by lia. reflexivity.
Qed.

(** A text that spells a keyword beginning with a visible character is
    not made of white space. *)
Lemma spells_not_blank (kw : string) k0 rest w :
  js kw = k0 :: rest -> isWhiteSpace (foldCase k0) = false ->
  spells kw w -> forall pre post, ~ blank (pre ++ w ++ post).
Proof.
  unfold spells, sameIgnoringCase. intros -> Hk Hs pre post Hb.
  destruct w as [|c w]; [discriminate Hs|]. injection Hs as Hc _.
  unfold blank in Hb. rewrite List.Forall_forall in Hb.
  specialize (Hb c). rewrite <- isWhiteSpace_foldCase, <- Hc, Hk in Hb.
  assert (false = true); [|discriminate].
  apply Hb. apply List.in_or_app. right. left. reflexivity.
Qed.

Lemma blank_not_suspicious q : blank q -> ~ suspicious q.
Proof.
  intros Hb [H|[H|[H|H]]].
  - destruct H as (pre & w & post & -> & Hw).
    exact (spells_not_blank "<script" _ _ w eq_refl eq_refl Hw pre post Hb).
  - destruct H as (pre & w & post & -> & Hw).
    exact (spells_not_blank "javascript:" _ _ w eq_refl eq_refl Hw pre post
             Hb).
  - destruct H as (pre & o & w & ws & post & -> & Ho & _).
    exact (spells_not_blank "on" _ _ o eq_refl eq_refl Ho pre _ Hb).
  - unfold blank in Hb. rewrite List.Forall_forall in Hb.
    specialize (Hb 0 H). discriminate Hb.
Qed.

Lemma includes_item_iff x (l : list jsstring) :
  List.existsb (jsstring_eqb x) l = true <-> List.In x l.
Proof.
  rewrite List.existsb_exists. unfold jsstring_eqb. split.
  - intros (y & Hin & Hy). apply bool_decide_eq_true in Hy. subst. exact Hin.
  - intros Hin. exists x. split; [exact Hin|].
    apply bool_decide_eq_true. reflexivity.
Qed.

(** The check of the database type lets through exactly the known
    types. *)
Lemma dbType_check_iff (dbType : field) (q' x : jsstring) :
  match dbType with
  | Prim (JStr d) =>
      if negb (Nat.eqb (List.length d) 0)
         && negb (List.existsb (jsstring_eqb (toLowerCase d))
                    VALID_DB_TYPES)
      then Ok (Answer 400
                 (js "Invalid database type. Must be one of: "
                    ++ join (js ", ") VALID_DB_TYPES))
      else Ok (Next x)
  | other =>
      if truthyField other
      then Throw (js "dbType.toLowerCase is not a function")
      else Ok (Next x)
  end = Ok (Next q')
  <-> knownDbType dbType /\ q' = x.
Proof.
  unfold knownDbType.
  destruct dbType as [[| |b|z|d]|]; cbn [truthyField truthy].
  1,2: split; [intros [= ->]; split; [left|]; reflexivity
              | intros [_ ->]; reflexivity].
  - destruct b; split; try discriminate;
      try (intros [= ->]; split; [left|]; reflexivity);
      try (intros [_ ->]; reflexivity).
    intros [[H|(d & H & _)] _]; discriminate H.
  - destruct (negb (z =? 0)%Z) eqn:E; split; try discriminate;
      try (intros [= ->]; split; [left|]; reflexivity);
      try (intros [_ ->]; reflexivity).
    intros [[H|(d & H & _)] _]; discriminate H.
  - destruct (Nat.eqb (List.length d) 0) eqn:E; cbn [negb andb].
    + split; [intros [= ->]; split; [left|]; reflexivity
             | intros [_ ->]; reflexivity].
    + destruct (List.existsb _ _) eqn:Ei; cbn [negb].
      * apply includes_item_iff in Ei.
        split; [intros [= ->]; split; [right; eauto | reflexivity]
               | intros [_ ->]; reflexivity].
      * split; [discriminate|].
        intros [[H|(d' & [= <-] & Hin)] _]; [discriminate H|].
        apply includes_item_iff in Hin. congruence.
  - split; [discriminate|].
    intros [[H|(d & H & _)] _]; discriminate H.
Qed.

(** X12.  validateQueryRequest hands a question on exactly when it is a
    non-empty text of at most 1000 units that is not suspicious (no
    '<script' and no 'javascript:' in any case, no event-handler shape,
    no NUL unit) and the database type is absent or, in lower case, one
    of the valid types; the question stored in the body is then the
    trimmed one.  A suspicious question of admissible length is answered
    400.  A question of white space only is handed on, as the empty
    text. *)
Theorem X_validateQueryRequest_decides (q : jsstring) (dbType : field) :
  (forall q',
     validateQueryRequest (Prim (JStr q)) dbType = Ok (Next q') <->
     q <> [] /\ (Z.of_nat (List.length q) <= MAX_QUESTION_LENGTH)%Z /\
     ~ suspicious q /\ knownDbType dbType /\ q' = trim q) /\
  (q <> [] -> (Z.of_nat (List.length q) <= MAX_QUESTION_LENGTH)%Z ->
   suspicious q ->
   validateQueryRequest (Prim (JStr q)) dbType
     = Ok (Answer 400 (js "Invalid characters detected in question"))) /\
  (q <> [] -> (Z.of_nat (List.length q) <= MAX_QUESTION_LENGTH)%Z ->
   blank q -> knownDbType dbType ->
   validateQueryRequest (Prim (JStr q)) dbType = Ok (Next [])).
Proof.
  pose proof (suspicious_patterns_iff q) as Hs.
  assert (Hmain : forall q',
            validateQueryRequest (Prim (JStr q)) dbType = Ok (Next q') <->
            q <> [] /\ (Z.of_nat (List.length q) <= MAX_QUESTION_LENGTH)%Z /\
            ~ suspicious q /\ knownDbType dbType /\ q' = trim q).
  { intros q'. unfold validateQueryRequest.
    destruct (Nat.eqb (List.length q) 0) eqn:E0.
    { split; [discriminate|]. intros [Hne _].
      destruct q; [congruence | discriminate E0]. }
    destruct (Z.ltb_spec MAX_QUESTION_LENGTH (Z.of_nat (List.length q)))
      as [Hlt|Hle].
    { split; [discriminate|]. intros (_ & Hle & _). lia. }
    destruct (List.existsb _ SUSPICIOUS_PATTERNS) eqn:Ex.
    { split; [discriminate|]. intros (_ & _ & Hn & _).
      exfalso. apply Hn. apply Hs. reflexivity. }
    rewrite dbType_check_iff.
    assert (q <> []) by (destruct q; [discriminate E0 | discriminate]).
    assert (~ suspicious q) by (rewrite <- Hs; discriminate).
    tauto. }
  split; [exact Hmain|]. split.
  - intros Hne Hle Hsus. unfold validateQueryRequest.
    replace (Nat.eqb (List.length q) 0) with false
      by (destruct q; [congruence | reflexivity]).
    replace (MAX_QUESTION_LENGTH <? Z.of_nat (List.length q))%Z with false
      by (symmetry; apply Z.ltb_ge; exact Hle).
    rewrite (proj2 Hs Hsus). reflexivity.
  - intros Hne Hle Hb Hk. apply Hmain.
    split; [exact Hne|]. split; [exact Hle|].
    split; [apply blank_not_suspicious; exact Hb|].
    split; [exact Hk|]. symmetry. apply trim_blank. exact Hb.
Qed.

Lemma X_validateQueryRequest_witness :
  validateQueryRequest (Prim (JStr (js "sales where month = 5")))
    (Prim (JStr (js "SQLite")))
    = Ok (Answer 400 (js "Invalid characters detected in question")) /\
  validateQueryRequest (Prim (JStr (js "  "))) (Prim JUndefined)
    = Ok (Next []).
Proof.
  split.
  - apply (proj1 (proj2 (X_validateQueryRequest_decides
                           (js "sales where month = 5")
                           (Prim (JStr (js "SQLite")))))).
    + discriminate.
    + vm_compute. discriminate.
    + right. right. left.
      exists (js "sales where m"), (js "on"), (js "th"), (js " "), (js " 5").
      split; [reflexivity|]. split; [reflexivity|].
      split; [discriminate|]. split; repeat constructor.
  - apply (proj2 (proj2 (X_validateQueryRequest_decides
                           (js "  ") (Prim JUndefined)))).
    + discriminate.
    + vm_compute. discriminate.
    + repeat constructor.
    + left. reflexivity.
Defined.


(** ** The limit of GET /history *)

Import HistoryRoute.

(** X13.  The handler of GET /history, without success filter, shows the
    most recent entries: as many as a positive limit says, 100 when the limit is
    absent, not a number or 0.  A negative limit is no bound: with limit
    [-n] every entry is shown except the [n] oldest. *)
Theorem X_history_route_limit dateOf (limit : option Z)
  (h : list QueryHistory.entry) :
  (forall n, limit = Some n -> (0 < n)%Z ->
     getHistoryRoute dateOf limit None h = List.firstn (Z.to_nat n) h) /\
  (limit = None \/ limit = Some 0%Z ->
     getHistoryRoute dateOf limit None h = List.firstn 100 h) /\
  (forall n, limit = Some n -> (n < 0)%Z ->
     getHistoryRoute dateOf limit None h
       = List.firstn (List.length h - Z.to_nat (- n)) h /\
     List.length (getHistoryRoute dateOf limit None h)
       = (List.length h - Z.to_nat (- n))%nat).
Proof.
  unfold getHistoryRoute, getHistory, slice0. cbn [h_success h_since h_until h_limit].
  split; [|split].
  - intros n -> Hn. unfold num_or.
    replace (n =? 0)%Z with false by (symmetry; apply Z.eqb_neq; lia).
    replace (n =? 0)%Z with false by (symmetry; apply Z.eqb_neq; lia).
    replace (n <? 0)%Z with false by (symmetry; apply Z.ltb_ge; lia).
    reflexivity.
  - intros [-> | ->]; reflexivity.
  - intros n -> Hn. unfold num_or.
    replace (n =? 0)%Z with false by (symmetry; apply Z.eqb_neq; lia).
    replace (n =? 0)%Z with false by (symmetry; apply Z.eqb_neq; lia).
    replace (n <? 0)%Z with true by (symmetry; apply Z.ltb_lt; lia).
    replace (Z.to_nat (Z.max (Z.of_nat (List.length h) + n) 0))
      with (List.length h - Z.to_nat (- n))%nat by lia.
    split; [reflexivity|]. rewrite List.length_firstn. lia.
Qed.

Lemma X_history_route_limit_witness :
  List.length (getHistoryRoute (fun _ => None) (Some (-1)%Z) None fullStore)
    = (List.length fullStore - Z.to_nat (- (-1)))%nat.
Proof.
  apply (proj2 (proj2 (X_history_route_limit (fun _ => None) (Some (-1)%Z)
                         fullStore)) (-1)%Z); [reflexivity | lia].
Defined.

(** ** Every executed statement has a LIMIT clause *)

Import Dispatch.


(** Number::toString on integers: plain digits below 1e21, the exponent
    form from there on, and beyond 2^53 the shortest digits that read
    back as the same number. *)
Lemma numberToString_examples :
  numberToString 1000 = js "1000" /\
  numberToString (-5) = js "-5" /\
  numberToString (2 ^ 53 + 1) = js "9007199254740992" /\
  numberToString (2 ^ 64) = js "18446744073709552000" /\
  numberToString (10 ^ 21 - 1) = js "1e+21" /\
  numberToString (10 ^ 21) = js "1e+21" /\
  numberToString (15 * 10 ^ 20) = js "1.5e+21" /\
  numberToString (2 ^ 70) = js "1.1805916207174113e+21".
Proof. vm_compute. repeat split. Qed.






(** ** One set of database types *)


(** X15.  The database types that the request validator accepts are
    exactly those for which initDatabase selects a factory, in any case
    of the letters; for each of them getExplainPlan builds the statement
    of that database (EXPLAIN QUERY PLAN for SQLite, EXPLAIN for MySQL,
    EXPLAIN (FORMAT JSON) for PostgreSQL) from a statement that
    validateSQL accepts and delivers what the database answers to it.  A
    statement that validateSQL rejects is rejected with the same error,
    whatever the database type. *)
Theorem X_database_types_agree (d : jsstring) :
  (List.In (toLowerCase d) VALID_DB_TYPES
   <-> exists drv, initDatabase (Some d) = Ok drv) /\
  (forall drv sql db,
     initDatabase (Some d) = Ok drv -> validateSQL sql = Ok true ->
     getExplainPlan sql db (Some d)
       = outcome
           (asyncAll db
              (match drv with
               | SQLite => js "EXPLAIN QUERY PLAN "
               | MySQL => js "EXPLAIN "
               | Postgres => js "EXPLAIN (FORMAT JSON) "
               end ++ sql))) /\
  (forall sql db message,
     validateSQL sql = Throw message ->
     getExplainPlan sql db (Some d) = Throw message).
Proof.
  unfold getExplainPlan, explainSQL, initDatabase, jsstring_eqb,
    VALID_DB_TYPES.
  cbn [default option_rect from_option id]. set (t := toLowerCase d).
  split; [|split].
  - cbn [List.In]. repeat case_bool_decide; cbn [orb];
      split; intros Hx; eauto; try (destruct Hx as [? Hx]; discriminate Hx).
    destruct Hx as [Hx|[Hx|[Hx|[Hx|[]]]]]; congruence.
  - intros drv sql db Hi Hv. rewrite Hv. cbn [bind].
    repeat case_bool_decide; cbn [orb] in *;
      try (injection Hi as <-; reflexivity); discriminate Hi.
  - intros sql db message ->. reflexivity.
Qed.

Lemma X_database_types_witness :
  getExplainPlan (js "SELECT 1;") (answering Postgres 3)
    (Some (js "PostgreSQL"))
  = outcome (asyncAll (answering Postgres 3)
               (js "EXPLAIN (FORMAT JSON) " ++ js "SELECT 1;")).
Proof.
  apply (proj1 (proj2 (X_database_types_agree (js "PostgreSQL")))
           Postgres (js "SELECT 1;") (answering Postgres 3));
    vm_compute; reflexivity.
Defined.


(** ** The retry loop of callGroq *)

Import Groq.







(** ** sanitizeOutput *)

Import Sanitize.

Lemma substitute_app c repl a b :
  substitute c repl (a ++ b) = substitute c repl a ++ substitute c repl b.
Proof. apply List.flat_map_app. Qed.

Lemma substitute_absent c repl s :
  ~ List.In c s -> substitute c repl s = s.
Proof.
  induction s as [|x s IH]; intros Hn; [reflexivity|].
  unfold substitute in *. cbn [List.flat_map].
  destruct (N.eqb_spec c x) as [->|Hne].
  - exfalso. apply Hn. left. reflexivity.
  - rewrite IH; [reflexivity|]. intros Hin. apply Hn. right. exact Hin.
Qed.

Lemma search_char_spec c : forall s prev before,
  match search (mkRegExp (Char c) false) prev before s with
  | None => ~ List.In c s
  | Some (b, m, a) =>
      exists b', b = List.rev before ++ b' /\ m = [c] /\
                 s = b' ++ c :: a /\ ~ List.In c b'
  end.
Proof.
  induction s as [|x s IH]; intros prev before.
  - simpl. intros [].
  - cbn [search matchHere mt source ignoreCase unitMatches].
    destruct (N.eqb_spec c x) as [<-|Hne].
    + exists []. rewrite List.app_nil_r.
      split; [reflexivity|]. split.
      * replace (List.length (c :: s) - List.length s)%nat with 1%nat
          by (cbn [List.length]; lia).
        reflexivity.
      * split; [reflexivity | intros []].
    + specialize (IH (Some x) (x :: before)).
      destruct (search _ (Some x) (x :: before) s) as [[[b m] a]|].
      * destruct IH as (b' & -> & -> & -> & Hn).
        exists (x :: b'). cbn [List.rev]. rewrite <- List.app_assoc.
        split; [reflexivity|]. split; [reflexivity|].
        split; [reflexivity|].
        intros [E|Hin]; [apply Hne; symmetry; exact E | exact (Hn Hin)].
      * intros [E|Hin]; [apply Hne; symmetry; exact E | exact (IH Hin)].
Qed.

Lemma replaceAll_from_char c repl : forall fuel s prev,
  (List.length s < fuel)%nat ->
  replaceAll_from fuel (mkRegExp (Char c) false) repl prev s
    = substitute c repl s.
Proof.
  induction fuel as [|n IH]; intros s prev Hlen; [lia|].
  cbn [replaceAll_from].
  pose proof (search_char_spec c s prev []) as Hs.
  destruct (search _ prev [] s) as [[[b m] a]|].
  - destruct Hs as (b' & -> & -> & -> & Hn). cbn [List.rev List.app].
    rewrite IH by (rewrite List.length_app in Hlen; cbn in Hlen; lia).
    rewrite substitute_app, (substitute_absent c repl b' Hn).
    unfold substitute at 2. cbn [List.flat_map]. rewrite N.eqb_refl.
    reflexivity.
  - symmetry. apply substitute_absent. exact Hs.
Qed.

(** With the g flag, a pattern of one unit replaces every occurrence of
    the unit. *)
Lemma replaceAll_char c repl s :
  replaceAll (mkRegExp (Char c) false) repl s = substitute c repl s.
Proof. unfold replaceAll. apply replaceAll_from_char. lia. Qed.

Lemma substitute_Forall (P Q : N -> Prop) c repl s :
  List.Forall P repl -> (forall x, Q x -> x <> c -> P x) ->
  List.Forall Q s -> List.Forall P (substitute c repl s).
Proof.
  intros Hr Hq Hs. induction Hs as [|x s Hx _ IH]; [constructor|].
  unfold substitute in *. cbn [List.flat_map]. apply List.Forall_app.
  split; [|exact IH].
  destruct (N.eqb_spec c x) as [->|Hne]; [exact Hr|].
  constructor; [|constructor]. apply Hq; [exact Hx|].
  intros E. apply Hne. symmetry. exact E.
Qed.

Lemma escapeText_substitute s :
  escapeText s
    = substitute 39 (js "&#x27;")
        (substitute 34 (js "&quot;")
           (substitute 62 (js "&gt;") (substitute 60 (js "&lt;") s))).
Proof. unfold escapeText. rewrite !replaceAll_char. reflexivity. Qed.

Lemma special_false_iff x :
  special x = false <-> x <> 60 /\ x <> 62 /\ x <> 34 /\ x <> 39.
Proof.
  unfold special. rewrite !orb_false_iff, !N.eqb_neq. tauto.
Qed.

(** The escaped text holds none of the four units. *)
Lemma escapeText_clean s :
  List.Forall (fun c => special c = false) (escapeText s).
Proof.
  rewrite escapeText_substitute.
  apply (substitute_Forall _ (fun x => x <> 60 /\ x <> 62 /\ x <> 34)).
  { repeat constructor. }
  { intros x H Hx. apply special_false_iff. tauto. }
  apply (substitute_Forall _ (fun x => x <> 60 /\ x <> 62)).
  { repeat constructor; discriminate. }
  { intros x H Hx. tauto. }
  apply (substitute_Forall _ (fun x => x <> 60)).
  { repeat constructor; discriminate. }
  { intros x H Hx. tauto. }
  apply (substitute_Forall _ (fun _ => True)).
  { repeat constructor; discriminate. }
  { intros x _ Hx. exact Hx. }
  apply List.Forall_forall. intros; exact I.
Qed.

(** A text without the four units is left as it is. *)
Lemma escapeText_fixed s :
  List.Forall (fun c => special c = false) s -> escapeText s = s.
Proof.
  intros H. rewrite List.Forall_forall in H.
  assert (Hn : forall c, special c = true -> ~ List.In c s).
  { intros c Hc Hin. specialize (H c Hin). congruence. }
  rewrite escapeText_substitute.
  rewrite (substitute_absent 60) by (apply Hn; reflexivity).
  rewrite (substitute_absent 62) by (apply Hn; reflexivity).
  rewrite (substitute_absent 34) by (apply Hn; reflexivity).
  apply substitute_absent. apply Hn. reflexivity.
Qed.

(** Induction over the values, arrays and objects included. *)
Lemma data_induction (P : data -> Prop) :
  (forall s, P (DStr s)) ->
  (forall items, List.Forall P items -> P (DArr items)) ->
  (forall entries,
     List.Forall (fun kv => P (snd kv)) entries -> P (DObj entries)) ->
  (forall v, P (DScalar v)) ->
  forall d, P d.
Proof.
  intros Hs Ha Ho Hv.
  fix IH 1. intros [s|items|entries|v].
  - apply Hs.
  - apply Ha. induction items as [|x items IHi]; constructor;
      [apply IH | exact IHi].
  - apply Ho. induction entries as [|[k x] entries IHe]; constructor;
      [apply IH | exact IHe].
  - apply Hv.
Qed.

(** X17.  In the value that sanitizeOutput returns no text holds [<],
    [>], a double or a single quote, at any depth of arrays and objects;
    sanitizing a second time changes nothing; a text without these
    units is returned as it is.  Property names are copied as they are,
    without replacement; only the name [__proto__] is dropped. *)
Theorem X_sanitizeOutput_cleans (d : data) :
  textsClean (sanitizeOutput d) /\
  sanitizeOutput (sanitizeOutput d) = sanitizeOutput d /\
  keysOfData (sanitizeOutput d) = List.filter ownKey (keysOfData d) /\
  (forall s, d = DStr s -> List.Forall (fun c => special c = false) s ->
             sanitizeOutput d = d).
Proof.
  split; [|split; [|split]].
  - induction d as [s|items IH|entries IH|v] using data_induction.
    + apply escapeText_clean.
    + cbn [sanitizeOutput textsClean].
      induction IH as [|x items Hx _ IHi]; [exact I|].
      cbn [List.map]. split; [exact Hx | exact IHi].
    + cbn [sanitizeOutput textsClean].
      induction IH as [|[k x] entries Hx _ IHe]; [exact I|].
      destruct (ownKey k); [|exact IHe].
      split; [exact Hx | exact IHe].
    + exact I.
  - induction d as [s|items IH|entries IH|v] using data_induction.
    + cbn [sanitizeOutput]. f_equal. apply escapeText_fixed.
      apply escapeText_clean.
    + cbn [sanitizeOutput]. f_equal. rewrite List.map_map.
      induction IH as [|x items Hx _ IHi]; [reflexivity|].
      cbn [List.map]. rewrite Hx, IHi. reflexivity.
    + cbn [sanitizeOutput]. f_equal.
      induction IH as [|[k x] entries Hx _ IHe]; [reflexivity|].
      destruct (ownKey k) eqn:Ek; [|exact IHe].
      rewrite Ek. cbn [snd] in Hx. rewrite Hx, IHe. reflexivity.
    + reflexivity.
  - destruct d as [s|items|entries|v]; try reflexivity.
    cbn [sanitizeOutput keysOfData].
    induction entries as [|[k x] entries IHe]; [reflexivity|].
    cbn [List.map List.filter fst]. destruct (ownKey k); [|exact IHe].
    cbn [List.map fst]. rewrite IHe. reflexivity.
  - intros s -> Hs. cbn [sanitizeOutput]. f_equal.
    apply escapeText_fixed. exact Hs.
Qed.

Lemma X_sanitizeOutput_witness :
  sanitizeOutput (DStr (js "Chai")) = DStr (js "Chai").
Proof.
  apply (proj2 (proj2 (proj2 (X_sanitizeOutput_cleans (DStr (js "Chai")))))
           (js "Chai") eq_refl).
  repeat constructor.
Defined.

(** ** The anchor of cleanSQLResponse *)

Import Anchor.

Lemma startsWith_app p rest : startsWith p (p ++ rest) = true.
Proof.
  induction p as [|a p IH]; [reflexivity|]. simpl.
  rewrite N.eqb_refl. exact IH.
Qed.

Lemma startsWith_inv p : forall s,
  startsWith p s = true -> exists rest, s = p ++ rest.
Proof.
  induction p as [|a p IH]; intros s H; [exists s; reflexivity|].
  destruct s as [|b s]; [discriminate H|]. simpl in H.
  apply andb_true_iff in H. destruct H as [Hab H].
  apply N.eqb_eq in Hab. subst b.
  destruct (IH s H) as (rest & ->). exists rest. reflexivity.
Qed.

Lemma indexOf_found p : forall s i,
  indexOf p s = Some i -> exists rest, List.skipn i s = p ++ rest.
Proof.
  induction s as [|x s IH]; intros i H.
  - simpl in H. destruct (startsWith p []) eqn:E; [|discriminate H].
    injection H as <-. apply startsWith_inv. exact E.
  - cbn [indexOf] in H. destruct (startsWith p (x :: s)) eqn:E.
    + injection H as <-. apply startsWith_inv. exact E.
    + destruct (indexOf p s) as [j|] eqn:Ej; [|discriminate H].
      injection H as <-. apply (IH j). reflexivity.
Qed.

Lemma indexOf_occurs p a : forall pre, indexOf p (pre ++ p ++ a) <> None.
Proof.
  induction pre as [|x pre IH].
  - cbn [List.app]. destruct (p ++ a) eqn:E; cbn [indexOf];
      rewrite <- E, startsWith_app; discriminate.
  - cbn [List.app indexOf]. destruct (startsWith p _); [discriminate|].
    destruct (indexOf p (pre ++ p ++ a)); [discriminate | congruence].
Qed.

Lemma trimStart_app_keep y Y : forall X,
  isWhiteSpace y = false ->
  exists X', trimStart (X ++ y :: Y) = X' ++ y :: Y.
Proof.
  induction X as [|x X IH]; intros Hy.
  - exists []. simpl. rewrite Hy. reflexivity.
  - cbn [List.app trimStart]. destruct (isWhiteSpace x).
    + apply IH. exact Hy.
    + exists (x :: X). reflexivity.
Qed.

Lemma isWordChar_not_space c : isWordChar c = true -> isWhiteSpace c = false.
Proof.
  intros H. apply printable_not_space.
  - unfold isWordChar, isDigit in H.
    repeat (apply orb_true_iff in H; destruct H as [H|H]);
      try (apply andb_true_iff in H; destruct H as [H _];
           apply N.leb_le in H; lia).
    apply N.eqb_eq in H. lia.
  - pose proof (isWordChar_ascii c H). lia.
Qed.

(** Trimming keeps a word at the start of a text. *)
Lemma trim_keeps_word (kw : string) w t :
  keyword kw = true -> spells kw w -> exists t', trim (w ++ t) = w ++ t'.
Proof.
  intros Hk Hs.
  pose proof (sameIgnoringCase_nonempty _ _ (keyword_nonempty _ Hk) Hs) as Hne.
  pose proof (sameIgnoringCase_head _ _ Hs) as Hh.
  rewrite (keyword_head _ Hk) in Hh.
  pose proof (sameIgnoringCase_last (js kw) w None None
                (keyword_nonempty _ Hk) Hs) as Hl.
  rewrite (keyword_last kw None Hk) in Hl.
  unfold trim, trimEnd.
  assert (H1 : trimStart (w ++ t) = w ++ t).
  { destruct w as [|c w]; [congruence|]. cbn [List.app trimStart].
    cbn [List.head isWordAt] in Hh.
    rewrite (isWordChar_not_space c Hh). reflexivity. }
  rewrite H1, List.rev_app_distr.
  rewrite lastUnit_head in Hl.
  destruct (List.rev w) as [|y Y] eqn:E.
  { exfalso. apply Hne. apply (f_equal (@List.rev N)) in E.
    rewrite List.rev_involutive in E. exact E. }
  cbn [List.head isWordAt] in Hl.
  destruct (trimStart_app_keep y Y (List.rev t) (isWordChar_not_space y Hl))
    as (X' & ->).
  exists (List.rev X'). rewrite List.rev_app_distr, <- E, List.rev_involutive.
  reflexivity.
Qed.

Lemma upperUnit_capital k : 65 <= k -> k <= 90 -> upperUnit k = [k].
Proof.
  intros H1 H2. unfold upperUnit.
  replace (97 <=? k) with false by (symmetry; apply N.leb_gt; lia).
  replace (224 <=? k) with false by (symmetry; apply N.leb_gt; lia).
  repeat match goal with
         | |- context [k =? ?b] =>
             replace (k =? b) with false by (symmetry; apply N.eqb_neq; lia)
         end.
  reflexivity.
Qed.

Lemma upperUnit_fold c :
  65 <= foldCase c -> foldCase c <= 90 -> upperUnit c = [foldCase c].
Proof.
  unfold foldCase. destruct ((97 <=? c) && (c <=? 122)) eqn:E.
  - intros _ _. unfold upperUnit. rewrite E. reflexivity.
  - intros H1 H2. apply upperUnit_capital; assumption.
Qed.

(** In upper case, a text that spells a word of capital letters is the
    word. *)
Lemma toUpperCase_spells (kw : string) : forall w,
  List.Forall (fun k => 65 <= k /\ k <= 90) (js kw) ->
  spells kw w -> toUpperCase w = js kw.
Proof.
  unfold spells, sameIgnoringCase.
  induction (js kw) as [|k l IH]; intros w HF Hs.
  - destruct w; [reflexivity | discriminate Hs].
  - destruct w as [|c w]; [discriminate Hs|].
    cbn [List.map] in Hs. injection Hs as Hc Hw.
    apply List.Forall_cons_iff in HF. destruct HF as [[Hk1 Hk2] HF].
    assert (Hkk : foldCase k = k).
    { unfold foldCase.
      replace (97 <=? k) with false by (symmetry; apply N.leb_gt; lia).
      reflexivity. }
    unfold toUpperCase in *. cbn [List.flat_map].
    rewrite (IH w HF Hw).
    rewrite upperUnit_fold by (rewrite <- Hc, Hkk; assumption).
    rewrite <- Hc, Hkk. reflexivity.
Qed.

Lemma toUpperCase_app a b :
  toUpperCase (a ++ b) = toUpperCase a ++ toUpperCase b.
Proof. apply List.flat_map_app. Qed.

(** A text that starts with SELECT or WITH in any case passes the
    read-only rule. *)
Lemma beginsWithKeyword_word w t :
  spells "SELECT" w \/ spells "WITH" w -> beginsWithKeyword (w ++ t).
Proof.
  unfold beginsWithKeyword. intros [Hs|Hs].
  - left. destruct (trim_keeps_word "SELECT" w t eq_refl Hs) as (t' & ->).
    rewrite toUpperCase_app, (toUpperCase_spells "SELECT" w);
      [apply startsWith_app | | exact Hs].
    repeat constructor; discriminate.
  - right. destruct (trim_keeps_word "WITH" w t eq_refl Hs) as (t' & ->).
    rewrite toUpperCase_app, (toUpperCase_spells "WITH" w);
      [apply startsWith_app | | exact Hs].
    repeat constructor; discriminate.
Qed.

Lemma anchored_MatchesIn s : anchored s -> MatchesIn re_anchor s.
Proof.
  intros (pre & w & ws & post & -> & Hw & [Hne Hws] & Hpre).
  exists pre, (w ++ ws), post. eexists.
  split; [rewrite <- !List.app_assoc; reflexivity|].
  unfold re_anchor. cbn [source ignoreCase]. rewrite <- !List.app_assoc.
  destruct Hw as [Hw|Hw].
  - eapply Matches_seqs_cons;
      [apply (Matches_WordB_before _ "SELECT"); [reflexivity | exact Hw | exact Hpre]|].
    eapply Matches_seqs_cons.
    { eapply (Matches_alts _ (lit "SELECT")); [left; reflexivity|].
      apply Matches_lit; [reflexivity | discriminate | exact Hw]. }
    eapply Matches_seqs_cons;
      [apply Matches_plus_class; assumption | constructor].
  - eapply Matches_seqs_cons;
      [apply (Matches_WordB_before _ "WITH"); [reflexivity | exact Hw | exact Hpre]|].
    eapply Matches_seqs_cons.
    { eapply (Matches_alts _ (lit "WITH")); [right; left; reflexivity|].
      apply Matches_lit; [reflexivity | discriminate | exact Hw]. }
    eapply Matches_seqs_cons;
      [apply Matches_plus_class; assumption | constructor].
Qed.

(** What the anchor pattern reads: SELECT or WITH in any case, then
    white space. *)
Lemma anchor_match_shape p s p' rest :
  Matches true (source re_anchor) p s p' rest ->
  exists w ws, s = w ++ ws ++ rest /\
               (spells "SELECT" w \/ spells "WITH" w).
Proof.
  unfold re_anchor. cbn [source]. intros HM.
  apply Matches_seqs_inv in HM. destruct HM as (p1 & s1 & HB & HM).
  apply Matches_WordB_inv in HB. destruct HB as (-> & -> & _).
  apply Matches_seqs_inv in HM. destruct HM as (p2 & s2 & HA & HM).
  apply Matches_alts_inv in HA; [|discriminate].
  destruct HA as (r & Hr & HA).
  apply Matches_seqs_inv in HM. destruct HM as (p3 & s3 & HS & HM).
  apply Matches_plus_class_inv in HS. destruct HS as (ws & _ & -> & _ & _).
  apply Matches_seqs_nil_inv in HM. destruct HM as [_ ->].
  destruct Hr as [<-|[<-|[]]].
  - apply (Matches_lit_inv "SELECT") in HA; [|reflexivity | discriminate].
    destruct HA as (w & -> & _ & Hw). exists w, ws. split; [reflexivity|].
    left. exact Hw.
  - apply (Matches_lit_inv "WITH") in HA; [|reflexivity | discriminate].
    destruct HA as (w & -> & _ & Hw). exists w, ws. split; [reflexivity|].
    right. exact Hw.
Qed.

Lemma cleanSQLResponse_unwrapped response :
  cleanSQLResponse response =
  let sql := unwrapped response in
  let sql :=
    match match_ re_anchor sql with
    | Some selectMatch =>
        match indexOf selectMatch sql with
        | Some startIndex => List.skipn startIndex sql
        | None => sql
        end
    | None => sql
    end in
  let sql := trim sql in
  if negb (endsWith (js ";") sql) then sql ++ js ";" else sql.
Proof. reflexivity. Qed.

Lemma star_loop_total {A} (step : option N -> jsstring -> @cont A -> option A)
  (k : @cont A) :
  (forall p s, k p s <> None) ->
  forall n p s, star_loop step k n p s <> None.
Proof.
  intros Hk n p s. destruct n as [|n]; cbn [star_loop]; [apply Hk|].
  destruct (step p s _); [discriminate | apply Hk].
Qed.

(** The greedy run of white space stops only before a unit that is not
    white space. *)
Lemma star_space_greedy ic : forall n p s a,
  star_loop (mt ic (Class Space)) (fun _ rest => Some rest) n p s = Some a ->
  (List.length s <= n)%nat -> startsInSpace a = false.
Proof.
  induction n as [|n IH]; intros p s a H Hn.
  - cbn [star_loop] in H. injection H as <-.
    destruct s; [reflexivity | cbn [List.length] in Hn; lia].
  - cbn [star_loop mt] in H. destruct s as [|x s].
    + injection H as <-. reflexivity.
    + cbn [inClass] in H. destruct (isWhiteSpace x) eqn:Ex.
      * replace (List.length s <? List.length (x :: s))%nat with true in H
          by (symmetry; apply Nat.ltb_lt; cbn [List.length]; lia).
        destruct (star_loop _ _ n (Some x) s) as [b|] eqn:Eb.
        -- injection H as <-. apply (IH _ _ _ Eb).
           cbn [List.length] in Hn. lia.
        -- exfalso. revert Eb. apply star_loop_total. discriminate.
      * injection H as <-. cbn [startsInSpace]. exact Ex.
Qed.

Lemma space_plus_greedy ic p s a :
  mt ic (seqs [space_plus]) p s (fun _ rest => Some rest) = Some a ->
  startsInSpace a = false.
Proof.
  unfold seqs, space_plus, Plus. cbn [List.fold_right mt].
  destruct s as [|x s]; [discriminate|].
  cbn [inClass]. destruct (isWhiteSpace x); [|discriminate].
  intros H. apply (star_space_greedy ic (List.length s) (Some x) s a H).
  lia.
Qed.

(** What a match of the anchor pattern at a position reads: SELECT or
    WITH in any case at the start of a word, then all the white space
    that follows. *)
Lemma anchor_matchHere_shape p s a :
  matchHere re_anchor p s = Some a ->
  exists w ws, s = w ++ ws ++ a /\
    (spells "SELECT" w \/ spells "WITH" w) /\ spacing ws /\
    isWordAt p = false /\ startsInSpace a = false.
Proof.
  unfold matchHere, re_anchor. cbn [source ignoreCase].
  rewrite seqs_cons. cbn [mt]. intros H.
  destruct (xorb (isWordAt p) (isWordAt (List.head s))) eqn:Ex;
    [|discriminate H].
  rewrite seqs_cons in H. cbn [mt] in H.
  apply mt_sound in H. destruct H as (p1 & s1 & HA & H).
  pose proof (space_plus_greedy _ _ _ _ H) as Hg.
  apply mt_sound in H. destruct H as (p2 & s2 & HS & H).
  injection H as E2. subst s2.
  apply Matches_alts_inv in HA; [|discriminate].
  destruct HA as (r & Hr & HA).
  apply Matches_seqs_inv in HS. destruct HS as (p3 & s3 & HS & HM).
  apply Matches_plus_class_inv in HS. destruct HS as (ws & Hne & -> & _ & Hws).
  apply Matches_seqs_nil_inv in HM. destruct HM as [_ E3]. subst s3.
  assert (Hw : exists w, s = w ++ ws ++ a /\
                 (spells "SELECT" w \/ spells "WITH" w) /\
                 isWordAt (List.head s) = true).
  { destruct Hr as [<-|[<-|[]]].
    - apply (Matches_lit_inv "SELECT") in HA; [|reflexivity | discriminate].
      destruct HA as (w & -> & _ & Hw). exists w.
      split; [reflexivity|]. split; [left; exact Hw|].
      pose proof (sameIgnoringCase_head _ _ Hw) as Hh.
      rewrite (keyword_head "SELECT" eq_refl) in Hh.
      pose proof (sameIgnoringCase_nonempty _ _
                    (keyword_nonempty "SELECT" eq_refl) Hw) as Hn.
      destruct w; [congruence | exact Hh].
    - apply (Matches_lit_inv "WITH") in HA; [|reflexivity | discriminate].
      destruct HA as (w & -> & _ & Hw). exists w.
      split; [reflexivity|]. split; [right; exact Hw|].
      pose proof (sameIgnoringCase_head _ _ Hw) as Hh.
      rewrite (keyword_head "WITH" eq_refl) in Hh.
      pose proof (sameIgnoringCase_nonempty _ _
                    (keyword_nonempty "WITH" eq_refl) Hw) as Hn.
      destruct w; [congruence | exact Hh]. }
  destruct Hw as (w & E & Hw & Hh). exists w, ws.
  split; [exact E|]. split; [exact Hw|].
  split; [split; [exact Hne | exact Hws]|].
  split; [|exact Hg].
  rewrite Hh in Ex. destruct (isWordAt p); [discriminate Ex | reflexivity].
Qed.

(** A keyword at the start of a word and followed by white space is read
    by the anchor pattern at that position. *)
Lemma anchor_matches_at pre w ws post :
  spells "SELECT" w \/ spells "WITH" w -> spacing ws ->
  endsInWord pre = false ->
  matchHere re_anchor (lastUnit None pre) (w ++ ws ++ post) <> None.
Proof.
  intros Hw [Hne Hws] Hpre.
  assert (HM : exists p', Matches true (source re_anchor) (lastUnit None pre)
                            (w ++ ws ++ post) p' post).
  { eexists. unfold re_anchor. cbn [source].
    destruct Hw as [Hw|Hw].
    - eapply Matches_seqs_cons;
        [apply (Matches_WordB_before _ "SELECT");
           [reflexivity | exact Hw | exact Hpre]|].
      eapply Matches_seqs_cons.
      { eapply (Matches_alts _ (lit "SELECT")); [left; reflexivity|].
        apply Matches_lit; [reflexivity | discriminate | exact Hw]. }
      eapply Matches_seqs_cons;
        [apply Matches_plus_class; assumption | constructor].
    - eapply Matches_seqs_cons;
        [apply (Matches_WordB_before _ "WITH");
           [reflexivity | exact Hw | exact Hpre]|].
      eapply Matches_seqs_cons.
      { eapply (Matches_alts _ (lit "WITH")); [right; left; reflexivity|].
        apply Matches_lit; [reflexivity | discriminate | exact Hw]. }
      eapply Matches_seqs_cons;
        [apply Matches_plus_class; assumption | constructor]. }
  destruct HM as (p' & HM).
  destruct (matchHere_complete re_anchor _ _ _ _ HM) as (r & ->).
  discriminate.
Qed.

(** indexOf finds the first occurrence. *)
Lemma indexOf_first p : forall s i,
  indexOf p s = Some i ->
  forall pre rest, s = pre ++ p ++ rest -> (i <= List.length pre)%nat.
Proof.
  induction s as [|x s IH]; intros i H pre rest E.
  - cbn [indexOf] in H. destruct (startsWith p []); [|discriminate H].
    injection H as <-. lia.
  - cbn [indexOf] in H. destruct (startsWith p (x :: s)) eqn:Es.
    + injection H as <-. lia.
    + destruct (indexOf p s) as [j|] eqn:Ej; [|discriminate H].
      injection H as <-. destruct pre as [|y pre].
      * cbn [List.app] in E. rewrite E, startsWith_app in Es.
        discriminate Es.
      * cbn [List.app] in E. injection E as _ E.
        cbn [List.length]. pose proof (IH j eq_refl pre rest E). lia.
Qed.

Lemma cleanSQLResponse_terminated response :
  cleanSQLResponse response =
  terminated
    (trim
       match match_ re_anchor (unwrapped response) with
       | Some selectMatch =>
           match indexOf selectMatch (unwrapped response) with
           | Some startIndex => List.skipn startIndex (unwrapped response)
           | None => unwrapped response
           end
       | None => unwrapped response
       end).
Proof. reflexivity. Qed.

(** How cleanSQLResponse cuts: the pattern is read at the leftmost
    position that fits, with all the white space after the keyword, and
    the text is cut at the first place where the text so read occurs. *)
Lemma cleanSQLResponse_cut response :
  anchored (unwrapped response) ->
  exists p w ws a pre rest,
    unwrapped response = p ++ w ++ ws ++ a /\
    (spells "SELECT" w \/ spells "WITH" w) /\ spacing ws /\
    endsInWord p = false /\ startsInSpace a = false /\
    (forall p1 w1 ws1 a1,
       unwrapped response = p1 ++ w1 ++ ws1 ++ a1 ->
       spells "SELECT" w1 \/ spells "WITH" w1 -> spacing ws1 ->
       endsInWord p1 = false -> (List.length p <= List.length p1)%nat) /\
    unwrapped response = pre ++ w ++ ws ++ rest /\
    (forall pre1 rest1,
       unwrapped response = pre1 ++ w ++ ws ++ rest1 ->
       (List.length pre <= List.length pre1)%nat) /\
    cleanSQLResponse response = terminated (trim (w ++ ws ++ rest)).
Proof.
  intros Ha. rewrite cleanSQLResponse_terminated.
  set (s := unwrapped response) in *.
  apply anchored_MatchesIn, test_MatchesIn in Ha.
  unfold Regex.test in Ha. unfold match_.
  destruct (search re_anchor None [] s) as [[[b m] a]|] eqn:Es;
    [|discriminate Ha].
  destruct (search_found _ _ _ _ _ _ _ Es) as (p & _ & Hsplit & Hm & Hleft).
  destruct (anchor_matchHere_shape _ _ _ Hm)
    as (w & ws & Hmw & Hw & Hws & Hp & Hg).
  assert (Em : m = w ++ ws).
  { apply (List.app_inv_tail a). rewrite <- List.app_assoc. exact Hmw. }
  subst m. clear Hmw.
  pose proof (indexOf_occurs (w ++ ws) a p) as Hocc. rewrite <- Hsplit in Hocc.
  destruct (indexOf (w ++ ws) s) as [i|] eqn:Ei; [|congruence].
  destruct (indexOf_found _ _ _ Ei) as (rest & Hrest).
  exists p, w, ws, a, (List.firstn i s), rest.
  split; [rewrite Hsplit, <- List.app_assoc; reflexivity|].
  split; [exact Hw|]. split; [exact Hws|]. split; [exact Hp|].
  split; [exact Hg|]. split.
  { intros p1 w1 ws1 a1 E1 Hw1 Hws1 Hp1.
    destruct (Nat.le_gt_cases (List.length p) (List.length p1)) as [Hle|Hgt];
      [exact Hle|]. exfalso.
    rewrite Hsplit in E1. apply List.app_eq_app in E1.
    destruct E1 as (l & [[E1 E2]|[E1 E2]]).
    - destruct l as [|x l].
      + rewrite List.app_nil_r in E1. subst p1. lia.
      + apply (anchor_matches_at p1 w1 ws1 a1 Hw1 Hws1 Hp1).
        rewrite E2. apply (Hleft p1 (x :: l) E1). discriminate.
    - rewrite E1, List.length_app in Hgt. lia. }
  split.
  { rewrite <- (List.firstn_skipn i s) at 1. rewrite Hrest, <- List.app_assoc.
    reflexivity. }
  split.
  { intros pre1 rest1 E1. rewrite (List.app_assoc w ws rest1) in E1.
    pose proof (indexOf_first _ _ _ Ei _ _ E1) as Hi.
    pose proof (List.firstn_le_length i s). lia. }
  rewrite Hrest, <- List.app_assoc. reflexivity.
Qed.

(** Without a keyword to anchor on, nothing is cut. *)
Lemma cleanSQLResponse_uncut response :
  ~ anchored (unwrapped response) ->
  cleanSQLResponse response = terminated (trim (unwrapped response)).
Proof.
  intros Hn. rewrite cleanSQLResponse_terminated. unfold match_.
  destruct (search re_anchor None [] (unwrapped response))
    as [[[b m] a]|] eqn:Es; [|reflexivity].
  exfalso. apply Hn.
  destruct (search_found _ _ _ _ _ _ _ Es) as (p & _ & Hsplit & Hm & _).
  destruct (anchor_matchHere_shape _ _ _ Hm)
    as (w & ws & Hmw & Hw & Hws & Hp & _).
  exists p, w, ws, a. rewrite Hsplit, Hmw. auto.
Qed.

(** The text is cut at the first place where the text that the pattern
    read occurs, which can lie before the place where the pattern read
    it. *)
Lemma cleanSQLResponse_first_occurrence :
  cleanSQLResponse (js "noSELECT x; SELECT x") = js "SELECT x; SELECT x;".
Proof. vm_compute. reflexivity. Qed.

(** X18.  cleanSQLResponse always yields a text that ends with the
    terminator.  When the response, once trimmed and freed of fences and
    quotes, holds SELECT or WITH at the start of a word and followed by
    white space, the text before the keyword is cut away: the result
    starts with SELECT or WITH (in the case of the response), passes the
    read-only rule, and validateSQL reports it neither as empty nor as
    not being a SELECT; and the result is the response from the keyword
    on: the pattern is read at the leftmost place that fits, with all the
    white space after the keyword, the response is cut where the text so
    read first occurs, and the result is what follows from there,
    trimmed and terminated.  When the response holds no such keyword,
    nothing is cut: the result is the response, trimmed and
    terminated. *)
Theorem X_cleanSQLResponse_anchors (response : jsstring) :
  (exists body, cleanSQLResponse response = body ++ js ";") /\
  (anchored (unwrapped response) ->
   (exists w rest,
      cleanSQLResponse response = w ++ rest /\
      (spells "SELECT" w \/ spells "WITH" w)) /\
   beginsWithKeyword (cleanSQLResponse response) /\
   validateSQL (cleanSQLResponse response)
     <> Throw (js "Empty SQL query") /\
   validateSQL (cleanSQLResponse response)
     <> Throw (js "Only SELECT queries are allowed") /\
   exists p w ws a pre rest,
     unwrapped response = p ++ w ++ ws ++ a /\
     (spells "SELECT" w \/ spells "WITH" w) /\ spacing ws /\
     endsInWord p = false /\ startsInSpace a = false /\
     (forall p1 w1 ws1 a1,
        unwrapped response = p1 ++ w1 ++ ws1 ++ a1 ->
        spells "SELECT" w1 \/ spells "WITH" w1 -> spacing ws1 ->
        endsInWord p1 = false -> (List.length p <= List.length p1)%nat) /\
     unwrapped response = pre ++ w ++ ws ++ rest /\
     (forall pre1 rest1,
        unwrapped response = pre1 ++ w ++ ws ++ rest1 ->
        (List.length pre <= List.length pre1)%nat) /\
     cleanSQLResponse response = terminated (trim (w ++ ws ++ rest))) /\
  (~ anchored (unwrapped response) ->
   cleanSQLResponse response = terminated (trim (unwrapped response))).
Proof.
  assert (Hterm : exists body, cleanSQLResponse response = body ++ js ";").
  { rewrite cleanSQLResponse_unwrapped. cbv zeta.
    destruct (endsWith (js ";") _) eqn:E; cbn [negb].
    - apply endsWith_unit_inv in E. exact E.
    - eexists. reflexivity. }
  split; [exact Hterm|].
  split; [|apply cleanSQLResponse_uncut]. intros Ha.
  pose proof (cleanSQLResponse_cut response Ha) as Hcut.
  assert (Hshape : exists w rest,
             cleanSQLResponse response = w ++ rest /\
             (spells "SELECT" w \/ spells "WITH" w)).
  { destruct Hcut as (p & w & ws & a & pre & rest & _ & Hw & _ & _ & _ & _
                      & _ & _ & ->).
    assert (Hk : exists kw, keyword kw = true /\ spells kw w).
    { destruct Hw as [Hw|Hw];
        [exists "SELECT"%string | exists "WITH"%string];
        (split; [reflexivity | exact Hw]). }
    destruct Hk as (kw & Hk & Hkw).
    destruct (trim_keeps_word kw w (ws ++ rest) Hk Hkw) as (t' & ->).
    unfold terminated.
    destruct (negb _); [rewrite <- List.app_assoc|]; eauto. }
  split; [exact Hshape|].
  destruct Hshape as (w & rest & E & Hw).
  assert (Hb : beginsWithKeyword (cleanSQLResponse response)).
  { rewrite E. apply beginsWithKeyword_word. exact Hw. }
  split; [exact Hb|]. split; [|split; [|exact Hcut]].
  - destruct Hterm as (body & ->). apply validateSQL_not_empty.
    apply List.Exists_app. right. apply List.Exists_cons_hd. reflexivity.
  - unfold validateSQL. apply keyword_check_iff in Hb.
    destruct (_ || _); [vm_compute; discriminate|].
    cbv zeta. rewrite Hb.
    destruct (List.existsb _ _); [vm_compute; discriminate|].
    destruct (Nat.ltb 1 _); [vm_compute; discriminate | discriminate].
Qed.

Lemma X_cleanSQLResponse_witness :
  beginsWithKeyword
    (cleanSQLResponse (js "Sure! SELECT TOP 5 * FROM Products")).
Proof.
  apply (proj1 (proj2 (X_cleanSQLResponse_anchors
                         (js "Sure! SELECT TOP 5 * FROM Products")))).
  exists (js "Sure! "), (js "SELECT"), (js " "), (js "TOP 5 * FROM Products").
  split; [vm_compute; reflexivity|].
  split; [left; reflexivity|].
  split; [split; [discriminate | repeat constructor] | reflexivity].
Defined.

(** ** The explanation is optional work *)

Import Explanation.

Lemma generateSQL_sameUntilExplanation w w' :
  sameUntilExplanation w w' -> generateSQL w = generateSQL w'.
Proof.
  intros (Hs & Ha & Hg & _). unfold generateSQL. rewrite Hs, Ha, Hg.
  reflexivity.
Qed.

Ltac same_property name :=
  repeat first
    [ rewrite lookup_insert_ne by congruence
    | match goal with
      | |- context [<[?k := _]> _ !! name] =>
          destruct (decide (k = name)) as [<-|];
          [rewrite !lookup_insert; try reflexivity; congruence|]
      end ];
  try reflexivity.

(** X19.  Whatever the explanation service does, answer or fail, and
    however long it takes, the request fares the same: the same error
    is thrown, or the same response is returned but for the explanation
    and the total time, and the same entry is recorded in the history
    but for the total time and the timestamp, which are read from the
    clock after the explanation.  The explanation of the response is the
    text of the service when the request asked for one and the
    statement returned rows; it is [null] when the service fails, when
    no explanation was asked for and when there are no rows. *)
Theorem X_explanation_never_fails_request now now' question db o env w w' h :
  sameUntilExplanation w w' ->
  match fst (queryFromQuestion (inMemoryRecorder now) question db o env
               w h),
        fst (queryFromQuestion (inMemoryRecorder now') question db o env
               w' h) with
  | Ok a, Ok b =>
      sameButExplanation a b /\
      r_explanation a =
        (if opt_explain o && Nat.ltb 0 (List.length (r_results a))
         then match explainOutcome w with
              | Ok text => Some text
              | Throw _ => None
              end
         else None) /\
      r_explanation b =
        (if opt_explain o && Nat.ltb 0 (List.length (r_results b))
         then match explainOutcome w' with
              | Ok text => Some text
              | Throw _ => None
              end
         else None)
  | Throw m, Throw m' => m = m'
  | _, _ => False
  end /\
  exists e e',
    snd (queryFromQuestion (inMemoryRecorder now) question db o env w h)
      = QueryHistory.addToHistory e now h /\
    snd (queryFromQuestion (inMemoryRecorder now') question db o env w' h)
      = QueryHistory.addToHistory e' now' h /\
    sameButClock e e'.
Proof.
  intros Hsame. pose proof (generateSQL_sameUntilExplanation w w' Hsame) as Hg.
  destruct Hsame as (_ & _ & _ & Hn).
  assert (Hid : requestIdOf o w = requestIdOf o w')
    by (unfold requestIdOf; rewrite Hn; reflexivity).
  unfold queryFromQuestion, inMemoryRecorder. rewrite <- Hg.
  destruct (generateSQL w) as [g|m]; cbn [bind].
  - destruct (executeSQL (g_sql g) db o env) as [e|m]; cbn [bind fst snd].
    + split.
      * split; [|split; reflexivity].
        unfold sameButExplanation, responseOf.
        cbn [r_question r_sql r_results r_rowCount r_timing r_requestId
             r_limitApplied r_schemaTablesUsed fst].
        rewrite Hid. repeat split; reflexivity.
      * eexists. eexists. split; [reflexivity|]. split; [reflexivity|].
        intros name H1 H2. unfold successEntry. rewrite Hid.
        cbn [list_to_map foldr fst snd uncurry]. same_property name.
    + split; [reflexivity|].
      eexists. eexists. split; [reflexivity|]. split; [reflexivity|].
      intros name H1 H2. unfold failureEntry. rewrite Hid.
      cbn [list_to_map foldr fst snd uncurry]. same_property name.
  - cbn [fst snd]. split; [reflexivity|].
    eexists. eexists. split; [reflexivity|]. split; [reflexivity|].
    intros name H1 H2. unfold failureEntry. rewrite Hid.
    cbn [list_to_map foldr fst snd uncurry]. same_property name.
Qed.

Lemma X_explanation_witness :
  exists e e',
    snd (queryFromQuestion (inMemoryRecorder (js "2023-11-14T22:13:20.000Z"))
           (js "Which product?") (answering Postgres 12)
           (mkOptions None None true None) noSettings answeringWorld [])
      = QueryHistory.addToHistory e (js "2023-11-14T22:13:20.000Z") [] /\
    snd (queryFromQuestion (inMemoryRecorder (js "2023-11-14T22:13:24.000Z"))
           (js "Which product?") (answering Postgres 12)
           (mkOptions None None true None) noSettings
           failedExplanationWorld [])
      = QueryHistory.addToHistory e' (js "2023-11-14T22:13:24.000Z") [] /\
    sameButClock e e'.
Proof.
  apply (X_explanation_never_fails_request
           (js "2023-11-14T22:13:20.000Z") (js "2023-11-14T22:13:24.000Z")
           (js "Which product?") (answering Postgres 12)
           (mkOptions None None true None) noSettings answeringWorld
           failedExplanationWorld []).
  repeat split; reflexivity.
Defined.

(** ** has and get *)

Section HasFacts.
Context {schema : Type}.
Implicit Types (c : lru schema) (e : lru_entry schema).

Lemma find_map_same_key k now c :
  List.find (has_key k)
    (List.map (fun x => if has_key k x then updateItemAge x now else x) c)
  = (fun x => updateItemAge x now) <$> List.find (has_key k) c.
Proof.
  induction c as [|x c IH]; [reflexivity|]. cbn [List.map List.find].
  destruct (has_key k x) eqn:E.
  - unfold has_key in *. cbn [updateItemAge key]. rewrite E. reflexivity.
  - rewrite E. exact IH.
Qed.

Lemma keysOf_map_age k now c :
  keysOf (List.map (fun x => if has_key k x then updateItemAge x now else x) c)
  = keysOf c.
Proof.
  unfold keysOf. rewrite List.map_map. apply List.map_ext.
  intros x. destruct (has_key k x); reflexivity.
Qed.

Lemma updateItemAge_live e now t :
  (t - now <= entry_ttl e)%Z -> isStale (updateItemAge e now) t = false.
Proof.
  intros H. unfold isStale, updateItemAge. cbn [entry_ttl start].
  destruct (entry_ttl e =? 0)%Z eqn:E; [reflexivity|].
  replace (entry_ttl e <? t - now)%Z with false
    by (symmetry; apply Z.ltb_ge; exact H).
  apply andb_false_r.
Qed.

End HasFacts.

(** X20.  hasInCache answers true exactly when getSchemaFromCache at the
    same moment returns a schema.  It leaves the order of the entries,
    and so the order of eviction, as it is, and removes nothing; but it
    restarts the time-to-live of a live entry, as the cache is built
    with updateAgeOnHas: a get that comes within the entry's
    time-to-live of the last has returns the schema, however long ago
    the entry was set. *)
Theorem X_has_agrees_with_get {schema : Type} (env : cache_environment)
  (k : jsstring) (now : Z) (c : lru schema) :
  (fst (hasInCache env k now c) = true
   <-> exists s, fst (getSchemaFromCache env k now c) = Some s) /\
  keysOf (snd (hasInCache env k now c)) = keysOf c /\
  (forall e t,
     lookup_entry k c = Some e -> isStale e now = false ->
     (t - now <= entry_ttl e)%Z ->
     fst (getSchemaFromCache env k t (snd (hasInCache env k now c)))
       = Some (value e)).
Proof.
  unfold hasInCache, getSchemaFromCache, lru_has, lru_get.
  cbn [cache_options updateAgeOnHas updateAgeOnGet].
  split; [|split].
  - destruct (lookup_entry k c) as [e|];
      [destruct (isStale e now)|]; cbn [fst]; split;
      try discriminate; try (intros [s Hs]; discriminate Hs); eauto.
  - destruct (lookup_entry k c) as [e|];
      [destruct (isStale e now)|]; cbn [snd]; try reflexivity.
    apply keysOf_map_age.
  - intros e t He Hlive Ht. rewrite He, Hlive. cbn [snd].
    unfold lookup_entry in *. rewrite find_map_same_key, He.
    cbn [fmap option_fmap option_map].
    rewrite (updateItemAge_live e now t Ht). reflexivity.
Qed.

Lemma X_has_agrees_with_get_witness :
  fst (getSchemaFromCache noCacheSettings northwindKey 500000%Z
         (snd (hasInCache noCacheSettings northwindKey 250000%Z
                 (setSchemaInCache noCacheSettings northwindKey
                    northwindSchema None 1000%Z []))))
  = Some northwindSchema.
Proof.
  apply (proj2 (proj2 (X_has_agrees_with_get noCacheSettings northwindKey
                         250000%Z
                         (setSchemaInCache noCacheSettings northwindKey
                            northwindSchema None 1000%Z [])))
           (mkEntry northwindKey northwindSchema 1000%Z 300000%Z) 500000%Z).
  - reflexivity.
  - reflexivity.
  - simpl. lia.
Defined.

(** ** The schema step of generateSQL *)

Import SchemaStep.

Lemma lru_get_miss_absent {V : Type} o k now (c : lru V) :
  fst (lru_get o k now c) = None ->
  lookup_entry k (snd (lru_get o k now c)) = None.
Proof.
  unfold lru_get. destruct (lookup_entry k c) as [e|] eqn:E.
  - destruct (isStale e now); [|discriminate]. intros _. cbn [snd].
    apply lookup_entry_remove_same.
  - intros _. exact E.
Qed.

(** X21.  After a miss that ends in a successful introspection, a
    request with the same database type and database that comes within
    the time-to-live is served from the cache: generateSQL gets the
    schema that was stored and does not call getSchema, whatever the
    introspection would yield now; a request that comes later than the
    time-to-live introspects again.  An introspection that fails stores
    nothing: the next request introspects again. *)
Theorem X_schema_is_introspected_once {schema : Type}
  (env : cache_environment) (o : schemaSettings) (s : schema) now later
  (c : lru schema) :
  (1 <= max (cache_options env))%Z -> (0 < later)%Z ->
  fst (getSchemaFromCache env (cacheKey o) now c) = None ->
  let c1 := snd (fst (schemaFor env o (Ok s) now later c)) in
  fst (fst (schemaFor env o (Ok s) now later c)) = Ok s /\
  snd (schemaFor env o (Ok s) now later c) = true /\
  (forall again t,
     (t - later <= ttl (cache_options env))%Z ->
     fst (fst (schemaFor env o again t t c1)) = Ok s /\
     snd (schemaFor env o again t t c1) = false) /\
  (forall again t,
     (ttl (cache_options env) < t - later)%Z ->
     fst (fst (schemaFor env o again t t c1)) = again /\
     snd (schemaFor env o again t t c1) = true) /\
  (forall message again t,
     snd (schemaFor env o again t t
            (snd (fst (schemaFor env o (Throw message) now later c))))
       = true).
Proof.
  intros Hmax Hlater Hmiss. cbv zeta.
  assert (H1 : schemaFor env o (Ok s) now later c
               = (Ok s, setSchemaInCache env (cacheKey o) s None later
                          (snd (getSchemaFromCache env (cacheKey o) now c)),
                  true)).
  { unfold schemaFor. cbv zeta.
    destruct (getSchemaFromCache env (cacheKey o) now c) as [[x|] c'];
      [discriminate Hmiss | reflexivity]. }
  rewrite H1. cbn [fst snd].
  pose proof (lru_set_lookup (cache_options env) (cacheKey o) s later
                (snd (getSchemaFromCache env (cacheKey o) now c)) Hmax
                (cache_options_ttl env)) as Hl.
  split; [reflexivity|]. split; [reflexivity|].
  set (c0 := snd (getSchemaFromCache env (cacheKey o) now c)) in *.
  split; [|split].
  - intros again t Ht. unfold schemaFor, getSchemaFromCache.
    unfold setSchemaInCache. cbv zeta.
    rewrite (lru_get_live (cache_options env) (cacheKey o) s later t _
               eq_refl (cache_options_ttl env) Hl Ht).
    cbn [fst snd]. split; reflexivity.
  - intros again t Ht. unfold schemaFor. cbv zeta.
    pose proof (lru_get_stale (cache_options env) (cacheKey o) s later t _
                  (cache_options_ttl env) ltac:(lia) Hl Ht) as Hs.
    unfold getSchemaFromCache, setSchemaInCache.
    destruct (lru_get (cache_options env) (cacheKey o) t _) as [[x|] c'];
      [discriminate Hs|].
    destruct again; split; reflexivity.
  - intros message again t. clear Hl H1. subst c0. unfold schemaFor at 2.
    cbv zeta.
    destruct (getSchemaFromCache env (cacheKey o) now c) as [[x|] c'] eqn:E;
      [discriminate Hmiss|].
    cbn [fst snd]. unfold schemaFor. cbv zeta.
    assert (Hc : fst (getSchemaFromCache env (cacheKey o) t c') = None).
    { pose proof (lru_get_miss_absent (cache_options env) (cacheKey o) now c)
        as Ha.
      unfold getSchemaFromCache in *. rewrite E in Ha.
      specialize (Ha eq_refl). cbn [snd] in Ha.
      unfold lru_get. rewrite Ha. reflexivity. }
    destruct (getSchemaFromCache env (cacheKey o) t c') as [[x|] c''];
      [discriminate Hc|].
    destruct again; reflexivity.
Qed.

Lemma X_schema_is_introspected_once_witness :
  snd (schemaFor noCacheSettings plainSettings
         (Throw (js "connection lost")) 200000%Z 200000%Z
         (snd (fst (schemaFor noCacheSettings plainSettings
                      (Ok northwindSchema) 1000%Z 1200%Z []))))
  = false.
Proof.
  apply (proj1 (proj2 (proj2 (X_schema_is_introspected_once noCacheSettings
                         plainSettings northwindSchema 1000%Z 1200%Z []
                         ltac:(simpl; lia) ltac:(lia) eq_refl)))
           (Throw (js "connection lost")) 200000%Z).
  simpl. lia.
Defined.
